(** * Method completion for the language server: a shallow embedding of
    [main/lsp/requests/completion.cc] and the properties of its candidate
    resolution, merging, ranking and presentation. *)

From Stdlib Require Import ZArith NArith String Ascii.
From stdpp Require Import gmap strings list fin_maps sorting.

Local Open Scope Z_scope.
Local Set Warnings "-register-all".

(** ** References into the symbol and name tables *)

(** [core::SymbolRef] and [core::NameRef] wrap an unsigned table index
    ([_id]); index 0 of the symbol table is the symbol that does not exist. *)
Abbreviation SymbolRef := N (only parsing).
Abbreviation NameRef := N (only parsing).

Definition exists_ (s : SymbolRef) : bool := negb (s =? 0)%N.

(** ** Faults and results *)

(** An [ENFORCE] that fails, or an access the language leaves undefined,
    aborts the query.  [OutOfFuel] is the embedding's account of a walk that
    has not finished within the given number of steps. *)
Inductive Fault : Type :=
| LinearizationNotComputed
| OverwriteReceiverType
| OverwriteConstr
| SymbolDoesNotExist
| EmptyVectorAccess.

Inductive Result (A : Type) : Type :=
| Ok (a : A)
| Raise (f : Fault)
| OutOfFuel.
Arguments Ok {A} a.
Arguments Raise {A} f.
Arguments OutOfFuel {A}.

Definition bind {A B} (r : Result A) (k : A -> Result B) : Result B :=
  match r with
  | Ok a => k a
  | Raise f => Raise f
  | OutOfFuel => OutOfFuel
  end.

Notation "'do' x <- e ; k" := (bind e (fun x => k))
  (at level 10, x name, e at level 100, k at level 200).

(** ** The data the type checker owns *)

(** Modelled from the spec: the type algebra of section 3; [core::Type] and
    its subclasses are declared outside this file.  [ProxyType] carries what
    [underlying()] returns. *)
Inductive Type_ : Type :=
| ClassType (symbol : SymbolRef)
| AppliedType (klass : SymbolRef) (targs : list Type_)
| AndType (left right : Type_)
| OrType (left right : Type_)
| ProxyType (underlying : Type_)
| OpaqueType.

Abbreviation TypePtr := Type_ (only parsing).

(** Modelled from the spec: the kinds of a name; [core::NameKind] and
    [core::UniqueNameKind] are declared outside this file. *)
Inductive NameKind : Type := UTF8 | UNIQUE | CONSTANT.
Inductive UniqueNameKind : Type :=
| MangleRename
| Overload
| Singleton
| OtherUniqueNameKind.

Record Name : Type := mkName {
  kind : NameKind;
  uniqueNameKind : UniqueNameKind;   (* [unique.uniqueNameKind]; read only when [kind] is [UNIQUE] *)
  shortName : string                 (* what [shortName(gs)] returns *)
}.

Record ArgFlags : Type := mkArgFlags { isKeyword : bool; isBlock : bool }.

Record ArgInfo : Type := mkArgInfo {
  arg_flags : ArgFlags;
  arg_name : NameRef;
  arg_type : option TypePtr
}.

(** Modelled from the spec: a symbol of section 3, with the accessors this
    file calls on [core::Symbol]. *)
Record Symbol : Type := mkSymbol {
  name : NameRef;
  owner : SymbolRef;
  superClass : SymbolRef;
  mixins : list SymbolRef;
  members : gmap N SymbolRef;        (* keyed by member name *)
  isMethod : bool;
  isStaticField : bool;
  isClassOrModule : bool;
  isClassOrModuleLinearizationComputed : bool;
  arguments : list ArgInfo;
  resultType : option TypePtr;
  loc : option (N * N)               (* file and [beginPos()], when the file exists *)
}.

(** Modelled from the spec: the symbol and name tables of the type checker,
    read through [data(gs)]; [core::GlobalState] is declared outside this
    file. *)
Record GlobalState : Type := mkGlobalState {
  symbolData : SymbolRef -> Symbol;  (* [sym.data(gs)] *)
  nameData : NameRef -> Name         (* [name.data(gs)] *)
}.

(** [shared_ptr<core::TypeConstraint>]: the constraint is only passed along,
    so a handle stands for it. *)
Abbreviation TypeConstraint := N (only parsing).

(** Modelled from the spec: the dispatch result of section 3;
    [core::DispatchResult] is declared outside this file. *)
Record DispatchComponent : Type := mkDispatchComponent {
  dc_receiver : TypePtr;
  dc_constr : option TypeConstraint
}.

Inductive Combinator : Type := OR | AND.

Inductive DispatchResult : Type :=
| mkDispatchResult (main : DispatchComponent)
                   (secondary : option DispatchResult)
                   (secondaryKind : Combinator).

Definition main (d : DispatchResult) : DispatchComponent :=
  match d with mkDispatchResult m _ _ => m end.
Definition secondary (d : DispatchResult) : option DispatchResult :=
  match d with mkDispatchResult _ s _ => s end.
Definition secondaryKind (d : DispatchResult) : Combinator :=
  match d with mkDispatchResult _ _ k => k end.

(** ** Candidates *)

(** [depth] is an [int]; it counts the ancestors walked so far, far fewer
    than [int] can hold, so it is an integer here. *)
Record SimilarMethod : Type := mkSimilarMethod {
  depth : Z;
  receiver : SymbolRef;
  method : SymbolRef;
  (* Populated later *)
  receiverType : option TypePtr;
  constr : option TypeConstraint
}.

Abbreviation SimilarMethodsByName := (gmap N (list SimilarMethod)) (only parsing).

(** [result[k].emplace_back(x)]: creates the list if it does not exist. *)
Definition emplace_back (result : SimilarMethodsByName) (k : NameRef) (x : SimilarMethod)
  : SimilarMethodsByName :=
  <[k := default [] (result !! k) ++ [x]]> result.

(** ** Ancestors *)

Fixpoint ancestorsImpl (fuel : nat) (gs : GlobalState) (sym : SymbolRef)
    (acc : list SymbolRef) : Result (list SymbolRef) :=
  match fuel with
  | O => OutOfFuel
  | S fuel' =>
    if negb (isClassOrModuleLinearizationComputed (symbolData gs sym))
    then Raise LinearizationNotComputed
    else
      let acc := acc ++ [sym] in
      let acc := foldl (fun acc mixin => acc ++ [mixin]) acc (mixins (symbolData gs sym)) in
      if exists_ (superClass (symbolData gs sym))
      then ancestorsImpl fuel' gs (superClass (symbolData gs sym)) acc
      else Ok acc
  end.

Definition ancestors (fuel : nat) (gs : GlobalState) (receiver : SymbolRef)
  : Result (list SymbolRef) :=
  ancestorsImpl fuel gs receiver [].

(** The superclass chain of [sym] ends after [n] steps and every class on it
    has its linearization computed: what [ancestors] needs to return. *)
Inductive finalized (gs : GlobalState) : SymbolRef -> nat -> Prop :=
| finalized_top sym :
    isClassOrModuleLinearizationComputed (symbolData gs sym) = true ->
    exists_ (superClass (symbolData gs sym)) = false ->
    finalized gs sym 0
| finalized_super sym n :
    isClassOrModuleLinearizationComputed (symbolData gs sym) = true ->
    exists_ (superClass (symbolData gs sym)) = true ->
    finalized gs (superClass (symbolData gs sym)) n ->
    finalized gs sym (S n).

Section Resolution.

(** The name-similarity oracle, [hasSimilarName(gs, name, prefix)]. *)
Variable hasSimilarName : GlobalState -> NameRef -> string -> bool.

(** The body of the loop over one ancestor's members. *)
Definition scanMember (gs : GlobalState) (receiver : SymbolRef) (prefix : string)
    (depth : Z) (memberName : NameRef) (memberSymbol : SymbolRef)
    (result : SimilarMethodsByName) : SimilarMethodsByName :=
  if negb (isMethod (symbolData gs memberSymbol)) then result
  else if hasSimilarName gs memberName prefix
       then emplace_back result memberName
              (mkSimilarMethod depth receiver memberSymbol None None)
       else result.

Definition scanAncestor (gs : GlobalState) (receiver : SymbolRef) (prefix : string)
    (st : Z * SimilarMethodsByName) (ancestor : SymbolRef) : Z * SimilarMethodsByName :=
  let depth := st.1 + 1 in
  (depth, map_fold (scanMember gs receiver prefix depth) st.2
                   (members (symbolData gs ancestor))).

Definition similarMethodsForClass (fuel : nat) (gs : GlobalState) (receiver : SymbolRef)
    (prefix : string) : Result SimilarMethodsByName :=
  do ancs <- ancestors fuel gs receiver;
  Ok (foldl (scanAncestor gs receiver prefix) (-1, ∅) ancs).2.

(** Unconditionally creates an intersection of the methods. *)
Definition mergeSimilarMethods (left right : SimilarMethodsByName) : SimilarMethodsByName :=
  map_fold (fun methodName leftSimilarMethods result =>
      match right !! methodName with
      | Some rightSimilarMethods =>
          let result := foldl (fun result similarMethod =>
                                 emplace_back result methodName similarMethod)
                              result leftSimilarMethods in
          foldl (fun result similarMethod => emplace_back result methodName similarMethod)
                result rightSimilarMethods
      | None => result
      end) ∅ left.

Fixpoint similarMethodsForReceiver (fuel : nat) (gs : GlobalState) (receiver : TypePtr)
    (prefix : string) : Result SimilarMethodsByName :=
  match receiver with
  | ClassType symbol => similarMethodsForClass fuel gs symbol prefix
  | AppliedType klass _ => similarMethodsForClass fuel gs klass prefix
  | AndType l r =>
      do left <- similarMethodsForReceiver fuel gs l prefix;
      do right <- similarMethodsForReceiver fuel gs r prefix;
      Ok (mergeSimilarMethods left right)
  | ProxyType underlying => similarMethodsForReceiver fuel gs underlying prefix
  | _ => Ok ∅
  end.

(** The two assignments of the stamping loop, each behind its [ENFORCE]. *)
Definition stamp (receiverType' : TypePtr) (constr' : option TypeConstraint)
    (similarMethod : SimilarMethod) : Result SimilarMethod :=
  match receiverType similarMethod with
  | Some _ => Raise OverwriteReceiverType
  | None =>
    match constr similarMethod with
    | Some _ => Raise OverwriteConstr
    | None => Ok (mkSimilarMethod (depth similarMethod) (receiver similarMethod)
                                  (method similarMethod) (Some receiverType') constr')
    end
  end.

Fixpoint stampAll (receiverType' : TypePtr) (constr' : option TypeConstraint)
    (similarMethods : list SimilarMethod) : Result (list SimilarMethod) :=
  match similarMethods with
  | [] => Ok []
  | similarMethod :: rest =>
      do s <- stamp receiverType' constr' similarMethod;
      do rest' <- stampAll receiverType' constr' rest;
      Ok (s :: rest')
  end.

Definition stampResult (receiverType' : TypePtr) (constr' : option TypeConstraint)
    (result : SimilarMethodsByName) : Result SimilarMethodsByName :=
  map_fold (fun methodName similarMethods acc =>
      do acc' <- acc;
      do stamped <- stampAll receiverType' constr' similarMethods;
      Ok (<[methodName := stamped]> acc')) (Ok ∅) result.

(** Walks a dispatch result.  The constraint of [main] is moved into a shared
    handle, which every candidate of this component then carries. *)
Fixpoint allSimilarMethods (fuel : nat) (gs : GlobalState) (dispatchResult : DispatchResult)
    (prefix : string) : Result SimilarMethodsByName :=
  match dispatchResult with
  | mkDispatchResult main secondary _ =>
      do result <- similarMethodsForReceiver fuel gs (dc_receiver main) prefix;
      let constr := dc_constr main in
      do result <- stampResult (dc_receiver main) constr result;
      match secondary with
      | Some secondary =>
          (* the secondaryKind is ignored: always intersect *)
          do rest <- allSimilarMethods fuel gs secondary prefix;
          Ok (mergeSimilarMethods result rest)
      | None => Ok result
      end
  end.

End Resolution.

(** ** Sorting *)

(** [fast_sort(v, less)]: the vector sorted with respect to the comparator.
    [x] may stand before [y] in the outcome when [less y x] does not hold. *)
Definition notAfter {A} (less : A -> A -> bool) : relation A :=
  fun x y => less y x = false.

#[global] Instance notAfter_dec {A} (less : A -> A -> bool) x y :
  Decision (notAfter less x y).
Proof. unfold notAfter. apply _. Defined.

Definition fast_sort {A} (less : A -> A -> bool) (l : list A) : list A :=
  merge_sort (notAfter less) l.

(** ** Text *)

Definition startsWith (text prefix : string) : bool := String.prefix prefix text.

Definition digitChar (d : N) : ascii := ascii_of_N (48 + d).

Fixpoint decimalDigits (fuel : nat) (n : N) (acc : string) : string :=
  match fuel with
  | O => acc
  | S fuel' =>
    let acc := String (digitChar (n mod 10)) acc in
    if (n / 10 =? 0)%N then acc else decimalDigits fuel' (n / 10) acc
  end.

(** The decimal digits of [n], most significant first ([{}] and [{:d}] of a
    non-negative integer). *)
Definition decimal (n : N) : string :=
  decimalDigits (S (N.to_nat (N.log2 n))) n "".

Fixpoint zeros (k : nat) : string :=
  match k with
  | O => ""
  | S k' => String "0" (zeros k')
  end.

(** [fmt::format("{:06d}", sortIdx)]: a minimum width of six, filled with
    zeros on the left; a longer number is printed whole. *)
Definition format_06d (sortIdx : N) : string :=
  let digits := decimal sortIdx in
  (zeros (6 - String.length digits) +:+ digits)%string.

(** ** Presentation *)

(** Modelled from the spec: the completion record of section 3, with the
    fields this file sets; [CompletionItem] and its enumerations are declared
    outside this file.  A field that is never assigned stays [None]. *)
Inductive CompletionItemKind : Type := Method | Constant | Class.
Inductive InsertTextFormat : Type := PlainText | Snippet.
Inductive MarkupKind : Type := Plaintext | Markdown.

Record CompletionItem : Type := mkCompletionItem {
  label : string;
  sortText : option string;
  itemKind : option CompletionItemKind;
  detail : option string;
  insertTextFormat : option InsertTextFormat;
  insertText : option string;
  documentation : option (MarkupKind * string);
  deprecated : option bool
}.

(** The configuration of the server, as far as this file reads it. *)
Record Config : Type := mkConfig {
  lspAutocompleteEnabled : bool;               (* [config.opts.lspAutocompleteEnabled] *)
  clientCompletionItemSnippetSupport : bool;
  clientCompletionItemMarkupKind : MarkupKind
}.

Section Presentation.

Variable hasSimilarName : GlobalState -> NameRef -> string -> bool.
(** [type->show(gs)] *)
Variable show : GlobalState -> TypePtr -> string.
(** [methodDetail(gs, what, receiverType, nullptr, constraint)] *)
Variable methodDetail :
  GlobalState -> SymbolRef -> option TypePtr -> option TypeConstraint -> string.
(** [findDocumentation] on the source of the file of a location *)
Variable findDocumentation : GlobalState -> N -> N -> option string.
(** [core::Types::untypedUntracked()] *)
Variable untypedUntracked : TypePtr.
(** [membersStableOrderSlow(gs)] of a symbol *)
Variable membersStableOrderSlow : GlobalState -> SymbolRef -> list (NameRef * SymbolRef).
(** [core::Symbols::root()] *)
Variable root : SymbolRef.

Definition symbolShortName (gs : GlobalState) (sym : SymbolRef) : string :=
  shortName (nameData gs (name (symbolData gs sym))).

Definition snippetArg (gs : GlobalState) (st : N * list string) (argSym : ArgInfo)
  : N * list string :=
  let '(i, typeAndArgNames) := st in
  if isBlock (arg_flags argSym) then st
  else
    let s := if isKeyword (arg_flags argSym)
             then (shortName (nameData gs (arg_name argSym)) +:+ ": ")%string
             else ""%string in
    let s := match arg_type argSym with
             | Some ty => (s +:+ "${" +:+ decimal i +:+ ":" +:+ show gs ty +:+ "}")%string
             | None => (s +:+ "${" +:+ decimal i +:+ "}")%string
             end in
    ((i + 1)%N, typeAndArgNames ++ [s]).

Definition methodSnippet (gs : GlobalState) (method : SymbolRef) : string :=
  let shortName := symbolShortName gs method in
  let typeAndArgNames :=
    if isMethod (symbolData gs method)
    then (foldl (snippetArg gs) (1%N, []) (arguments (symbolData gs method))).2
    else [] in
  (shortName +:+ "(" +:+ String.concat ", " typeAndArgNames +:+ ")" +:+ "${0}")%string.

Definition contains (needle text : string) : bool :=
  match String.index 0 needle text with
  | Some _ => true
  | None => false
  end.

Definition getCompletionItem (config : Config) (gs : GlobalState) (what : SymbolRef)
    (receiverType : option TypePtr) (constraint : option TypeConstraint) (sortIdx : N)
  : Result CompletionItem :=
  if negb (exists_ what) then Raise SymbolDoesNotExist
  else
    let label := symbolShortName gs what in
    let sortText := Some (format_06d sortIdx) in
    let resultType := match resultType (symbolData gs what) with
                      | Some t => t
                      | None => untypedUntracked
                      end in
    if isMethod (symbolData gs what) then
      let detail := Some (methodDetail gs what receiverType constraint) in
      let '(format, text) :=
        if clientCompletionItemSnippetSupport config
        then (Snippet, methodSnippet gs what)
        else (PlainText, symbolShortName gs what) in
      let documentation :=
        match loc (symbolData gs what) with
        | Some (file, beginPos) => findDocumentation gs file beginPos
        | None => None
        end in
      Ok (mkCompletionItem label sortText (Some Method) detail (Some format) (Some text)
            (match documentation with
             | Some d => Some (clientCompletionItemMarkupKind config, d)
             | None => None
             end)
            (match documentation with
             | Some d => if contains "@deprecated" d then Some true else None
             | None => None
             end))
    else if isStaticField (symbolData gs what) then
      Ok (mkCompletionItem label sortText (Some Constant) (Some (show gs resultType))
            None None None None)
    else if isClassOrModule (symbolData gs what) then
      Ok (mkCompletionItem label sortText (Some Class) None None None None None)
    else
      Ok (mkCompletionItem label sortText None None None None None None).

(** One pass of the loop over the members of an owner. *)
Definition similarConstantMember (config : Config) (gs : GlobalState)
    (receiverType : TypePtr) (pattern : string)
    (items : Result (list CompletionItem)) (member : NameRef * SymbolRef)
  : Result (list CompletionItem) :=
  do items <- items;
  let sym := member.2 in
  if exists_ sym
     && (isClassOrModule (symbolData gs sym) || isStaticField (symbolData gs sym))
     && match kind (nameData gs (name (symbolData gs sym))) with
        | CONSTANT => true
        | _ => false
        end
     && hasSimilarName gs (name (symbolData gs sym)) pattern
  then
    do item <- getCompletionItem config gs sym (Some receiverType) None
                 (N.of_nat (length items));
    Ok (items ++ [item])
  else Ok items.

Fixpoint similarConstantOwners (fuel : nat) (config : Config) (gs : GlobalState)
    (receiverType : TypePtr) (pattern : string) (owner' : SymbolRef)
    (items : list CompletionItem) : Result (list CompletionItem) :=
  match fuel with
  | O => OutOfFuel
  | S fuel' =>
    let owner' := owner (symbolData gs owner') in
    do items <- foldl (similarConstantMember config gs receiverType pattern) (Ok items)
                  (membersStableOrderSlow gs owner');
    if (owner' =? root)%N then Ok items
    else similarConstantOwners fuel' config gs receiverType pattern owner' items
  end.

Definition findSimilarConstantOrIdent (fuel : nat) (config : Config) (gs : GlobalState)
    (receiverType : TypePtr) (items : list CompletionItem) : Result (list CompletionItem) :=
  match receiverType with
  | ClassType symbol =>
      let pattern := symbolShortName gs symbol in
      similarConstantOwners fuel config gs receiverType pattern symbol items
  | _ => Ok items
  end.

(** ** The request handler *)

(** The comparator of the sort of each name's list. *)
Definition perNameLess (left right : SimilarMethod) : bool :=
  if negb (depth left =? depth right) then depth left <? depth right
  else (method left <? method right)%N.

(** The comparator of the global sort.  [std::string_view] compares byte by
    byte, a proper prefix first, as [String.ltb] does. *)
Definition rankLess (gs : GlobalState) (prefix : string) (left right : SimilarMethod) : bool :=
  if negb (depth left =? depth right) then depth left <? depth right
  else
    let leftShortName := symbolShortName gs (method left) in
    let rightShortName := symbolShortName gs (method right) in
    if negb (leftShortName =? rightShortName)%string then
      if startsWith leftShortName prefix && negb (startsWith rightShortName prefix) then true
      else if negb (startsWith leftShortName prefix) && startsWith rightShortName prefix
           then false
           else String.ltb leftShortName rightShortName
    else (method left <? method right)%N.

Definition isMangleRename (gs : GlobalState) (methodName : NameRef) : bool :=
  match kind (nameData gs methodName), uniqueNameKind (nameData gs methodName) with
  | UNIQUE, MangleRename => true
  | _, _ => false
  end.

(** The first loop over the map: every list sorted in place. *)
Definition sortEach (similarMethodsByName : SimilarMethodsByName) : SimilarMethodsByName :=
  fast_sort perNameLess <$> similarMethodsByName.

(** One pass of the second loop; [similarMethods[0]] of an empty vector is
    undefined. *)
Definition dedupStep (gs : GlobalState) (methodName : NameRef)
    (similarMethods : list SimilarMethod) (deduped : Result (list SimilarMethod))
  : Result (list SimilarMethod) :=
  do deduped <- deduped;
  if isMangleRename gs methodName then Ok deduped
  else match similarMethods with
       | [] => Raise EmptyVectorAccess
       | first :: _ => Ok (deduped ++ [first])
       end.

Definition dedup (gs : GlobalState) (similarMethodsByName : SimilarMethodsByName)
  : Result (list SimilarMethod) :=
  map_fold (dedupStep gs) (Ok []) similarMethodsByName.

(** From the merged map to the ranked sequence. *)
Definition rank (gs : GlobalState) (prefix : string)
    (similarMethodsByName : SimilarMethodsByName) : Result (list SimilarMethod) :=
  do deduped <- dedup gs (sortEach similarMethodsByName);
  Ok (fast_sort (rankLess gs prefix) deduped).

Definition pushItem (config : Config) (gs : GlobalState)
    (items : Result (list CompletionItem)) (similarMethod : SimilarMethod)
  : Result (list CompletionItem) :=
  do items <- items;
  do item <- getCompletionItem config gs (method similarMethod)
               (receiverType similarMethod) (constr similarMethod)
               (N.of_nat (length items));
  Ok (items ++ [item]).

(** Modelled from the spec: what a query on the type checker answers (a
    method call with its dispatch result, an identifier or a constant with
    its type) and the messages of the protocol; [core::lsp::QueryResponse],
    [ResponseMessage], [ResponseError] and [LSPErrorCodes] are declared
    outside this file. *)
Inductive QueryResponse : Type :=
| SendResponse (callerSideName : NameRef) (dispatchResult : DispatchResult)
| IdentResponse (retType : TypePtr)
| ConstantResponse (retType : TypePtr)
| OtherResponse.

Inductive LSPErrorCodes : Type :=
| InvalidRequest
| OtherErrorCode (code : Z).

Inductive LSPMethod : Type := TextDocumentCompletion.

Record ResponseError : Type := mkResponseError {
  code : LSPErrorCodes;
  message : string
}.

Record CompletionList : Type := mkCompletionList {
  isIncomplete : bool;
  items : list CompletionItem
}.

Abbreviation MessageId := (Z + string)%type (only parsing).

Record ResponseMessage : Type := mkResponseMessage {
  jsonrpc : string;
  id : MessageId;
  requestMethod : LSPMethod;
  result : option CompletionList;
  error : option ResponseError
}.

Record CompletionParams : Type := mkCompletionParams {
  uri : string;                      (* [params.textDocument->uri] *)
  position : N * N                   (* [*params.position] *)
}.

Record LSPQueryResult : Type := mkLSPQueryResult {
  qr_gs : GlobalState;
  qr_responses : list QueryResponse;
  qr_error : option ResponseError
}.

(** [LSPResult::make(gs, response)] *)
Abbreviation LSPResult := (GlobalState * ResponseMessage)%type (only parsing).

(** The counters of the process: the pairs [prodCategoryCounterInc] was
    called with, latest last. *)
Abbreviation Counters := (list (string * string)) (only parsing).

(** [setupLSPQueryByLoc], which runs the query on the type checker. *)
Variable setupLSPQueryByLoc :
  GlobalState -> string -> N * N -> LSPMethod -> LSPQueryResult.

Definition completionItems (fuel : nat) (config : Config) (gs : GlobalState)
    (resp : QueryResponse) : Result (list CompletionItem) :=
  match resp with
  | SendResponse callerSideName dispatchResult =>
      let prefix := shortName (nameData gs callerSideName) in
      do similarMethodsByName <- allSimilarMethods hasSimilarName fuel gs dispatchResult prefix;
      do deduped <- rank gs prefix similarMethodsByName;
      foldl (pushItem config gs) (Ok []) deduped
  | IdentResponse retType => findSimilarConstantOrIdent fuel config gs retType []
  | ConstantResponse retType => findSimilarConstantOrIdent fuel config gs retType []
  | OtherResponse => Ok []
  end.

Definition withError (response : ResponseMessage) (e : ResponseError) : ResponseMessage :=
  mkResponseMessage (jsonrpc response) (id response) (requestMethod response)
                    (result response) (Some e).

Definition withResult (response : ResponseMessage) (r : CompletionList) : ResponseMessage :=
  mkResponseMessage (jsonrpc response) (id response) (requestMethod response)
                    (Some r) (error response).

Definition handleTextDocumentCompletion (fuel : nat) (config : Config) (counters : Counters)
    (gs : GlobalState) (id : MessageId) (params : CompletionParams)
  : Result (LSPResult * Counters) :=
  let response := mkResponseMessage "2.0" id TextDocumentCompletion None None in
  if negb (lspAutocompleteEnabled config) then
    Ok ((gs, withError response
               (mkResponseError InvalidRequest
                  "The `Autocomplete` LSP feature is experimental and disabled by default.")),
        counters)
  else
    let counters := counters ++ [("lsp.messages.processed", "textDocument.completion")] in
    let result := setupLSPQueryByLoc gs (uri params) (position params) TextDocumentCompletion in
    let gs := qr_gs result in
    match qr_error result with
    | Some e =>
        (* An error happened while setting up the query. *)
        Ok ((gs, withError response e), counters)
    | None =>
        do items <- match qr_responses result with
                    | resp :: _ => completionItems fuel config gs resp
                    | [] => Ok []
                    end;
        Ok ((gs, withResult response (mkCompletionList false items)), counters)
    end.

End Presentation.

(** * The enum pass of [dsl/OpusEnum.cc] *)

Module OpusEnum.

Inductive ClassDefKind : Type := Module_ | Class.

(** The nodes the pass looks into, with the fields it reads; [E] is the type
    of expressions and [L] the type of locations. *)
Record UnresolvedConstantLit (E L : Type) : Type := mkUnresolvedConstantLit {
  ucl_loc : L;
  scope : E;
  cnst : NameRef
}.
Arguments mkUnresolvedConstantLit {E L}.
Arguments ucl_loc {E L}.
Arguments scope {E L}.
Arguments cnst {E L}.

Record Assign (E : Type) : Type := mkAssign { lhs : E; asgn_rhs : E }.
Arguments mkAssign {E}.
Arguments lhs {E}.
Arguments asgn_rhs {E}.

Record Send (E : Type) : Type := mkSend { recv : E; fun_ : NameRef; args : list E }.
Arguments mkSend {E}.
Arguments recv {E}.
Arguments fun_ {E}.
Arguments args {E}.

Record ClassDef (E L : Type) : Type := mkClassDef {
  loc : L;
  declLoc : L;
  kind : ClassDefKind;
  name : E;
  ancestors : list E;
  rhs : list E
}.
Arguments mkClassDef {E L}.
Arguments loc {E L}.
Arguments declLoc {E L}.
Arguments kind {E L}.
Arguments name {E L}.
Arguments ancestors {E L}.
Arguments rhs {E L}.

(** What the pass uses of the syntax tree and of the global state, all of it
    declared outside this file: the casts to the node types, the builders of
    [ast::MK], the well-known names and symbols, and the two operations on
    the name table.  [S] is the type of the global state. *)
Class Ast (E L S : Type) : Type := {
  cast_Assign : E -> option (Assign E);
  cast_UnresolvedConstantLit : E -> option (UnresolvedConstantLit E L);
  cast_Send : E -> option (Send E);
  cast_ConstantLit : E -> option SymbolRef;      (* the [symbol] of the node *)
  isa_EmptyTree : E -> bool;
  isSelfReference : E -> bool;
  exprLoc : E -> L;                              (* [expr->loc] *)
  deepCopy : E -> E;

  Names_new : NameRef;
  Names_let : NameRef;
  Names_typeTemplate : NameRef;
  Names_fixed : NameRef;
  Names_include : NameRef;
  Names_declareFinal : NameRef;
  Names_instance : NameRef;
  Names_extend : NameRef;
  Names_declareAbstract : NameRef;
  Names_declareSealed : NameRef;
  Names_Constants_Enum : NameRef;
  Names_Constants_Opus : NameRef;
  Names_Constants_Elem : NameRef;
  Symbols_root : SymbolRef;
  Symbols_Singleton : SymbolRef;
  Symbols_T : SymbolRef;
  Symbols_T_Helpers : SymbolRef;

  MK_EmptyTree : E;
  MK_UnresolvedConstant : L -> E -> NameRef -> E;
  MK_Constant : L -> SymbolRef -> E;
  MK_Self : L -> E;
  MK_Symbol : L -> NameRef -> E;
  MK_Hash1 : L -> E -> E -> E;
  MK_Assign : L -> E -> E -> E;
  MK_Send0 : L -> E -> NameRef -> E;
  MK_Send1 : L -> E -> NameRef -> E -> E;
  MK_Send2 : L -> E -> NameRef -> E -> E -> E;
  MK_Class : L -> L -> E -> list E -> list E -> ClassDefKind -> E;

  runningUnderAutogen : S -> bool;
  (* [freshNameUnique(core::UniqueNameKind::OpusEnum, original, num)] *)
  freshNameUnique_OpusEnum : S -> NameRef -> nat -> S * NameRef;
  enterNameConstant : S -> NameRef -> S * NameRef
}.

Section Pass.

Context {E L S : Type} `{!Ast E L S}.

Definition isOpusEnum (klass : ClassDef E L) : bool :=
  match kind klass, ancestors klass with
  | Module_, _ => false
  | Class, [] => false
  | Class, front :: _ =>
    match cast_UnresolvedConstantLit front with
    | None => false
    | Some cnst' =>
      if negb (cnst cnst' =? Names_Constants_Enum)%N then false
      else
        match cast_UnresolvedConstantLit (scope cnst') with
        | None => false
        | Some scope' =>
          if negb (cnst scope' =? Names_Constants_Opus)%N then false
          else if isa_EmptyTree (scope scope') then true
          else
            match cast_ConstantLit (scope scope') with
            | None => false
            | Some symbol => (symbol =? Symbols_root)%N
            end
        end
    end
  end.

(** The statements that replace a statement of the shape
    [A = new] or [A = T.let(new, ...)]. *)
Definition enumValue (st : S) (klass : ClassDef E L) (stat : E) (asgn : Assign E)
    (lhs' : UnresolvedConstantLit E L) : S * list E :=
  let '(st, fresh) := freshNameUnique_OpusEnum st (cnst lhs') 1 in
  let '(st, name') := enterNameConstant st fresh in
  let classCnst := MK_UnresolvedConstant (ucl_loc lhs') MK_EmptyTree name' in
  let parent := [deepCopy (name klass)] in
  let sloc := exprLoc stat in
  let classRhs :=
    [ MK_Assign sloc (MK_UnresolvedConstant sloc MK_EmptyTree Names_Constants_Elem)
        (MK_Send1 sloc (MK_Self sloc) Names_typeTemplate
           (MK_Hash1 sloc (MK_Symbol sloc Names_fixed) (deepCopy (name klass))));
      MK_Send1 sloc (MK_Self sloc) Names_include (MK_Constant sloc Symbols_Singleton);
      MK_Send0 sloc (MK_Self sloc) Names_declareFinal ] in
  let classDef := MK_Class sloc sloc (deepCopy classCnst) parent classRhs Class in
  let singletonAsgn :=
    MK_Assign sloc (lhs asgn)
      (MK_Send2 sloc (MK_Constant sloc Symbols_T) Names_let
         (MK_Send0 sloc (deepCopy classCnst) Names_instance)
         classCnst) in
  (st, [classDef; singletonAsgn]).

Definition processStat (st : S) (klass : ClassDef E L) (stat : E) : S * list E :=
  match cast_Assign stat with
  | None => (st, [])
  | Some asgn =>
    match cast_UnresolvedConstantLit (lhs asgn) with
    | None => (st, [])
    | Some lhs' =>
      match cast_Send (asgn_rhs asgn) with
      | None => (st, [])
      | Some rhs' =>
        if negb (fun_ rhs' =? Names_new)%N && negb (fun_ rhs' =? Names_let)%N
        then (st, [])
        else if (fun_ rhs' =? Names_new)%N && negb (isSelfReference (recv rhs'))
        then (st, [])
        else if (fun_ rhs' =? Names_let)%N then
          match cast_UnresolvedConstantLit (recv rhs') with
          | None => (st, [])
          | Some _ =>
            if negb (length (args rhs') =? 2)%nat then (st, [])
            else
              match args rhs' !! 0%nat with
              | None => (st, [])
              | Some arg0' =>
                match cast_Send arg0' with
                | None => (st, [])
                | Some arg0 =>
                  if negb ((fun_ arg0 =? Names_new)%N && isSelfReference (recv arg0))
                  then (st, [])
                  else enumValue st klass stat asgn lhs'
                end
              end
          end
        else enumValue st klass stat asgn lhs'
      end
    end
  end.

(** One pass of the loop over the old body. *)
Definition patchStat (klass : ClassDef E L) (acc : S * list E) (stat : E) : S * list E :=
  let '(st, rhs') := acc in
  let '(st, newStats) := processStat st klass stat in
  match newStats with
  | [] => (st, rhs' ++ [stat])
  | _ => (st, rhs' ++ newStats)
  end.

Definition patchDSL (st : S) (klass : ClassDef E L) : S * ClassDef E L :=
  if runningUnderAutogen st then (st, klass)
  else if negb (isOpusEnum klass) then (st, klass)
  else
    let oldRHS := rhs klass in
    let loc' := declLoc klass in
    let header :=
      [ MK_Send1 loc' (MK_Self loc') Names_extend (MK_Constant loc' Symbols_T_Helpers);
        MK_Send0 loc' (MK_Self loc') Names_declareAbstract;
        MK_Send0 loc' (MK_Self loc') Names_declareSealed ] in
    let '(st, rhs') := foldl (patchStat klass) (st, header) oldRHS in
    (st, mkClassDef (loc klass) (declLoc klass) (kind klass) (name klass)
                    (ancestors klass) rhs').

(** The statements of the body that the pass turns into enum values. *)
Definition isEnumValue (st : S) (klass : ClassDef E L) (stat : E) : bool :=
  match (processStat st klass stat).2 with
  | [] => false
  | _ => true
  end.

(** A statement that looks like [A = new] or [A = T.let(new, ...)]: an
    assignment to a constant whose right-hand side is a call of [new] or of
    [let]; a call of [new] is on self; a call of [let] is on a constant and
    has two arguments, the first of them a call of [new] on self. *)
Definition looksLikeEnumValue (stat : E) : bool :=
  match cast_Assign stat with
  | None => false
  | Some asgn =>
    match cast_UnresolvedConstantLit (lhs asgn), cast_Send (asgn_rhs asgn) with
    | Some _, Some rhs' =>
      let isNew := (fun_ rhs' =? Names_new)%N in
      let isLet := (fun_ rhs' =? Names_let)%N in
      (isNew || isLet)
      && (negb isNew || isSelfReference (recv rhs'))
      && (negb isLet ||
          match cast_UnresolvedConstantLit (recv rhs'), args rhs' with
          | Some _, [arg0'; _] =>
            match cast_Send arg0' with
            | Some arg0 => (fun_ arg0 =? Names_new)%N && isSelfReference (recv arg0)
            | None => false
            end
          | _, _ => false
          end)
    | _, _ => false
    end
  end.

(** The old body with every statement that looks like an enum value replaced,
    in place, by the statements made for it at the state reached so far, and
    every other statement kept. *)
Fixpoint expandBody (st : S) (klass : ClassDef E L) (stats : list E) : S * list E :=
  match stats with
  | [] => (st, [])
  | stat :: stats =>
    if looksLikeEnumValue stat then
      let '(st, newStats) := processStat st klass stat in
      let '(st, body) := expandBody st klass stats in
      (st, newStats ++ body)
    else
      let '(st, body) := expandBody st klass stats in
      (st, stat :: body)
  end.

End Pass.

End OpusEnum.

(** ** A small syntax tree used to run the pass *)

Module OpusEnumFixture.

Import OpusEnum.

Inductive Expr : Type :=
| EEmpty
| EUnresolved (scope : Expr) (cnst : N)
| EConstant (symbol : N)
| EAssign (lhs rhs : Expr)
| ESend (recv : Expr) (fn : N) (args : list Expr)
| ESelf
| ESymbol (n : N)
| EHash (key value : Expr)
| EClass (name : Expr) (ancestors body : list Expr) (kind : ClassDefKind)
| EInteger (z : Z).

(** The state: whether autogen runs, and how many names were made. *)
#[global] Instance ast : Ast Expr unit (bool * nat) := {|
  cast_Assign e := match e with EAssign l r => Some (mkAssign l r) | _ => None end;
  cast_UnresolvedConstantLit e :=
    match e with EUnresolved s c => Some (mkUnresolvedConstantLit tt s c) | _ => None end;
  cast_Send e := match e with ESend r f a => Some (mkSend r f a) | _ => None end;
  cast_ConstantLit e := match e with EConstant s => Some s | _ => None end;
  isa_EmptyTree e := match e with EEmpty => true | _ => false end;
  isSelfReference e := match e with ESelf => true | _ => false end;
  exprLoc _ := tt;
  deepCopy e := e;
  Names_new := 1%N; Names_let := 2%N; Names_typeTemplate := 3%N; Names_fixed := 4%N;
  Names_include := 5%N; Names_declareFinal := 6%N; Names_instance := 7%N;
  Names_extend := 8%N; Names_declareAbstract := 9%N; Names_declareSealed := 10%N;
  Names_Constants_Enum := 11%N; Names_Constants_Opus := 12%N;
  Names_Constants_Elem := 13%N;
  Symbols_root := 1%N; Symbols_Singleton := 2%N; Symbols_T := 3%N; Symbols_T_Helpers := 4%N;
  MK_EmptyTree := EEmpty;
  MK_UnresolvedConstant _ s c := EUnresolved s c;
  MK_Constant _ s := EConstant s;
  MK_Self _ := ESelf;
  MK_Symbol _ n := ESymbol n;
  MK_Hash1 _ k v := EHash k v;
  MK_Assign _ l r := EAssign l r;
  MK_Send0 _ r f := ESend r f [];
  MK_Send1 _ r f a := ESend r f [a];
  MK_Send2 _ r f a b := ESend r f [a; b];
  MK_Class _ _ n a b k := EClass n a b k;
  runningUnderAutogen st := st.1;
  freshNameUnique_OpusEnum st original num := ((st.1, S st.2), (1000 + original)%N);
  enterNameConstant st n := (st, n)
|}.

(** [class Suit < Opus::Enum; Clubs = new; Spades = T.let(new, Suit); count = 2; end] *)
Definition suit : ClassDef Expr unit :=
  mkClassDef tt tt Class (EUnresolved EEmpty 50%N)
    [EUnresolved (EUnresolved EEmpty 12%N) 11%N]
    [ EAssign (EUnresolved EEmpty 60%N) (ESend ESelf 1%N []);
      EAssign (EUnresolved EEmpty 61%N)
        (ESend (EUnresolved EEmpty 70%N) 2%N [ESend ESelf 1%N []; EUnresolved EEmpty 50%N]);
      EAssign (EUnresolved EEmpty 62%N) (EInteger 2) ].

End OpusEnumFixture.

(** ** A small symbol table used to run the definitions *)

Module Fixture.

Definition names (n : NameRef) : Name :=
  match n with
  | 100%N => mkName UTF8 OtherUniqueNameKind "foo_bar"
  | 101%N => mkName UTF8 OtherUniqueNameKind "foo_baz"
  | 102%N => mkName UTF8 OtherUniqueNameKind "run"
  | 103%N => mkName UNIQUE MangleRename "foo_old"
  | 104%N => mkName UTF8 OtherUniqueNameKind "initialize_x"
  | 105%N => mkName UNIQUE Overload "foo_bar"
  | 200%N => mkName UTF8 OtherUniqueNameKind "foo"
  | 201%N => mkName UTF8 OtherUniqueNameKind "initialize"
  | _ => mkName CONSTANT OtherUniqueNameKind "K"
  end.

Definition klass (superClass : SymbolRef) (mixins : list SymbolRef)
    (members : list (NameRef * SymbolRef)) (linearized : bool) : Symbol :=
  mkSymbol 0%N 0%N superClass mixins (list_to_map members)
           false false true linearized [] None None.

Definition meth (name : NameRef) (owner : SymbolRef) : Symbol :=
  mkSymbol name owner 0%N [] ∅ true false false false [] None None.

(** [A] (1) defines [foo_bar], a renamed [foo_old] and [initialize_x];
    [B] (2) is a subclass of [A], mixes in [M] (3) and defines [foo_baz];
    [M] defines [run] and its own [foo_bar]; [U] (4) has no linearization
    yet; [L] (5) is its own superclass. *)
Definition symbols (s : SymbolRef) : Symbol :=
  match s with
  | 1%N => klass 0%N [] [(100, 10); (103, 13); (104, 14)]%N true
  | 2%N => klass 1%N [3%N] [(101, 11)]%N true
  | 3%N => klass 0%N [] [(102, 12); (100, 16)]%N true
  | 4%N => klass 0%N [] [(100, 10)]%N false
  | 5%N => klass 5%N [] [] true
  | 10%N => meth 100%N 1%N
  | 11%N => meth 101%N 2%N
  | 12%N => meth 102%N 3%N
  | 13%N => meth 103%N 1%N
  | 14%N => meth 104%N 1%N
  | 16%N => meth 100%N 3%N
  | _ => mkSymbol 0%N 0%N 0%N [] ∅ false false false false [] None None
  end.

Definition gs : GlobalState := mkGlobalState symbols names.

(** An oracle with the least it has to offer: an exact prefix match. *)
Definition similar (gs : GlobalState) (n : NameRef) (prefix : string) : bool :=
  String.prefix prefix (shortName (nameData gs n)).

Definition A : SymbolRef := 1%N.
Definition B : SymbolRef := 2%N.
Definition M : SymbolRef := 3%N.

End Fixture.

(** ** A symbol table that enters one method under two names *)

Module TieFixture.

Definition names (n : NameRef) : Name :=
  match n with
  | 100%N => mkName UTF8 OtherUniqueNameKind "foo_a"
  | 101%N => mkName UTF8 OtherUniqueNameKind "foo_b"
  | _ => mkName UTF8 OtherUniqueNameKind "foo"
  end.

(** [X] (1) has [foo_a] (method 50) and [foo_b] (method 51); [Y] (2) has
    [foo_a] (method 60) and, under the name [foo_b], the method 50 again. *)
Definition symbols (s : SymbolRef) : Symbol :=
  match s with
  | 1%N => Fixture.klass 0%N [] [(100, 50); (101, 51)]%N true
  | 2%N => Fixture.klass 0%N [] [(100, 60); (101, 50)]%N true
  | 50%N => Fixture.meth 100%N 1%N
  | 51%N => Fixture.meth 101%N 1%N
  | 60%N => Fixture.meth 100%N 2%N
  | _ => mkSymbol 0%N 0%N 0%N [] ∅ false false false false [] None None
  end.

Definition gs : GlobalState := mkGlobalState symbols names.

(** A call on a receiver of type [X & Y]. *)
Definition dispatch : DispatchResult :=
  mkDispatchResult (mkDispatchComponent (AndType (ClassType 1%N) (ClassType 2%N)) None)
                   None OR.

End TieFixture.

(** ** Notions used to state the properties *)

(** The chain [ancestors] walks, written down by recursion on its length. *)
Fixpoint linearization (gs : GlobalState) (n : nat) (sym : SymbolRef) : list SymbolRef :=
  sym :: mixins (symbolData gs sym) ++
  match n with
  | O => []
  | S n' => linearization gs n' (superClass (symbolData gs sym))
  end.

(** [c] is one of the candidates listed under the name [n]. *)
Definition listed (m : gmap N (list SimilarMethod)) (n : NameRef) (c : SimilarMethod) : Prop :=
  exists cs, m !! n = Some cs /\ c ∈ cs.

(** No name is kept with an empty list. *)
Definition inhabited (m : gmap N (list SimilarMethod)) : Prop :=
  forall n cs, m !! n = Some cs -> cs <> [].

(** What the ancestor [a], met at depth [d] of the walk from [C], contributes
    under the name [n]. *)
Definition found (hasSimilarName : GlobalState -> NameRef -> string -> bool)
    (gs : GlobalState) (C : SymbolRef) (prefix : string)
    (d : Z) (a : SymbolRef) (n : NameRef) (c : SimilarMethod) : Prop :=
  exists meth,
    members (symbolData gs a) !! n = Some meth /\
    isMethod (symbolData gs meth) = true /\
    hasSimilarName gs n prefix = true /\
    c = mkSimilarMethod d C meth None None.

(** A candidate as the class candidate finder leaves it. *)
Definition unstamped (c : SimilarMethod) : Prop :=
  receiverType c = None /\ constr c = None.

(** The candidate [c] once the merger has written the receiver type and the
    constraint of a component into it. *)
Definition stamped (receiverType' : TypePtr) (constr' : option TypeConstraint)
    (c : SimilarMethod) : SimilarMethod :=
  mkSimilarMethod (depth c) (receiver c) (method c) (Some receiverType') constr'.

(** The by-name intersection in the words of the spec: the names present in
    both maps, each with the left list followed by the right list. *)
Definition intersectByName (left right : gmap N (list SimilarMethod))
  : gmap N (list SimilarMethod) :=
  intersection_with (fun l r => Some (l ++ r)) left right.

(** The components of a dispatch chain, [main] first, without the kinds of
    the links between them. *)
Fixpoint components (d : DispatchResult) : list DispatchComponent :=
  match d with
  | mkDispatchResult main None _ => [main]
  | mkDispatchResult main (Some rest) _ => main :: components rest
  end.

(** The receiver types [similarMethodsForReceiver] has a case for. *)
Definition handled (t : TypePtr) : bool :=
  match t with
  | ClassType _ | AppliedType _ _ | AndType _ _ | ProxyType _ => true
  | OrType _ _ | OpaqueType => false
  end.

(** A result that is one of the two faults of the stamping loop. *)
Definition overwriteFault {A} (r : Result A) : bool :=
  match r with
  | Raise OverwriteReceiverType | Raise OverwriteConstr => true
  | _ => false
  end.

(** Reading a string of decimal digits back, most significant digit first;
    [None] when a character is not a digit. *)
Definition digitValue (c : ascii) : option N :=
  let k := N_of_ascii c in
  if ((48 <=? k) && (k <=? 57))%N then Some (k - 48)%N else None.

Fixpoint readDecimal (s : string) (acc : N) : option N :=
  match s with
  | EmptyString => Some acc
  | String c s' =>
    match digitValue c with
    | Some d => readDecimal s' (10 * acc + d)%N
    | None => None
    end
  end.

(** The order of the per-name sort, spelled out: nearer first, then the
    smaller method identity. *)
Definition perNameBefore (l r : SimilarMethod) : Prop :=
  depth l < depth r \/ (depth l = depth r /\ (method l < method r)%N).

(** 0 for a name that starts with the prefix, 1 for one that only matched
    fuzzily. *)
Definition prefixClass (prefix : string) (shortName : string) : Z :=
  if startsWith shortName prefix then 0 else 1.

(** The order of the global sort in the words of the spec: depth ascending,
    then names starting with the prefix first, then alphabetical by raw
    name, then method identity ascending. *)
Definition rankBefore (gs : GlobalState) (prefix : string) (l r : SimilarMethod) : Prop :=
  let ln := shortName (nameData gs (name (symbolData gs (method l)))) in
  let rn := shortName (nameData gs (name (symbolData gs (method r)))) in
  depth l < depth r \/
  (depth l = depth r /\
   (prefixClass prefix ln < prefixClass prefix rn \/
    (prefixClass prefix ln = prefixClass prefix rn /\
     (String.compare ln rn = Lt \/
      (ln = rn /\ (method l < method r)%N))))).

(** Every method is entered in its owner's table under its own name, as the
    symbol table does when it enters or renames a method. *)
Definition methodsKeyed (gs : GlobalState) : Prop :=
  forall a n s,
    members (symbolData gs a) !! n = Some s ->
    isMethod (symbolData gs s) = true ->
    name (symbolData gs s) = n.

(** A three-way comparison that decides a strict total order. *)
Class StrictCompare {K : Type} (cmp : K -> K -> comparison) : Prop := {
  cmp_eq : forall x y, cmp x y = Eq <-> x = y;
  cmp_antisym : forall x y, cmp y x = CompOpp (cmp x y);
  cmp_trans : forall x y z, cmp x y = Lt -> cmp y z = Lt -> cmp x z = Lt
}.

(** First by the first component, then by the second. *)
Definition lexCompare {K1 K2 : Type} (cmp1 : K1 -> K1 -> comparison)
    (cmp2 : K2 -> K2 -> comparison) (x y : K1 * K2) : comparison :=
  match cmp1 x.1 y.1 with
  | Eq => cmp2 x.2 y.2
  | c => c
  end.

(** What the global sort looks at in a candidate, in the order it looks. *)
Definition rankKey (gs : GlobalState) (prefix : string) (c : SimilarMethod)
  : Z * (Z * (string * N)) :=
  let n := shortName (nameData gs (name (symbolData gs (method c)))) in
  (depth c, (prefixClass prefix n, (n, method c))).

Definition rankCompare : Z * (Z * (string * N)) -> Z * (Z * (string * N)) -> comparison :=
  lexCompare Z.compare (lexCompare Z.compare (lexCompare String.compare N.compare)).

(** The class symbols whose ancestors [similarMethodsForReceiver] walks for a
    receiver type: those under intersections and proxies, not those under a
    union or among type arguments. *)
Fixpoint consulted (t : TypePtr) : list SymbolRef :=
  match t with
  | ClassType symbol => [symbol]
  | AppliedType klass _ => [klass]
  | AndType l r => consulted l ++ consulted r
  | ProxyType underlying => consulted underlying
  | OrType _ _ | OpaqueType => []
  end.

(** The text one argument that is not a block contributes to a snippet when
    it is the [i]-th placeholder. *)
Definition placeholder (show : GlobalState -> TypePtr -> string) (gs : GlobalState)
    (i : N) (argSym : ArgInfo) : string :=
  let s := if isKeyword (arg_flags argSym)
           then (shortName (nameData gs (arg_name argSym)) +:+ ": ")%string
           else ""%string in
  match arg_type argSym with
  | Some ty => (s +:+ "${" +:+ decimal i +:+ ":" +:+ show gs ty +:+ "}")%string
  | None => (s +:+ "${" +:+ decimal i +:+ "}")%string
  end.

(** Every item carries its own position as sort key. *)
Definition indexed (items : list CompletionItem) : Prop :=
  forall (i : nat) item,
    items !! i = Some item -> sortText item = Some (format_06d (N.of_nat i)).

(** The candidates of one component after the merger has written the
    receiver type and the constraint of that component into each of them. *)
Definition stampedMap (component : DispatchComponent) (fresh : gmap N (list SimilarMethod))
  : gmap N (list SimilarMethod) :=
  map (stamped (dc_receiver component) (dc_constr component)) <$> fresh.

(** The by-name intersection of the maps of a chain, first component first. *)
Fixpoint chainMap (maps : list (gmap N (list SimilarMethod))) : gmap N (list SimilarMethod) :=
  match maps with
  | [] => ∅
  | m :: rest =>
    match rest with
    | [] => m
    | _ :: _ => intersectByName m (chainMap rest)
    end
  end.

(** The test of the loop over the members of an owner: the member exists,
    is a class, a module or a static field, has a constant name, and that
    name is similar to the pattern. *)
Definition isSimilarConstant (hasSimilarName : GlobalState -> NameRef -> string -> bool)
    (gs : GlobalState) (pattern : string) (sym : SymbolRef) : bool :=
  exists_ sym
  && (isClassOrModule (symbolData gs sym) || isStaticField (symbolData gs sym))
  && match kind (nameData gs (name (symbolData gs sym))) with
     | CONSTANT => true
     | _ => false
     end
  && hasSimilarName gs (name (symbolData gs sym)) pattern.

(** The owner of a symbol, the owner of that owner, and so on: [k + 1] of
    them, nearest first. *)
Fixpoint ownersAbove (gs : GlobalState) (k : nat) (s : SymbolRef) : list SymbolRef :=
  let o := owner (symbolData gs s) in
  o :: match k with
       | O => []
       | S k' => ownersAbove gs k' o
       end.

(** The members of the given owners that pass the test, owner by owner and
    within an owner in the stable order of its members. *)
Definition constantCandidates (hasSimilarName : GlobalState -> NameRef -> string -> bool)
    (membersStableOrderSlow : GlobalState -> SymbolRef -> list (NameRef * SymbolRef))
    (gs : GlobalState) (pattern : string) (owners : list SymbolRef) : list SymbolRef :=
  List.filter (isSimilarConstant hasSimilarName gs pattern)
    (concat ((fun o => (membersStableOrderSlow gs o).*2) <$> owners)).

(** * Properties *)

(** ** Results *)

Lemma bind_Ok {A B} (r : Result A) (k : A -> Result B) (b : B) :
  bind r k = Ok b -> exists a, r = Ok a /\ k a = Ok b.
Proof. destruct r; simpl; intros H; try discriminate. eauto. Qed.

(** ** Ancestors *)

Lemma foldl_snoc_app {A} (acc l : list A) :
  foldl (fun acc x => acc ++ [x]) acc l = acc ++ l.
Proof.
  revert acc. induction l as [|x l IH]; intros acc; simpl.
  - by rewrite app_nil_r.
  - rewrite IH, <- app_assoc. reflexivity.
Qed.

Lemma ancestorsImpl_finalized gs sym n :
  finalized gs sym n ->
  forall fuel acc, (n < fuel)%nat ->
    ancestorsImpl fuel gs sym acc = Ok (acc ++ linearization gs n sym).
Proof.
  induction 1 as [sym Hlin Hsup | sym n Hlin Hsup Hfin IH]; intros fuel acc Hfuel;
    (destruct fuel as [|fuel]; [lia|]); simpl; rewrite Hlin, Hsup; simpl;
    rewrite foldl_snoc_app, <- app_assoc; simpl.
  - by rewrite app_nil_r.
  - rewrite IH by lia. by rewrite <- !app_assoc.
Qed.

Lemma ancestors_finalized gs sym n fuel :
  finalized gs sym n -> (n < fuel)%nat ->
  ancestors fuel gs sym = Ok (linearization gs n sym).
Proof. intros Hfin Hfuel. unfold ancestors. by rewrite (ancestorsImpl_finalized _ _ _ Hfin). Qed.

Lemma ancestorsImpl_head fuel gs sym acc l :
  ancestorsImpl fuel gs sym acc = Ok l -> exists rest, l = acc ++ sym :: rest.
Proof.
  revert sym acc. induction fuel as [|fuel IH]; intros sym acc; simpl; [discriminate|].
  destruct (negb _); [discriminate|]. rewrite foldl_snoc_app.
  destruct (exists_ _).
  - intros [rest ->]%IH. rewrite <- !app_assoc. simpl. eauto.
  - intros [= <-]. rewrite <- app_assoc. simpl. eauto.
Qed.

(** ** Maps of candidates *)

Lemma listed_empty n c : ~ listed ∅ n c.
Proof. intros (cs & H & _). by rewrite lookup_empty in H. Qed.

Lemma inhabited_empty : inhabited ∅.
Proof. intros n cs H. by rewrite lookup_empty in H. Qed.

Lemma listed_emplace_back m k x n c :
  listed (emplace_back m k x) n c <-> listed m n c \/ (n = k /\ c = x).
Proof.
  unfold listed, emplace_back. destruct (decide (k = n)) as [->|Hne].
  - rewrite lookup_insert_eq. split.
    + intros (cs & [= <-] & Hin). apply elem_of_app in Hin as [Hin|Hin].
      * left. destruct (m !! n) as [cs|] eqn:E; simpl in Hin; [eauto|].
        by apply elem_of_nil in Hin.
      * right. apply list_elem_of_singleton in Hin. done.
    + intros [(cs & E & Hin)|[_ ->]]; eexists; split; try reflexivity.
      * rewrite E. simpl. apply elem_of_app. by left.
      * apply elem_of_app. right. by apply list_elem_of_singleton.
  - rewrite lookup_insert_ne by done. split; [by left|].
    intros [H|[-> _]]; [done|congruence].
Qed.

Lemma inhabited_emplace_back m k x : inhabited m -> inhabited (emplace_back m k x).
Proof.
  intros Hm n cs. unfold emplace_back. destruct (decide (k = n)) as [->|Hne].
  - rewrite lookup_insert_eq. intros [= <-]. by destruct (default [] (m !! n)).
  - rewrite lookup_insert_ne by done. apply Hm.
Qed.

Lemma lookup_foldl_emplace_back (m : gmap N (list SimilarMethod)) k xs n :
  foldl (fun r x => emplace_back r k x) m xs !! n =
  if decide (k = n)
  then match xs with
       | [] => m !! n
       | _ => Some (default [] (m !! n) ++ xs)
       end
  else m !! n.
Proof.
  revert m. induction xs as [|x xs IH]; intros m; simpl.
  - by destruct (decide _).
  - rewrite IH. unfold emplace_back. destruct (decide (k = n)) as [->|Hne].
    + rewrite lookup_insert_eq. simpl. destruct xs; simpl.
      * reflexivity.
      * by rewrite <- app_assoc.
    + by rewrite lookup_insert_ne.
Qed.

(** ** The class candidate finder *)

Section ClassFinder.

Variable hasSimilarName : GlobalState -> NameRef -> string -> bool.
Variables (gs : GlobalState) (C : SymbolRef) (prefix : string).

Local Abbreviation found := (found hasSimilarName gs C prefix).

Lemma listed_scanMembers d a m0 n c :
  listed (map_fold (scanMember hasSimilarName gs C prefix d) m0
            (members (symbolData gs a))) n c
  <-> listed m0 n c \/ found d a n c.
Proof.
  unfold found. generalize (members (symbolData gs a)). intros mem.
  apply (map_fold_weak_ind (fun r (mem : gmap N SymbolRef) =>
    listed r n c <-> listed m0 n c \/
      exists meth, mem !! n = Some meth /\ isMethod (symbolData gs meth) = true /\
        hasSimilarName gs n prefix = true /\ c = mkSimilarMethod d C meth None None)).
  - split; [by left|]. intros [H|(meth & H & _)]; [done|]. by rewrite lookup_empty in H.
  - clear mem. intros i x mem r Hfresh IH. unfold scanMember.
    destruct (isMethod (symbolData gs x)) eqn:Hm; simpl;
      [destruct (hasSimilarName gs i prefix) eqn:Hs|].
    + rewrite listed_emplace_back, IH. split.
      * intros [[H|(meth & Hl & H)]|[-> ->]]; [by left| |].
        -- right. exists meth. split; [|done]. rewrite lookup_insert_ne; [done|].
           intros ->. congruence.
        -- right. exists x. by rewrite lookup_insert_eq.
      * intros [H|(meth & Hl & Hi & Hsim & ->)]; [by left; left|].
        destruct (decide (i = n)) as [->|Hne].
        -- rewrite lookup_insert_eq in Hl. injection Hl as ->. by right.
        -- rewrite lookup_insert_ne in Hl by done. left. right. by exists meth.
    + rewrite IH. apply or_iff_compat_l. split; intros (meth & Hl & Hi & Hsim & ->).
      * exists meth. split; [|done]. rewrite lookup_insert_ne; [done|].
        intros ->. congruence.
      * destruct (decide (i = n)) as [->|Hne].
        -- congruence.
        -- rewrite lookup_insert_ne in Hl by done. by exists meth.
    + rewrite IH. apply or_iff_compat_l. split; intros (meth & Hl & Hi & Hsim & ->).
      * exists meth. split; [|done]. rewrite lookup_insert_ne; [done|].
        intros ->. congruence.
      * destruct (decide (i = n)) as [->|Hne].
        -- rewrite lookup_insert_eq in Hl. congruence.
        -- rewrite lookup_insert_ne in Hl by done. by exists meth.
Qed.

Lemma inhabited_scanMembers d a m0 :
  inhabited m0 ->
  inhabited (map_fold (scanMember hasSimilarName gs C prefix d) m0
               (members (symbolData gs a))).
Proof.
  intros H0. apply (map_fold_weak_ind (fun r (_ : gmap N SymbolRef) => inhabited r)); [done|].
  intros i x mem r _ IH. unfold scanMember.
  destruct (negb _); [done|]. destruct (hasSimilarName _ _ _); [|done].
  by apply inhabited_emplace_back.
Qed.

Lemma listed_scanAncestors ancs d0 m0 n c :
  listed (foldl (scanAncestor hasSimilarName gs C prefix) (d0, m0) ancs).2 n c
  <-> listed m0 n c \/
      exists (i : nat) a, ancs !! i = Some a /\ found (d0 + 1 + Z.of_nat i) a n c.
Proof.
  revert d0 m0. induction ancs as [|a ancs IH]; intros d0 m0; simpl.
  - split; [by left|]. intros [H|(i & a & H & _)]; [done|]. by destruct i.
  - unfold scanAncestor at 2. simpl. rewrite IH, listed_scanMembers. split.
    + intros [[H|H]|(i & b & Hi & H)].
      * by left.
      * right. exists 0%nat, a. split; [done|]. by rewrite Z.add_0_r.
      * right. exists (S i), b. split; [done|].
        replace (d0 + 1 + Z.of_nat (S i)) with (d0 + 1 + 1 + Z.of_nat i) by lia. done.
    + intros [H|(i & b & Hi & H)]; [by left; left|]. destruct i as [|i]; simpl in Hi.
      * injection Hi as ->. left. right. by rewrite Z.add_0_r in H.
      * right. exists i, b. split; [done|].
        replace (d0 + 1 + 1 + Z.of_nat i) with (d0 + 1 + Z.of_nat (S i)) by lia. done.
Qed.

Lemma inhabited_scanAncestors ancs d0 m0 :
  inhabited m0 ->
  inhabited (foldl (scanAncestor hasSimilarName gs C prefix) (d0, m0) ancs).2.
Proof.
  revert d0 m0. induction ancs as [|a ancs IH]; intros d0 m0 H0; simpl; [done|].
  apply IH. by apply inhabited_scanMembers.
Qed.

Lemma similarMethodsForClass_Ok fuel ancs :
  ancestors fuel gs C = Ok ancs ->
  similarMethodsForClass hasSimilarName fuel gs C prefix =
  Ok (foldl (scanAncestor hasSimilarName gs C prefix) (-1, ∅) ancs).2.
Proof. intros H. unfold similarMethodsForClass. by rewrite H. Qed.

Lemma similarMethodsForClass_inv fuel m :
  similarMethodsForClass hasSimilarName fuel gs C prefix = Ok m ->
  exists ancs, ancestors fuel gs C = Ok ancs /\
    m = (foldl (scanAncestor hasSimilarName gs C prefix) (-1, ∅) ancs).2.
Proof.
  unfold similarMethodsForClass. intros (ancs & H & [= <-])%bind_Ok. eauto.
Qed.

End ClassFinder.

(** C1, as the code has it: on a finalized hierarchy and with fuel beyond the
    length of the superclass chain, the walk over [ancestors(C)] returns,
    starts with [C] itself at depth 0, and the candidates listed under a name
    are exactly the similar methods found among the direct members of the
    ancestors, each with its depth equal to the position of that ancestor in
    the walk, with no receiver type and no constraint yet, and with [C]
    itself, the class the search started from, in its [receiver] field. *)
Theorem similarMethodsForClass_depth_receiver
    (hasSimilarName : GlobalState -> NameRef -> string -> bool)
    (fuel : nat) (gs : GlobalState) (C : SymbolRef) (prefix : string) (k : nat) :
  finalized gs C k -> (k < fuel)%nat ->
  exists ancs m,
    ancestors fuel gs C = Ok ancs /\
    ancs !! 0%nat = Some C /\
    similarMethodsForClass hasSimilarName fuel gs C prefix = Ok m /\
    forall n c,
      listed m n c <->
      exists (i : nat) ancestor meth,
        ancs !! i = Some ancestor /\
        members (symbolData gs ancestor) !! n = Some meth /\
        isMethod (symbolData gs meth) = true /\
        hasSimilarName gs n prefix = true /\
        c = mkSimilarMethod (Z.of_nat i) C meth None None.
Proof.
  intros Hfin Hfuel. pose proof (ancestors_finalized _ _ _ _ Hfin Hfuel) as Hanc.
  eexists _, _. split; [exact Hanc|]. split; [by destruct k|].
  split; [by apply similarMethodsForClass_Ok|].
  intros n c. rewrite listed_scanAncestors. split.
  - intros [H|(i & a & Hi & meth & H)]; [by apply listed_empty in H|].
    exists i, a, meth. replace (Z.of_nat i) with (-1 + 1 + Z.of_nat i) by lia. tauto.
  - intros (i & a & meth & Hi & H). right. exists i, a. split; [done|]. exists meth.
    replace (-1 + 1 + Z.of_nat i) with (Z.of_nat i) by lia. tauto.
Qed.

Lemma similarMethodsForClass_depth_receiver_witness :
  exists ancs m,
    ancestors 3 Fixture.gs Fixture.B = Ok ancs /\
    ancs = [Fixture.B; Fixture.M; Fixture.A] /\
    similarMethodsForClass Fixture.similar 3 Fixture.gs Fixture.B "foo" = Ok m /\
    forall n c,
      listed m n c <->
      exists (i : nat) ancestor meth,
        ancs !! i = Some ancestor /\
        members (symbolData Fixture.gs ancestor) !! n = Some meth /\
        isMethod (symbolData Fixture.gs meth) = true /\
        Fixture.similar Fixture.gs n "foo" = true /\
        c = mkSimilarMethod (Z.of_nat i) Fixture.B meth None None.
Proof.
  destruct (similarMethodsForClass_depth_receiver Fixture.similar 3 Fixture.gs Fixture.B
              "foo" 1) as (ancs & m & Hanc & _ & Hm & Hlisted).
  - apply finalized_super; [reflexivity|reflexivity|].
    apply finalized_top; reflexivity.
  - lia.
  - exists ancs, m. split; [exact Hanc|]. split; [|by split].
    vm_compute in Hanc. by injection Hanc.
Defined.

(** C1, as the spec words it, fails: [foo_bar] of [A] is found two steps
    up from [B], and the candidate names [B], not [A]. *)
Lemma similarMethodsForClass_declaringAncestor_counterexample :
  exists m c,
    similarMethodsForClass Fixture.similar 3 Fixture.gs Fixture.B "foo_bar" = Ok m /\
    listed m 100%N c /\
    depth c = 2 /\
    ancestors 3 Fixture.gs Fixture.B = Ok [Fixture.B; Fixture.M; Fixture.A] /\
    members (symbolData Fixture.gs Fixture.A) !! 100%N = Some (method c) /\
    receiver c = Fixture.B /\
    receiver c <> Fixture.A.
Proof.
  eexists _, (mkSimilarMethod 2 2%N 10%N None None).
  split; [reflexivity|]. split.
  - eexists. split; [vm_compute; reflexivity|]. apply list_elem_of_In. simpl. auto.
  - repeat split; try reflexivity. simpl. discriminate.
Qed.

(** ** Merging two maps *)

Lemma lookup_mergeSimilarMethods (left right : gmap N (list SimilarMethod)) n :
  mergeSimilarMethods left right !! n =
  match left !! n, right !! n with
  | Some l, Some r => match l ++ r with [] => None | _ => Some (l ++ r) end
  | _, _ => None
  end.
Proof.
  unfold mergeSimilarMethods. revert n.
  apply (map_fold_weak_ind (fun res (m : gmap N (list SimilarMethod)) =>
    forall n, res !! n =
      match m !! n, right !! n with
      | Some l, Some r => match l ++ r with [] => None | _ => Some (l ++ r) end
      | _, _ => None
      end)).
  - intros n. by rewrite !lookup_empty.
  - intros i x m res Hfresh IH n.
    assert (res !! i = None) as Hres by (by rewrite IH, Hfresh).
    destruct (decide (i = n)) as [->|Hne].
    + rewrite lookup_insert_eq. destruct (right !! n) as [rs|] eqn:Hr; [|done].
      rewrite !lookup_foldl_emplace_back. rewrite !decide_True by done.
      rewrite Hres. destruct x as [|x0 x], rs as [|r0 rs]; simpl; try done.
      by rewrite app_nil_r.
    + rewrite lookup_insert_ne by done. rewrite <- IH.
      destruct (right !! i) as [rs|]; [|done].
      rewrite !lookup_foldl_emplace_back. by rewrite !decide_False by done.
Qed.

Lemma inhabited_mergeSimilarMethods left right :
  inhabited (mergeSimilarMethods left right).
Proof.
  intros n cs. rewrite lookup_mergeSimilarMethods.
  destruct (left !! n) as [l|]; [|done]. destruct (right !! n) as [r|]; [|done].
  destruct (l ++ r) eqn:E; [done|]. by intros [= <-].
Qed.

Lemma listed_mergeSimilarMethods left right n c :
  listed (mergeSimilarMethods left right) n c -> listed left n c \/ listed right n c.
Proof.
  intros (cs & Hl & Hin). rewrite lookup_mergeSimilarMethods in Hl.
  destruct (left !! n) as [l|] eqn:El; [|done].
  destruct (right !! n) as [r|] eqn:Er; [|done].
  destruct (l ++ r) eqn:E; [done|]. injection Hl as <-. rewrite <- E in Hin.
  apply elem_of_app in Hin as [?|?]; [left|right]; eexists; eauto.
Qed.

(** On maps without empty lists the loop computes the by-name intersection. *)
Lemma mergeSimilarMethods_intersectByName left right :
  inhabited left ->
  mergeSimilarMethods left right = intersectByName left right.
Proof.
  intros Hl. apply map_eq. intros n. unfold intersectByName.
  rewrite lookup_mergeSimilarMethods, lookup_intersection_with.
  destruct (left !! n) as [l|] eqn:El; [|done].
  destruct (right !! n) as [r|]; [|done]. simpl.
  destruct l; [by apply Hl in El|done].
Qed.

(** ** The type-algebra walker *)

Section Walker.

Variable hasSimilarName : GlobalState -> NameRef -> string -> bool.

Lemma similarMethodsForClass_fresh fuel gs C prefix m :
  similarMethodsForClass hasSimilarName fuel gs C prefix = Ok m ->
  inhabited m /\ forall n c, listed m n c -> unstamped c.
Proof.
  intros (ancs & _ & ->)%similarMethodsForClass_inv. split.
  - apply inhabited_scanAncestors, inhabited_empty.
  - intros n c [H|(i & a & _ & meth & _ & _ & _ & ->)]%listed_scanAncestors.
    + by apply listed_empty in H.
    + done.
Qed.

Lemma similarMethodsForReceiver_fresh fuel gs t prefix :
  forall m, similarMethodsForReceiver hasSimilarName fuel gs t prefix = Ok m ->
  inhabited m /\ forall n c, listed m n c -> unstamped c.
Proof.
  induction t as [s|s targs|l IHl r IHr|l _ r _|u IHu|]; simpl; intros m Hm.
  - by apply similarMethodsForClass_fresh in Hm.
  - by apply similarMethodsForClass_fresh in Hm.
  - apply bind_Ok in Hm as (ml & Hml & Hm). apply bind_Ok in Hm as (mr & Hmr & [= <-]).
    split; [apply inhabited_mergeSimilarMethods|].
    intros n c [H|H]%listed_mergeSimilarMethods.
    + by apply (IHl _ Hml) in H.
    + by apply (IHr _ Hmr) in H.
  - injection Hm as <-. split; [apply inhabited_empty|]. intros n c H. by apply listed_empty in H.
  - by apply IHu.
  - injection Hm as <-. split; [apply inhabited_empty|]. intros n c H. by apply listed_empty in H.
Qed.

End Walker.

(** C2: the candidates of an intersection type are the by-name intersection
    of the candidates of its two sides: a name is kept exactly when both
    sides list it, with the left list followed by the whole right list; a
    name that only one side lists is absent. *)
Theorem similarMethodsForReceiver_AndType
    (hasSimilarName : GlobalState -> NameRef -> string -> bool)
    (fuel : nat) (gs : GlobalState) (l r : TypePtr) (prefix : string)
    (left right : gmap N (list SimilarMethod)) :
  similarMethodsForReceiver hasSimilarName fuel gs l prefix = Ok left ->
  similarMethodsForReceiver hasSimilarName fuel gs r prefix = Ok right ->
  exists m,
    similarMethodsForReceiver hasSimilarName fuel gs (AndType l r) prefix = Ok m /\
    m = intersectByName left right /\
    (forall n, m !! n = match left !! n, right !! n with
                        | Some ls, Some rs => Some (ls ++ rs)
                        | _, _ => None
                        end) /\
    (forall n, left !! n = None \/ right !! n = None -> m !! n = None).
Proof.
  intros Hl Hr. exists (mergeSimilarMethods left right). simpl. rewrite Hl, Hr. simpl.
  pose proof (similarMethodsForReceiver_fresh _ _ _ _ _ _ Hl) as [Hinh _].
  rewrite (mergeSimilarMethods_intersectByName _ _ Hinh).
  split; [done|]. split; [done|]. unfold intersectByName. split.
  - intros n. rewrite lookup_intersection_with.
    destruct (left !! n), (right !! n); done.
  - intros n [H|H]; rewrite lookup_intersection_with, H; [done|].
    by destruct (left !! n).
Qed.

Lemma similarMethodsForReceiver_AndType_witness :
  exists m,
    similarMethodsForReceiver Fixture.similar 3 Fixture.gs
      (AndType (ClassType Fixture.B) (ClassType Fixture.M)) "foo" = Ok m /\
    m = intersectByName
          {[ 100%N := [mkSimilarMethod 1 2%N 16%N None None;
                       mkSimilarMethod 2 2%N 10%N None None];
             101%N := [mkSimilarMethod 0 2%N 11%N None None];
             103%N := [mkSimilarMethod 2 2%N 13%N None None] ]}
          {[ 100%N := [mkSimilarMethod 0 3%N 16%N None None] ]} /\
    m !! 100%N = Some [mkSimilarMethod 1 2%N 16%N None None;
                       mkSimilarMethod 2 2%N 10%N None None;
                       mkSimilarMethod 0 3%N 16%N None None] /\
    m !! 101%N = None.
Proof.
  destruct (similarMethodsForReceiver_AndType Fixture.similar 3 Fixture.gs
              (ClassType Fixture.B) (ClassType Fixture.M) "foo" _ _
              eq_refl eq_refl) as (m & Hm & Heq & Hlook & Habsent).
  exists m. split; [exact Hm|]. split.
  - rewrite Heq. vm_compute. reflexivity.
  - split.
    + rewrite Hlook. vm_compute. reflexivity.
    + apply Habsent. right. vm_compute. reflexivity.
Defined.

(** C6: a proxy type is looked through. *)
Theorem similarMethodsForReceiver_ProxyType
    (hasSimilarName : GlobalState -> NameRef -> string -> bool)
    (fuel : nat) (gs : GlobalState) (u : TypePtr) (p : string) :
  similarMethodsForReceiver hasSimilarName fuel gs (ProxyType u) p =
  similarMethodsForReceiver hasSimilarName fuel gs u p.
Proof. reflexivity. Qed.

(** C9: a receiver type without a case of its own, a union or an opaque
    type among them, has no candidates, and that is an ordinary outcome: the
    ranked sequence is empty and a method-call query on such a receiver
    answers with no items, whatever the fuel. *)
Theorem similarMethodsForReceiver_unhandled
    (hasSimilarName : GlobalState -> NameRef -> string -> bool)
    (show : GlobalState -> TypePtr -> string)
    (methodDetail : GlobalState -> SymbolRef -> option TypePtr -> option TypeConstraint -> string)
    (findDocumentation : GlobalState -> N -> N -> option string)
    (untypedUntracked : TypePtr)
    (membersStableOrderSlow : GlobalState -> SymbolRef -> list (NameRef * SymbolRef))
    (root : SymbolRef)
    (fuel : nat) (config : Config) (gs : GlobalState) (t : TypePtr) (prefix : string) :
  handled t = false ->
  similarMethodsForReceiver hasSimilarName fuel gs t prefix = Ok ∅ /\
  rank gs prefix ∅ = Ok [] /\
  forall callerSideName constr kind,
    completionItems hasSimilarName show methodDetail findDocumentation untypedUntracked
      membersStableOrderSlow root fuel config gs
      (SendResponse callerSideName
         (mkDispatchResult (mkDispatchComponent t constr) None kind)) = Ok [].
Proof.
  intros Ht. assert (similarMethodsForReceiver hasSimilarName fuel gs t prefix = Ok ∅) as H.
  { destruct t; try discriminate; reflexivity. }
  split; [exact H|]. split; [reflexivity|].
  intros callerSideName constr kind. unfold completionItems. simpl.
  destruct t; try discriminate; reflexivity.
Qed.

Lemma similarMethodsForReceiver_unhandled_witness :
  similarMethodsForReceiver Fixture.similar 0 Fixture.gs
    (OrType (ClassType Fixture.A) (ClassType Fixture.B)) "foo" = Ok ∅ /\
  similarMethodsForReceiver Fixture.similar 0 Fixture.gs OpaqueType "foo" = Ok ∅.
Proof.
  split.
  - apply (similarMethodsForReceiver_unhandled Fixture.similar (fun _ _ => ""%string)
             (fun _ _ _ _ => ""%string) (fun _ _ _ => None) OpaqueType (fun _ _ => []) 1%N
             0 (mkConfig true true Plaintext) Fixture.gs
             (OrType (ClassType Fixture.A) (ClassType Fixture.B)) "foo" eq_refl).
  - apply (similarMethodsForReceiver_unhandled Fixture.similar (fun _ _ => ""%string)
             (fun _ _ _ _ => ""%string) (fun _ _ _ => None) OpaqueType (fun _ _ => []) 1%N
             0 (mkConfig true true Plaintext) Fixture.gs OpaqueType "foo" eq_refl).
Defined.

(** ** The dispatch-chain merger *)

Lemma DispatchResult_chain_ind (P : DispatchResult -> Prop) :
  (forall main kind, P (mkDispatchResult main None kind)) ->
  (forall main rest kind, P rest -> P (mkDispatchResult main (Some rest) kind)) ->
  forall d, P d.
Proof.
  intros Hlast Hlink. fix IH 1. intros [main [rest|] kind].
  - apply Hlink, IH.
  - apply Hlast.
Qed.

Lemma overwriteFault_bind {A B} (r : Result A) (k : A -> Result B) :
  overwriteFault r = false ->
  (forall a, r = Ok a -> overwriteFault (k a) = false) ->
  overwriteFault (bind r k) = false.
Proof. destruct r; simpl; auto. Qed.

Lemma overwriteFault_ancestorsImpl fuel gs sym acc :
  overwriteFault (ancestorsImpl fuel gs sym acc) = false.
Proof.
  revert sym acc. induction fuel as [|fuel IH]; intros sym acc; simpl; [done|].
  destruct (negb _); [done|]. destruct (exists_ _); [apply IH|done].
Qed.

Lemma stampAll_unstamped rt c cs :
  Forall unstamped cs -> stampAll rt c cs = Ok (map (stamped rt c) cs).
Proof.
  induction 1 as [|x cs [Hr Hc] _ IH]; simpl; [done|].
  unfold stamp. rewrite Hr, Hc, IH. reflexivity.
Qed.

Lemma stampResult_unstamped rt c (m : gmap N (list SimilarMethod)) :
  (forall n x, listed m n x -> unstamped x) ->
  stampResult rt c m = Ok (map (stamped rt c) <$> m).
Proof.
  unfold stampResult.
  apply (map_fold_weak_ind (fun r (m : gmap N (list SimilarMethod)) =>
    (forall n x, listed m n x -> unstamped x) -> r = Ok (map (stamped rt c) <$> m))).
  - intros _. by rewrite fmap_empty.
  - intros i cs m' r Hfresh IH Hall. rewrite IH; simpl.
    + rewrite stampAll_unstamped; simpl; [by rewrite fmap_insert|].
      apply Forall_forall. intros x Hx. apply (Hall i). exists cs.
      by rewrite lookup_insert_eq.
    + intros n x (cs' & Hl & Hx). apply (Hall n). exists cs'. split; [|done].
      rewrite lookup_insert_ne; [done|]. intros ->. congruence.
Qed.

Section Merger.

Variable hasSimilarName : GlobalState -> NameRef -> string -> bool.

Lemma overwriteFault_similarMethodsForReceiver fuel gs t prefix :
  overwriteFault (similarMethodsForReceiver hasSimilarName fuel gs t prefix) = false.
Proof.
  induction t as [s|s targs|l IHl r IHr|l _ r _|u IHu|]; simpl; try done.
  - apply overwriteFault_bind; [apply overwriteFault_ancestorsImpl|done].
  - apply overwriteFault_bind; [apply overwriteFault_ancestorsImpl|done].
  - apply overwriteFault_bind; [done|]. intros ml _.
    apply overwriteFault_bind; done.
Qed.

(** The map of the first component of a chain, after stamping. *)
Lemma allSimilarMethods_main fuel gs main kind prefix :
  allSimilarMethods hasSimilarName fuel gs (mkDispatchResult main None kind) prefix =
  do fresh <- similarMethodsForReceiver hasSimilarName fuel gs (dc_receiver main) prefix;
  Ok (map (stamped (dc_receiver main) (dc_constr main)) <$> fresh).
Proof.
  simpl. destruct (similarMethodsForReceiver _ _ _ _ _) as [fresh| |] eqn:E; simpl; try done.
  apply similarMethodsForReceiver_fresh in E as [_ E].
  by rewrite (stampResult_unstamped _ _ _ E).
Qed.

Lemma allSimilarMethods_link fuel gs main rest kind prefix :
  allSimilarMethods hasSimilarName fuel gs (mkDispatchResult main (Some rest) kind) prefix =
  do result <- allSimilarMethods hasSimilarName fuel gs (mkDispatchResult main None kind) prefix;
  do others <- allSimilarMethods hasSimilarName fuel gs rest prefix;
  Ok (mergeSimilarMethods result others).
Proof.
  simpl. destruct (similarMethodsForReceiver _ _ _ _ _) as [fresh| |]; simpl; try done.
  destruct (stampResult _ _ _); simpl; done.
Qed.

Lemma overwriteFault_allSimilarMethods fuel gs d prefix :
  overwriteFault (allSimilarMethods hasSimilarName fuel gs d prefix) = false.
Proof.
  induction d as [main kind|main rest kind IH] using DispatchResult_chain_ind.
  - rewrite allSimilarMethods_main. apply overwriteFault_bind; [|done].
    apply overwriteFault_similarMethodsForReceiver.
  - rewrite allSimilarMethods_link, allSimilarMethods_main.
    apply overwriteFault_bind.
    + apply overwriteFault_bind; [|done]. apply overwriteFault_similarMethodsForReceiver.
    + intros result _. apply overwriteFault_bind; done.
Qed.

Lemma inhabited_allSimilarMethods fuel gs d prefix m :
  allSimilarMethods hasSimilarName fuel gs d prefix = Ok m -> inhabited m.
Proof.
  destruct d as [main [rest|] kind].
  - rewrite allSimilarMethods_link. intros (result & _ & H)%bind_Ok.
    apply bind_Ok in H as (others & _ & [= <-]). apply inhabited_mergeSimilarMethods.
  - rewrite allSimilarMethods_main. intros (fresh & Hf & [= <-])%bind_Ok.
    apply similarMethodsForReceiver_fresh in Hf as [Hinh _].
    intros n cs. rewrite lookup_fmap. destruct (fresh !! n) as [cs'|] eqn:E; [|done].
    intros [= <-]. apply Hinh in E. by destruct cs'.
Qed.

Lemma listed_allSimilarMethods fuel gs d prefix :
  forall m, allSimilarMethods hasSimilarName fuel gs d prefix = Ok m ->
  forall n c, listed m n c ->
    exists component, component ∈ components d /\
      receiverType c = Some (dc_receiver component) /\ constr c = dc_constr component.
Proof.
  induction d as [main kind|main rest kind IH] using DispatchResult_chain_ind; intros m.
  - rewrite allSimilarMethods_main. intros (fresh & _ & [= <-])%bind_Ok n c (cs & Hl & Hin).
    rewrite lookup_fmap in Hl. destruct (fresh !! n) as [cs'|]; [|done].
    injection Hl as <-. apply list_elem_of_fmap in Hin as (x & -> & _).
    exists main. split; [|done]. simpl. by apply list_elem_of_singleton.
  - rewrite allSimilarMethods_link. intros (result & Hres & H)%bind_Ok.
    apply bind_Ok in H as (others & Hoth & [= <-]).
    intros n c [H|H]%listed_mergeSimilarMethods.
    + rewrite allSimilarMethods_main in Hres.
      apply bind_Ok in Hres as (fresh & _ & [= <-]). destruct H as (cs & Hl & Hin).
      rewrite lookup_fmap in Hl. destruct (fresh !! n) as [cs'|]; [|done].
      injection Hl as <-. apply list_elem_of_fmap in Hin as (x & -> & _).
      exists main. split; [|done]. simpl. apply elem_of_cons. by left.
    + destruct (IH _ Hoth _ _ H) as (component & Hin & Hc).
      exists component. split; [|done]. simpl. apply elem_of_cons. by right.
Qed.

(** Only the components of a chain matter, not the kinds of its links. *)
Lemma allSimilarMethods_components fuel gs prefix d :
  forall d', components d' = components d ->
  allSimilarMethods hasSimilarName fuel gs d' prefix =
  allSimilarMethods hasSimilarName fuel gs d prefix.
Proof.
  induction d as [main kind|main rest kind IH] using DispatchResult_chain_ind;
    intros [main' [rest'|] kind']; simpl components.
  - destruct rest' as [? [?|] ?]; discriminate.
  - by intros [= ->].
  - intros [= -> Hrest]. rewrite !allSimilarMethods_link, !allSimilarMethods_main.
    by rewrite (IH _ Hrest).
  - destruct rest as [? [?|] ?]; discriminate.
Qed.

End Merger.

(** C3: with a secondary link, the result is the by-name intersection of the
    stamped candidates of the main component with the result of the rest of
    the chain, whatever the kinds of the links say; a name that one of the
    two does not list is dropped. *)
Theorem allSimilarMethods_secondary
    (hasSimilarName : GlobalState -> NameRef -> string -> bool)
    (fuel : nat) (gs : GlobalState) (main : DispatchComponent) (rest : DispatchResult)
    (kind : Combinator) (prefix : string)
    (fresh others : gmap N (list SimilarMethod)) :
  similarMethodsForReceiver hasSimilarName fuel gs (dc_receiver main) prefix = Ok fresh ->
  allSimilarMethods hasSimilarName fuel gs rest prefix = Ok others ->
  let result := map (stamped (dc_receiver main) (dc_constr main)) <$> fresh in
  exists m,
    allSimilarMethods hasSimilarName fuel gs (mkDispatchResult main (Some rest) kind) prefix
      = Ok m /\
    m = intersectByName result others /\
    (forall n, m !! n = match result !! n, others !! n with
                        | Some ls, Some rs => Some (ls ++ rs)
                        | _, _ => None
                        end) /\
    (forall n, result !! n = None \/ others !! n = None -> m !! n = None) /\
    (forall d', components d' = components (mkDispatchResult main (Some rest) kind) ->
                allSimilarMethods hasSimilarName fuel gs d' prefix = Ok m).
Proof.
  intros Hfresh Hothers result.
  assert (allSimilarMethods hasSimilarName fuel gs
            (mkDispatchResult main (Some rest) kind) prefix
          = Ok (intersectByName result others)) as Hm.
  { rewrite allSimilarMethods_link, allSimilarMethods_main, Hfresh, Hothers. simpl.
    f_equal. apply mergeSimilarMethods_intersectByName.
    apply (inhabited_allSimilarMethods hasSimilarName fuel gs
             (mkDispatchResult main None kind) prefix).
    by rewrite allSimilarMethods_main, Hfresh. }
  exists (intersectByName result others). split; [exact Hm|]. split; [done|].
  unfold intersectByName. repeat split.
  - intros n. rewrite lookup_intersection_with.
    destruct (result !! n), (others !! n); done.
  - intros n [H|H]; rewrite lookup_intersection_with, H; [done|].
    by destruct (result !! n).
  - intros d' Hd'. by rewrite (allSimilarMethods_components _ _ _ _ _ _ Hd').
Qed.

Lemma allSimilarMethods_secondary_witness :
  exists m,
    allSimilarMethods Fixture.similar 3 Fixture.gs
      (mkDispatchResult (mkDispatchComponent (ClassType Fixture.A) (Some 7%N))
         (Some (mkDispatchResult (mkDispatchComponent (ClassType Fixture.M) None) None AND))
         OR) "" = Ok m /\
    m !! 100%N = Some [mkSimilarMethod 0 1%N 10%N (Some (ClassType Fixture.A)) (Some 7%N);
                       mkSimilarMethod 0 3%N 16%N (Some (ClassType Fixture.M)) None] /\
    m !! 104%N = None.
Proof.
  destruct (allSimilarMethods_secondary Fixture.similar 3 Fixture.gs
              (mkDispatchComponent (ClassType Fixture.A) (Some 7%N))
              (mkDispatchResult (mkDispatchComponent (ClassType Fixture.M) None) None AND)
              OR "" _ _ eq_refl eq_refl) as (m & Hm & _ & Hlook & Habsent & _).
  exists m. split; [exact Hm|]. split.
  - rewrite Hlook. vm_compute. reflexivity.
  - apply Habsent. right. vm_compute. reflexivity.
Defined.

Lemma components_nonempty d : components d <> [].
Proof. by destruct d as [main [rest|] kind]. Qed.

Section Chain.

Variable hasSimilarName : GlobalState -> NameRef -> string -> bool.

(** The result of a chain is made of the maps of its components, each
    stamped with its own component, and of nothing else. *)
Lemma allSimilarMethods_chainMap fuel gs d prefix :
  forall m,
    allSimilarMethods hasSimilarName fuel gs d prefix = Ok m <->
    exists freshes,
      Forall2 (fun component fresh =>
                 similarMethodsForReceiver hasSimilarName fuel gs (dc_receiver component)
                   prefix = Ok fresh)
              (components d) freshes /\
      m = chainMap (zip_with stampedMap (components d) freshes).
Proof.
  induction d as [main kind|main rest kind IH] using DispatchResult_chain_ind; intros m.
  - rewrite allSimilarMethods_main. simpl components. split.
    + intros (fresh & Hfresh & [= <-])%bind_Ok. exists [fresh]. split; [|done].
      by repeat constructor.
    + intros (freshes & HF & ->).
      apply Forall2_cons_inv_l in HF as (fresh & rest & Hfresh & Hrest & ->).
      apply Forall2_nil_inv_l in Hrest as ->. by rewrite Hfresh.
  - rewrite allSimilarMethods_link, allSimilarMethods_main.
    change (components (mkDispatchResult main (Some rest) kind))
      with (main :: components rest).
    split.
    + intros (result & (fresh & Hfresh & [= <-])%bind_Ok & (others & Hoth & [= <-])%bind_Ok)%bind_Ok.
      apply IH in Hoth as (freshes & HF & ->). exists (fresh :: freshes).
      split; [by constructor|].
      rewrite mergeSimilarMethods_intersectByName.
      * pose proof (components_nonempty rest) as Hne.
        destruct HF as [|c f cs fs Hc HF]; [done|]. reflexivity.
      * apply (inhabited_allSimilarMethods hasSimilarName fuel gs
                 (mkDispatchResult main None kind) prefix).
        by rewrite allSimilarMethods_main, Hfresh.
    + intros (freshes & HF & ->).
      apply Forall2_cons_inv_l in HF as (fresh & freshes' & Hfresh & HF & ->).
      rewrite Hfresh. simpl bind.
      assert (allSimilarMethods hasSimilarName fuel gs rest prefix
              = Ok (chainMap (zip_with stampedMap (components rest) freshes'))) as ->.
      { apply IH. by exists freshes'. }
      simpl bind. f_equal.
      rewrite mergeSimilarMethods_intersectByName.
      * pose proof (components_nonempty rest) as Hne.
        destruct HF as [|c f cs fs Hc HF]; [done|]. reflexivity.
      * apply (inhabited_allSimilarMethods hasSimilarName fuel gs
                 (mkDispatchResult main None kind) prefix).
        by rewrite allSimilarMethods_main, Hfresh.
Qed.

(** Where a candidate of the result comes from. *)
Lemma listed_allSimilarMethods_own fuel gs d prefix :
  forall m, allSimilarMethods hasSimilarName fuel gs d prefix = Ok m ->
  forall n c, listed m n c ->
    exists component fresh c0,
      component ∈ components d /\
      similarMethodsForReceiver hasSimilarName fuel gs (dc_receiver component) prefix
        = Ok fresh /\
      listed fresh n c0 /\ unstamped c0 /\
      c = stamped (dc_receiver component) (dc_constr component) c0.
Proof.
  assert (forall main kind m,
            allSimilarMethods hasSimilarName fuel gs (mkDispatchResult main None kind) prefix
              = Ok m ->
            forall n c, listed m n c ->
              exists fresh c0,
                similarMethodsForReceiver hasSimilarName fuel gs (dc_receiver main) prefix
                  = Ok fresh /\
                listed fresh n c0 /\ unstamped c0 /\
                c = stamped (dc_receiver main) (dc_constr main) c0) as Hmain.
  { intros main kind m. rewrite allSimilarMethods_main.
    intros (fresh & Hfresh & [= <-])%bind_Ok n c (cs & Hl & Hin).
    rewrite lookup_fmap in Hl. destruct (fresh !! n) as [cs'|] eqn:E; [|done].
    injection Hl as <-. apply list_elem_of_fmap in Hin as (x & -> & Hx).
    assert (listed fresh n x) as Hlisted by (by exists cs').
    exists fresh, x. split; [done|]. split; [done|]. split; [|done].
    by apply (similarMethodsForReceiver_fresh _ _ _ _ _ _ Hfresh) in Hlisted. }
  induction d as [main kind|main rest kind IH] using DispatchResult_chain_ind;
    intros m Hm n c Hc.
  - destruct (Hmain _ _ _ Hm n c Hc) as (fresh & c0 & ?). exists main, fresh, c0.
    split; [|done]. simpl. by apply list_elem_of_singleton.
  - rewrite allSimilarMethods_link in Hm. apply bind_Ok in Hm as (result & Hres & H).
    apply bind_Ok in H as (others & Hoth & [= <-]).
    apply listed_mergeSimilarMethods in Hc as [Hc|Hc].
    + destruct (Hmain _ _ _ Hres n c Hc) as (fresh & c0 & ?). exists main, fresh, c0.
      split; [|done]. simpl. apply elem_of_cons. by left.
    + destruct (IH _ Hoth n c Hc) as (component & fresh & c0 & Hin & ?).
      exists component, fresh, c0. split; [|done]. simpl. apply elem_of_cons. by right.
Qed.

End Chain.

(** C8: what the walker hands out carries neither a receiver type nor a
    constraint; writing into a candidate that carries one is a fault; the
    merger writes both into every candidate of a component right after the
    walker returned, which cannot trip the two checks, so no dispatch chain
    ends in an overwrite fault.  The outcome of a chain is exactly the
    by-name intersection of the maps of its components, each candidate
    stamped once with the receiver type and constraint of the component whose
    walker produced it and otherwise as the walker left it: no stamp is
    written a second time and none is replaced by the merging. *)
Theorem allSimilarMethods_stamps_once
    (hasSimilarName : GlobalState -> NameRef -> string -> bool)
    (fuel : nat) (gs : GlobalState) (d : DispatchResult) (prefix : string) :
  (forall rt k c,
     stamp rt k c = match receiverType c, constr c with
                    | Some _, _ => Raise OverwriteReceiverType
                    | None, Some _ => Raise OverwriteConstr
                    | None, None => Ok (stamped rt k c)
                    end) /\
  (forall fresh,
     similarMethodsForReceiver hasSimilarName fuel gs (dc_receiver (main d)) prefix
       = Ok fresh ->
     (forall n c, listed fresh n c -> unstamped c) /\
     stampResult (dc_receiver (main d)) (dc_constr (main d)) fresh
       = Ok (map (stamped (dc_receiver (main d)) (dc_constr (main d))) <$> fresh)) /\
  overwriteFault (allSimilarMethods hasSimilarName fuel gs d prefix) = false /\
  (forall m,
     allSimilarMethods hasSimilarName fuel gs d prefix = Ok m <->
     exists freshes,
       Forall2 (fun component fresh =>
                  similarMethodsForReceiver hasSimilarName fuel gs (dc_receiver component)
                    prefix = Ok fresh)
               (components d) freshes /\
       m = chainMap (zip_with stampedMap (components d) freshes)) /\
  (forall m,
     allSimilarMethods hasSimilarName fuel gs d prefix = Ok m ->
     forall n c, listed m n c ->
       exists component fresh c0,
         component ∈ components d /\
         similarMethodsForReceiver hasSimilarName fuel gs (dc_receiver component) prefix
           = Ok fresh /\
         listed fresh n c0 /\ unstamped c0 /\
         c = stamped (dc_receiver component) (dc_constr component) c0).
Proof.
  split; [|split; [|split; [|split]]].
  - intros rt k c. unfold stamp. by destruct (receiverType c), (constr c).
  - intros fresh [_ Hfresh]%similarMethodsForReceiver_fresh.
    split; [exact Hfresh|]. by apply stampResult_unstamped.
  - apply overwriteFault_allSimilarMethods.
  - apply allSimilarMethods_chainMap.
  - apply listed_allSimilarMethods_own.
Qed.

Lemma allSimilarMethods_stamps_once_witness :
  allSimilarMethods Fixture.similar 3 Fixture.gs
    (mkDispatchResult (mkDispatchComponent (ClassType Fixture.A) (Some 7%N))
       (Some (mkDispatchResult (mkDispatchComponent (ClassType Fixture.M) (Some 8%N))
                None AND))
       OR) "foo_bar"
  = Ok {[ 100%N := [mkSimilarMethod 0 1%N 10%N (Some (ClassType Fixture.A)) (Some 7%N);
                    mkSimilarMethod 0 3%N 16%N (Some (ClassType Fixture.M)) (Some 8%N)] ]} /\
  stampResult (ClassType Fixture.A) (Some 7%N)
    {[ 100%N := [mkSimilarMethod 0 1%N 10%N None None] ]}
  = Ok {[ 100%N := [mkSimilarMethod 0 1%N 10%N (Some (ClassType Fixture.A)) (Some 7%N)] ]}.
Proof.
  destruct (allSimilarMethods_stamps_once Fixture.similar 3 Fixture.gs
    (mkDispatchResult (mkDispatchComponent (ClassType Fixture.A) (Some 7%N))
       (Some (mkDispatchResult (mkDispatchComponent (ClassType Fixture.M) (Some 8%N))
                None AND))
       OR) "foo_bar") as (_ & Hfresh & _ & Hchain & _).
  split.
  - apply Hchain.
    exists [ {[ 100%N := [mkSimilarMethod 0 1%N 10%N None None] ]};
             {[ 100%N := [mkSimilarMethod 0 3%N 16%N None None] ]} ].
    split.
    + repeat constructor; vm_compute; reflexivity.
    + vm_compute. reflexivity.
  - destruct (Hfresh {[ 100%N := [mkSimilarMethod 0 1%N 10%N None None] ]}) as [_ H].
    + vm_compute. reflexivity.
    + exact H.
Defined.

(** ** The sort key *)

Lemma length_append (s t : string) :
  String.length (s +:+ t) = (String.length s + String.length t)%nat.
Proof. induction s as [|c s IH]; simpl; [done|]. by rewrite IH. Qed.

Lemma append_String_assoc (s : string) c (t : string) :
  (s +:+ String c t = (s +:+ String c EmptyString) +:+ t)%string.
Proof.
  induction s as [|c' s IH]; [reflexivity|].
  change (String c' (s +:+ String c t) = String c' ((s +:+ String c EmptyString) +:+ t)).
  by rewrite IH.
Qed.

Lemma digitValue_digitChar d : (d < 10)%N -> digitValue (digitChar d) = Some d.
Proof.
  intros Hd. unfold digitValue, digitChar. rewrite N_ascii_embedding by lia.
  replace ((48 <=? 48 + d) && (48 + d <=? 57))%N with true.
  - f_equal. lia.
  - symmetry. apply andb_true_iff. split; apply N.leb_le; lia.
Qed.

Lemma readDecimal_append (s t : string) a :
  readDecimal (s +:+ t) a =
  match readDecimal s a with
  | Some v => readDecimal t v
  | None => None
  end.
Proof.
  revert a. induction s as [|c s IH]; intros a; simpl; [done|].
  destruct (digitValue c); [apply IH|done].
Qed.

(** The digits [decimalDigits] puts in front of [acc]: as many as [n] needs,
    and they read back as [n]. *)
Lemma decimalDigits_spec fuel :
  forall n acc, (n < 10 ^ N.of_nat fuel)%N -> (0 < fuel)%nat ->
  exists ds,
    decimalDigits fuel n acc = (ds +:+ acc)%string /\
    (1 <= String.length ds)%nat /\
    (n < 10 ^ N.of_nat (String.length ds))%N /\
    (String.length ds = 1%nat \/ (10 ^ N.of_nat (String.length ds - 1) <= n)%N) /\
    forall a, readDecimal ds a = Some (a * 10 ^ N.of_nat (String.length ds) + n)%N.
Proof.
  induction fuel as [|fuel IH]; intros n acc Hn Hfuel; [lia|]. simpl.
  assert (n mod 10 < 10)%N as Hmod by (apply N.mod_lt; lia).
  pose proof (N.div_mod n 10 ltac:(lia)) as Hdiv.
  destruct (n / 10 =? 0)%N eqn:Hq.
  - apply N.eqb_eq in Hq. exists (String (digitChar (n mod 10)) EmptyString). simpl.
    split; [done|]. split; [lia|]. split; [lia|]. split; [by left|].
    intros a. rewrite digitValue_digitChar by done. f_equal. lia.
  - apply N.eqb_neq in Hq.
    assert (n / 10 < 10 ^ N.of_nat fuel)%N as Hn'.
    { apply N.Div0.div_lt_upper_bound. rewrite <- N.pow_succ_r'.
      by rewrite <- Nnat.Nat2N.inj_succ. }
    assert (0 < fuel)%nat as Hfuel'.
    { destruct fuel; [|lia]. simpl in Hn'. lia. }
    destruct (IH (n / 10)%N (String (digitChar (n mod 10)) acc) Hn' Hfuel')
      as (ds & Heq & Hlen & Hub & Hlb & Hread).
    exists (ds +:+ String (digitChar (n mod 10)) EmptyString)%string.
    rewrite length_append. simpl String.length.
    replace (String.length ds + 1)%nat with (S (String.length ds)) by lia.
    rewrite Nnat.Nat2N.inj_succ, N.pow_succ_r'.
    split; [by rewrite Heq, append_String_assoc|]. split; [lia|]. split; [lia|]. split.
    + right. replace (S (String.length ds) - 1)%nat with (String.length ds) by lia.
      destruct Hlb as [Hone|Hlb].
      * rewrite Hone. change (10 ^ N.of_nat 1)%N with 10%N.
        clear -Hdiv Hq Hmod. remember (n / 10)%N as q. remember (n mod 10)%N as m. lia.
      * replace (String.length ds) with (S (String.length ds - 1)) at 1 by lia.
        rewrite Nnat.Nat2N.inj_succ, N.pow_succ_r'.
        clear -Hdiv Hlb Hmod. remember (n / 10)%N as q. remember (n mod 10)%N as m.
        remember (10 ^ N.of_nat (String.length ds - 1))%N as p. lia.
    + intros a. rewrite readDecimal_append, Hread. simpl.
      rewrite digitValue_digitChar by done. f_equal. lia.
Qed.

Lemma decimal_spec n :
  (1 <= String.length (decimal n))%nat /\
  (n < 10 ^ N.of_nat (String.length (decimal n)))%N /\
  (String.length (decimal n) = 1%nat \/
   (10 ^ N.of_nat (String.length (decimal n) - 1) <= n)%N) /\
  forall a, readDecimal (decimal n) a
            = Some (a * 10 ^ N.of_nat (String.length (decimal n)) + n)%N.
Proof.
  unfold decimal.
  destruct (decimalDigits_spec (S (N.to_nat (N.log2 n))) n EmptyString)
    as (ds & Heq & H); [|lia|].
  - rewrite Nnat.Nat2N.inj_succ, Nnat.N2Nat.id.
    destruct (N.eq_dec n 0%N) as [->|Hn]; [done|].
    apply N.lt_le_trans with (2 ^ N.succ (N.log2 n))%N.
    + apply N.log2_spec. lia.
    + apply N.pow_le_mono_l. lia.
  - assert ((ds +:+ EmptyString)%string = ds) as Hnil.
    { clear. induction ds as [|c ds IH]; [reflexivity|].
      change (String c (ds +:+ EmptyString) = String c ds). by rewrite IH. }
    rewrite Heq, Hnil. exact H.
Qed.

Lemma length_zeros k : String.length (zeros k) = k.
Proof. induction k as [|k IH]; simpl; [done|]. by rewrite IH. Qed.

Lemma readDecimal_zeros k : readDecimal (zeros k) 0 = Some 0%N.
Proof. induction k as [|k IH]; simpl; [done|]. exact IH. Qed.

(** C7, as the code has it: the sort key always reads back as the rank
    index; up to 999,999 it has exactly six digits, zeros in front; above,
    the index is printed whole, on more than six digits. *)
Theorem format_06d_width (sortIdx : N) :
  readDecimal (format_06d sortIdx) 0 = Some sortIdx /\
  ((sortIdx <= 999999)%N -> String.length (format_06d sortIdx) = 6%nat) /\
  ((999999 < sortIdx)%N ->
     format_06d sortIdx = decimal sortIdx /\
     (6 < String.length (format_06d sortIdx))%nat).
Proof.
  destruct (decimal_spec sortIdx) as (Hlen & Hub & Hlb & Hread).
  unfold format_06d. cbv zeta. split; [|split].
  - rewrite readDecimal_append, readDecimal_zeros, Hread. reflexivity.
  - intros Hsmall. rewrite length_append, length_zeros.
    assert (String.length (decimal sortIdx) <= 6)%nat; [|lia].
    destruct Hlb as [->|Hlb]; [lia|].
    destruct (le_lt_dec (String.length (decimal sortIdx)) 6) as [|Hbig]; [done|].
    assert (10 ^ 6 <= 10 ^ N.of_nat (String.length (decimal sortIdx) - 1))%N.
    { apply N.pow_le_mono_r; lia. }
    change (10 ^ 6)%N with 1000000%N in *. lia.
  - intros Hbig.
    assert (6 < String.length (decimal sortIdx))%nat as Hlong.
    { destruct (le_lt_dec (String.length (decimal sortIdx)) 6) as [Hle|]; [|done].
      assert (10 ^ N.of_nat (String.length (decimal sortIdx)) <= 10 ^ 6)%N.
      { apply N.pow_le_mono_r; lia. }
      change (10 ^ 6)%N with 1000000%N in *. lia. }
    replace (6 - String.length (decimal sortIdx))%nat with 0%nat by lia.
    simpl. split; [done|]. exact Hlong.
Qed.

Lemma format_06d_width_witness :
  format_06d 42 = "000042"%string /\
  String.length (format_06d 42) = 6%nat /\
  (6 < String.length (format_06d 1000000))%nat.
Proof.
  split; [reflexivity|]. split.
  - apply (format_06d_width 42). lia.
  - apply (format_06d_width 1000000). lia.
Defined.

(** C7, as the spec words it, fails: the index after 999,999 is not held at
    999999, it takes a seventh digit. *)
Lemma format_06d_saturation_counterexample :
  format_06d 1000000 = "1000000"%string /\
  format_06d 1000000 <> "999999"%string /\
  String.length (format_06d 1000000) = 7%nat.
Proof. split; [reflexivity|]. split; [discriminate|reflexivity]. Qed.

(** ** The request handler *)

(** C10: with the feature switched off, the answer is the [InvalidRequest]
    error and nothing else happens: no result list, the state handed back
    untouched, no counter moved, and this with no fuel at all and whatever
    the query on the type checker would have said. *)
Theorem handleTextDocumentCompletion_disabled
    (hasSimilarName : GlobalState -> NameRef -> string -> bool)
    (show : GlobalState -> TypePtr -> string)
    (methodDetail : GlobalState -> SymbolRef -> option TypePtr -> option TypeConstraint -> string)
    (findDocumentation : GlobalState -> N -> N -> option string)
    (untypedUntracked : TypePtr)
    (membersStableOrderSlow : GlobalState -> SymbolRef -> list (NameRef * SymbolRef))
    (root : SymbolRef)
    (setupLSPQueryByLoc : GlobalState -> string -> N * N -> LSPMethod -> LSPQueryResult)
    (fuel : nat) (config : Config) (counters : list (string * string))
    (gs : GlobalState) (id : Z + string) (params : CompletionParams) :
  lspAutocompleteEnabled config = false ->
  exists response,
    handleTextDocumentCompletion hasSimilarName show methodDetail findDocumentation
      untypedUntracked membersStableOrderSlow root setupLSPQueryByLoc
      fuel config counters gs id params = Ok ((gs, response), counters) /\
    result response = None /\
    error response =
      Some (mkResponseError InvalidRequest
              "The `Autocomplete` LSP feature is experimental and disabled by default.").
Proof.
  intros Hoff. unfold handleTextDocumentCompletion. rewrite Hoff. simpl.
  eexists. split; [reflexivity|]. split; reflexivity.
Qed.

Lemma handleTextDocumentCompletion_disabled_witness :
  exists response,
    handleTextDocumentCompletion Fixture.similar (fun _ _ => ""%string)
      (fun _ _ _ _ => ""%string) (fun _ _ _ => None) OpaqueType (fun _ _ => []) 1%N
      (fun gs _ _ _ =>
         mkLSPQueryResult gs
           [SendResponse 200%N
              (mkDispatchResult (mkDispatchComponent (ClassType Fixture.B) None) None OR)]
           None)
      0 (mkConfig false true Plaintext) [] Fixture.gs (inl 1) (mkCompletionParams "f.rb" (0, 0)%N)
    = Ok ((Fixture.gs, response), []) /\
    result response = None /\
    error response =
      Some (mkResponseError InvalidRequest
              "The `Autocomplete` LSP feature is experimental and disabled by default.").
Proof.
  apply (handleTextDocumentCompletion_disabled Fixture.similar (fun _ _ => ""%string)
    (fun _ _ _ _ => ""%string) (fun _ _ _ => None) OpaqueType (fun _ _ => []) 1%N
    (fun gs _ _ _ =>
       mkLSPQueryResult gs
         [SendResponse 200%N
            (mkDispatchResult (mkDispatchComponent (ClassType Fixture.B) None) None OR)]
         None)
    0 (mkConfig false true Plaintext) [] Fixture.gs (inl 1) (mkCompletionParams "f.rb" (0, 0)%N)).
  reflexivity.
Defined.

(** ** Sorting *)

Section FastSort.

Context {A : Type} (less : A -> A -> bool).
Context `{!Total (notAfter less), !Transitive (notAfter less)}.

Lemma less_irrefl x : less x x = false.
Proof. by destruct (total (notAfter less) x x). Qed.

Lemma fast_sort_Permutation l : fast_sort less l ≡ₚ l.
Proof. apply merge_sort_Permutation. Qed.

Lemma fast_sort_StronglySorted l : StronglySorted (notAfter less) (fast_sort less l).
Proof. apply StronglySorted_merge_sort; apply _. Qed.

(** The first element of the sorted vector is one of the elements, and none
    of them comes before it. *)
Lemma fast_sort_first l x rest :
  fast_sort less l = x :: rest ->
  x ∈ l /\ forall y, y ∈ l -> less y x = false.
Proof.
  intros Hsort. pose proof (fast_sort_Permutation l) as Hperm.
  pose proof (fast_sort_StronglySorted l) as Hsorted. rewrite Hsort in Hperm, Hsorted.
  split.
  - rewrite <- Hperm. apply elem_of_cons. by left.
  - intros y Hy. rewrite <- Hperm in Hy. apply elem_of_cons in Hy as [->|Hy].
    + apply less_irrefl.
    + apply StronglySorted_inv in Hsorted as [_ Hall].
      rewrite Forall_forall in Hall. by apply Hall.
Qed.

Lemma fast_sort_nonempty l : l <> [] -> fast_sort less l <> [].
Proof.
  intros Hl Hnil. pose proof (fast_sort_Permutation l) as Hperm. rewrite Hnil in Hperm.
  symmetry in Hperm. by apply Permutation_nil_r in Hperm.
Qed.

(** Later elements never come before earlier ones. *)
Lemma fast_sort_ordered l (i j : nat) x y :
  (i < j)%nat -> fast_sort less l !! i = Some x -> fast_sort less l !! j = Some y ->
  less y x = false.
Proof.
  pose proof (fast_sort_StronglySorted l) as Hsorted. revert i j.
  induction Hsorted as [|z zs Hsorted IH Hall]; intros i j Hij Hi Hj; [by destruct i|].
  destruct j as [|j]; [lia|]. simpl in Hj. destruct i as [|i]; simpl in Hi.
  - injection Hi as ->. rewrite Forall_forall in Hall. apply Hall.
    by apply list_elem_of_lookup_2 in Hj.
  - apply (IH i j); [lia|done|done].
Qed.

End FastSort.

Lemma perNameLess_spec l r : perNameLess l r = true <-> perNameBefore l r.
Proof.
  unfold perNameLess, perNameBefore. destruct (Z.eqb_spec (depth l) (depth r)) as [E|E]; simpl.
  - rewrite N.ltb_lt. lia.
  - rewrite Z.ltb_lt. lia.
Qed.

Lemma perNameLess_false l r :
  perNameLess l r = false <->
  depth r < depth l \/ (depth r = depth l /\ (method r <= method l)%N).
Proof.
  rewrite <- not_true_iff_false, perNameLess_spec. unfold perNameBefore. lia.
Qed.

#[global] Instance perNameLess_total : Total (notAfter perNameLess).
Proof. intros x y. unfold notAfter. rewrite !perNameLess_false. lia. Qed.

#[global] Instance perNameLess_trans : Transitive (notAfter perNameLess).
Proof. intros x y z. unfold notAfter. rewrite !perNameLess_false. lia. Qed.

(** ** Deduplication *)

Lemma lookup_sortEach (m : gmap N (list SimilarMethod)) n :
  sortEach m !! n = fast_sort perNameLess <$> m !! n.
Proof. unfold sortEach. apply lookup_fmap. Qed.

Lemma inhabited_sortEach m : inhabited m -> inhabited (sortEach m).
Proof.
  intros Hm n cs. rewrite lookup_sortEach. destruct (m !! n) as [cs'|] eqn:E; [|done].
  intros [= <-]. apply fast_sort_nonempty; [apply _..|]. by apply Hm in E.
Qed.

(** The second loop takes the head of the list of every name that is not a
    rename, once, and nothing else. *)
Lemma dedup_spec gs (m : gmap N (list SimilarMethod)) :
  inhabited m ->
  exists chosen : list (N * SimilarMethod),
    dedup gs m = Ok chosen.*2 /\
    NoDup chosen.*1 /\
    (forall n, n ∈ chosen.*1 <-> is_Some (m !! n) /\ isMangleRename gs n = false) /\
    (forall n c, (n, c) ∈ chosen -> exists cs, m !! n = Some cs /\ head cs = Some c).
Proof.
  unfold dedup.
  apply (map_fold_weak_ind (fun r (m : gmap N (list SimilarMethod)) =>
    inhabited m ->
    exists chosen : list (N * SimilarMethod),
      r = Ok chosen.*2 /\
      NoDup chosen.*1 /\
      (forall n, n ∈ chosen.*1 <-> is_Some (m !! n) /\ isMangleRename gs n = false) /\
      (forall n c, (n, c) ∈ chosen -> exists cs, m !! n = Some cs /\ head cs = Some c))).
  - intros _. exists []. split; [done|]. split; [constructor|]. split.
    + intros n. rewrite lookup_empty. split; [by intros ?%elem_of_nil|].
      by intros [[? ?] _].
    + by intros n c ?%elem_of_nil.
  - intros i cs m' r Hfresh IH Hinh.
    destruct IH as (chosen & -> & Hnodup & Hdom & Hhead).
    { intros n cs' Hn. apply (Hinh n). rewrite lookup_insert_ne; [done|].
      intros ->. congruence. }
    assert (i ∉ chosen.*1) as Hi.
    { intros [[x Hx] _]%Hdom. congruence. }
    unfold dedupStep. simpl. destruct (isMangleRename gs i) eqn:Hmangle.
    + exists chosen. split; [done|]. split; [done|]. split.
      * intros n. rewrite Hdom. destruct (decide (i = n)) as [->|Hne].
        -- rewrite Hmangle. split; intros [_ ?]; done.
        -- by rewrite lookup_insert_ne.
      * intros n c Hc. destruct (Hhead n c Hc) as (cs' & Hl & Hh). exists cs'.
        split; [|done]. rewrite lookup_insert_ne; [done|]. intros ->. congruence.
    + destruct cs as [|first cs].
      { exfalso. apply (Hinh i []); [|done]. by rewrite lookup_insert_eq. }
      exists (chosen ++ [(i, first)]). rewrite !fmap_app. simpl.
      split; [done|]. split; [|split].
      * apply NoDup_app. split; [done|]. split; [|apply NoDup_singleton].
        intros x Hx ->%list_elem_of_singleton. done.
      * intros n. rewrite elem_of_app, list_elem_of_singleton, Hdom.
        destruct (decide (i = n)) as [->|Hne].
        -- rewrite lookup_insert_eq. split; [|by right]. intros _. by split.
        -- rewrite lookup_insert_ne by done. split; [|by left].
           intros [H|?]; [done|congruence].
      * intros n c [Hc|Hc]%elem_of_app.
        -- destruct (Hhead n c Hc) as (cs' & Hl & Hh). exists cs'.
           split; [|done]. rewrite lookup_insert_ne; [done|]. intros ->. congruence.
        -- apply list_elem_of_singleton in Hc. injection Hc as -> ->.
           exists (first :: cs). by rewrite lookup_insert_eq.
Qed.

(** ** The global order *)

#[global] Instance Z_StrictCompare : StrictCompare Z.compare.
Proof.
  split.
  - apply Z.compare_eq_iff.
  - intros x y. apply Z.compare_antisym.
  - intros x y z. rewrite !Z.compare_lt_iff. lia.
Qed.

#[global] Instance N_StrictCompare : StrictCompare N.compare.
Proof.
  split.
  - apply N.compare_eq_iff.
  - intros x y. apply N.compare_antisym.
  - intros x y z. rewrite !N.compare_lt_iff. lia.
Qed.

Lemma string_compare_refl s : String.compare s s = Eq.
Proof.
  induction s as [|c s IH]; simpl; [done|].
  unfold Ascii.compare. by rewrite N.compare_refl.
Qed.

Lemma string_compare_trans a :
  forall b c, String.compare a b = Lt -> String.compare b c = Lt -> String.compare a c = Lt.
Proof.
  induction a as [|x a IH]; intros [|y b] [|z c]; simpl; try done.
  destruct (Ascii.compare x y) eqn:Exy; try done.
  - apply Ascii.compare_eq_iff in Exy as ->.
    destruct (Ascii.compare y z); try done. apply IH.
  - intros _. destruct (Ascii.compare y z) eqn:Eyz; try done.
    + apply Ascii.compare_eq_iff in Eyz as <-. by rewrite Exy.
    + intros _. unfold Ascii.compare in *.
      rewrite N.compare_lt_iff in Exy, Eyz.
      assert (N_of_ascii x < N_of_ascii z)%N as H by lia.
      apply N.compare_lt_iff in H. by rewrite H.
Qed.

#[global] Instance string_StrictCompare : StrictCompare String.compare.
Proof.
  split.
  - intros x y. split; [apply String.compare_eq_iff|]. intros ->. apply string_compare_refl.
  - intros x y. apply String.compare_antisym.
  - intros x y z. apply string_compare_trans.
Qed.

#[global] Instance lexCompare_StrictCompare {K1 K2 : Type}
    (cmp1 : K1 -> K1 -> comparison) (cmp2 : K2 -> K2 -> comparison)
    `{!StrictCompare cmp1, !StrictCompare cmp2} :
  StrictCompare (lexCompare cmp1 cmp2).
Proof.
  split.
  - intros [x1 x2] [y1 y2]. unfold lexCompare. simpl. split.
    + destruct (cmp1 x1 y1) eqn:E; try done.
      apply cmp_eq in E as ->. by intros ->%cmp_eq.
    + intros [= -> ->]. assert (cmp1 y1 y1 = Eq) as -> by by apply cmp_eq.
      by apply cmp_eq.
  - intros [x1 x2] [y1 y2]. unfold lexCompare. simpl.
    rewrite (cmp_antisym (cmp := cmp1) x1 y1).
    destruct (cmp1 x1 y1); simpl; try done. apply cmp_antisym.
  - intros [x1 x2] [y1 y2] [z1 z2]. unfold lexCompare. simpl.
    destruct (cmp1 x1 y1) eqn:Exy; try done.
    + apply cmp_eq in Exy as ->. destruct (cmp1 y1 z1); try done. apply cmp_trans.
    + intros _. destruct (cmp1 y1 z1) eqn:Eyz; try done.
      * apply cmp_eq in Eyz as <-. by rewrite Exy.
      * by rewrite (cmp_trans _ _ _ Exy Eyz).
Qed.

#[global] Instance rankCompare_StrictCompare : StrictCompare rankCompare.
Proof. unfold rankCompare. apply _. Qed.

Section StrictCompareFacts.

Context {K : Type} (cmp : K -> K -> comparison) `{!StrictCompare cmp}.

Lemma cmp_refl x : cmp x x = Eq.
Proof. by apply cmp_eq. Qed.

Lemma cmp_Gt_Lt x y : cmp x y = Gt <-> cmp y x = Lt.
Proof.
  rewrite (cmp_antisym (cmp := cmp) x y). destruct (cmp x y); simpl; split; done.
Qed.

(** Not being after is transitive. *)
Lemma cmp_notLt_trans x y z : cmp y x <> Lt -> cmp z y <> Lt -> cmp z x <> Lt.
Proof.
  intros Hyx Hzy Hzx. destruct (cmp z y) eqn:E1; [|done|].
  - apply cmp_eq in E1 as ->. done.
  - destruct (cmp y x) eqn:E2; [|done|].
    + apply cmp_eq in E2 as ->. congruence.
    + apply cmp_Gt_Lt in E1, E2. pose proof (cmp_trans _ _ _ E2 E1) as H.
      apply cmp_Gt_Lt in H. congruence.
Qed.

Lemma cmp_notLt_total x y : cmp y x <> Lt \/ cmp x y <> Lt.
Proof.
  destruct (cmp x y) eqn:E; [by right| |by right].
  left. apply cmp_Gt_Lt in E. congruence.
Qed.

End StrictCompareFacts.

Lemma rankLess_rankCompare gs prefix l r :
  rankLess gs prefix l r = true <->
  rankCompare (rankKey gs prefix l) (rankKey gs prefix r) = Lt.
Proof.
  unfold rankLess, rankCompare, rankKey, lexCompare, symbolShortName. simpl.
  set (ln := shortName (nameData gs (name (symbolData gs (method l))))).
  set (rn := shortName (nameData gs (name (symbolData gs (method r))))).
  destruct (Z.eqb_spec (depth l) (depth r)) as [Ed|Ed]; simpl.
  - apply Z.compare_eq_iff in Ed as ->.
    destruct (String.eqb_spec ln rn) as [En|En]; simpl.
    + rewrite En, Z.compare_refl, string_compare_refl.
      rewrite N.ltb_lt. symmetry. apply N.compare_lt_iff.
    + unfold prefixClass, String.ltb.
      assert (String.compare ln rn <> Eq) as Hne by (by intros ?%String.compare_eq_iff).
      destruct (startsWith ln prefix), (startsWith rn prefix); simpl; try done.
      * destruct (String.compare ln rn); done.
      * destruct (String.compare ln rn); done.
  - rewrite Z.ltb_lt, <- Z.compare_lt_iff.
    destruct (depth l ?= depth r) eqn:E; try done.
    by apply Z.compare_eq_iff in E.
Qed.

Lemma rankBefore_rankCompare gs prefix l r :
  rankBefore gs prefix l r <->
  rankCompare (rankKey gs prefix l) (rankKey gs prefix r) = Lt.
Proof.
  unfold rankBefore, rankCompare, rankKey, lexCompare. simpl.
  set (ln := shortName (nameData gs (name (symbolData gs (method l))))).
  set (rn := shortName (nameData gs (name (symbolData gs (method r))))).
  set (lc := prefixClass prefix ln). set (rc := prefixClass prefix rn).
  destruct (Z.compare_spec (depth l) (depth r)) as [Ed|Ed|Ed];
    [|split; [done|by left]|split; [lia|done]].
  destruct (Z.compare_spec lc rc) as [Ec|Ec|Ec];
    [|split; [done|right; split; [done|by left]]|split; [lia|done]].
  destruct (String.compare ln rn) eqn:En.
  - apply String.compare_eq_iff in En. rewrite N.compare_lt_iff. split.
    + intros [?|[_ [?|[_ [?|[_ ?]]]]]]; try lia; done.
    + intros ?. right. split; [done|]. right. split; [done|]. by right.
  - split; [done|]. intros _. right. split; [done|]. right. split; [done|]. by left.
  - split; [|done]. intros [?|[_ [?|[_ [?|[E _]]]]]]; try lia; try done.
    rewrite E, string_compare_refl in En. done.
Qed.

Lemma rankLess_false gs prefix l r :
  rankLess gs prefix l r = false <->
  rankCompare (rankKey gs prefix l) (rankKey gs prefix r) <> Lt.
Proof. by rewrite <- not_true_iff_false, rankLess_rankCompare. Qed.

#[global] Instance rankLess_total gs prefix : Total (notAfter (rankLess gs prefix)).
Proof.
  intros x y. unfold notAfter. rewrite !rankLess_false. apply cmp_notLt_total, _.
Qed.

#[global] Instance rankLess_trans gs prefix : Transitive (notAfter (rankLess gs prefix)).
Proof.
  intros x y z. unfold notAfter. rewrite !rankLess_false. apply cmp_notLt_trans, _.
Qed.

(** ** From the merged map to the ranked sequence *)

Lemma rank_spec gs prefix (m : gmap N (list SimilarMethod)) :
  inhabited m ->
  exists chosen : list (N * SimilarMethod),
    dedup gs (sortEach m) = Ok chosen.*2 /\
    NoDup chosen.*1 /\
    (forall n, n ∈ chosen.*1 <-> is_Some (m !! n) /\ isMangleRename gs n = false) /\
    (forall n c, (n, c) ∈ chosen ->
       exists cs, m !! n = Some cs /\
         head (fast_sort perNameLess cs) = Some c /\
         c ∈ cs /\
         forall c', c' ∈ cs ->
           depth c <= depth c' /\ (depth c = depth c' -> (method c <= method c')%N)) /\
    rank gs prefix m = Ok (fast_sort (rankLess gs prefix) chosen.*2).
Proof.
  intros Hinh.
  destruct (dedup_spec gs (sortEach m) (inhabited_sortEach _ Hinh))
    as (chosen & Hdedup & Hnodup & Hdom & Hhead).
  exists chosen. split; [done|]. split; [done|]. split; [|split].
  - intros n. rewrite Hdom, lookup_sortEach. by rewrite fmap_is_Some.
  - intros n c Hc. destruct (Hhead n c Hc) as (cs' & Hl & Hh).
    rewrite lookup_sortEach in Hl. destruct (m !! n) as [cs|]; [|done].
    injection Hl as <-. exists cs. split; [done|]. split; [done|].
    destruct (fast_sort perNameLess cs) as [|c0 rest] eqn:Hsort; [done|].
    injection Hh as ->.
    apply fast_sort_first in Hsort as [Hin Hmin]; [|apply _..].
    split; [done|]. intros c' Hc'. apply Hmin, perNameLess_false in Hc'. lia.
  - unfold rank. by rewrite Hdedup.
Qed.

Section Keys.

Variable hasSimilarName : GlobalState -> NameRef -> string -> bool.

(** A candidate listed under a name is a member under that name of some
    class. *)
Lemma listed_similarMethodsForReceiver_member fuel gs t prefix :
  forall m, similarMethodsForReceiver hasSimilarName fuel gs t prefix = Ok m ->
  forall n c, listed m n c ->
    exists a, members (symbolData gs a) !! n = Some (method c).
Proof.
  assert (forall s m, similarMethodsForClass hasSimilarName fuel gs s prefix = Ok m ->
            forall n c, listed m n c ->
              exists a, members (symbolData gs a) !! n = Some (method c)) as Hclass.
  { intros s m (ancs & _ & ->)%similarMethodsForClass_inv n c
      [H|(i & a & _ & meth & Hmem & _ & _ & ->)]%listed_scanAncestors.
    - by apply listed_empty in H.
    - by exists a. }
  induction t as [s|s targs|l IHl r IHr|l _ r _|u IHu|]; simpl; intros m Hm n c Hc.
  - by apply (Hclass s m).
  - by apply (Hclass s m).
  - apply bind_Ok in Hm as (ml & Hml & Hm). apply bind_Ok in Hm as (mr & Hmr & [= <-]).
    apply listed_mergeSimilarMethods in Hc as [Hc|Hc].
    + by apply (IHl _ Hml n).
    + by apply (IHr _ Hmr n).
  - injection Hm as <-. by apply listed_empty in Hc.
  - by apply (IHu m).
  - injection Hm as <-. by apply listed_empty in Hc.
Qed.

Lemma listed_allSimilarMethods_member fuel gs d prefix :
  forall m, allSimilarMethods hasSimilarName fuel gs d prefix = Ok m ->
  forall n c, listed m n c ->
    exists a, members (symbolData gs a) !! n = Some (method c).
Proof.
  assert (forall main kind m,
            allSimilarMethods hasSimilarName fuel gs (mkDispatchResult main None kind) prefix
              = Ok m ->
            forall n c, listed m n c ->
              exists a, members (symbolData gs a) !! n = Some (method c)) as Hmain.
  { intros main kind m. rewrite allSimilarMethods_main.
    intros (fresh & Hfresh & [= <-])%bind_Ok n c (cs & Hl & Hin).
    rewrite lookup_fmap in Hl. destruct (fresh !! n) as [cs'|] eqn:E; [|done].
    injection Hl as <-. apply list_elem_of_fmap in Hin as (x & -> & Hx).
    apply (listed_similarMethodsForReceiver_member _ _ _ _ _ Hfresh n x). by exists cs'. }
  induction d as [main kind|main rest kind IH] using DispatchResult_chain_ind; intros m.
  - apply Hmain.
  - rewrite allSimilarMethods_link. intros (result & Hres & H)%bind_Ok.
    apply bind_Ok in H as (others & Hoth & [= <-]).
    intros n c [H|H]%listed_mergeSimilarMethods.
    + by apply (Hmain _ _ _ Hres n).
    + by apply (IH _ Hoth n).
Qed.

End Keys.

(** C5: of the names of the merged map, the renames contribute nothing and
    every other name contributes exactly one candidate, the head of its list
    once sorted, which is a nearest one (and among the nearest the one of the
    smallest method identity); the ranked sequence is a rearrangement of
    these candidates and of nothing else. *)
Theorem dedup_nearest_per_name
    (hasSimilarName : GlobalState -> NameRef -> string -> bool)
    (fuel : nat) (gs : GlobalState) (d : DispatchResult) (prefix : string)
    (m : gmap N (list SimilarMethod)) :
  allSimilarMethods hasSimilarName fuel gs d prefix = Ok m ->
  exists chosen : list (N * SimilarMethod),
    dedup gs (sortEach m) = Ok chosen.*2 /\
    NoDup chosen.*1 /\
    (forall n, n ∈ chosen.*1 <-> is_Some (m !! n) /\ isMangleRename gs n = false) /\
    (forall n c, (n, c) ∈ chosen ->
       exists cs, m !! n = Some cs /\
         head (fast_sort perNameLess cs) = Some c /\
         c ∈ cs /\
         forall c', c' ∈ cs ->
           depth c <= depth c' /\ (depth c = depth c' -> (method c <= method c')%N)) /\
    exists ranked, rank gs prefix m = Ok ranked /\ ranked ≡ₚ chosen.*2.
Proof.
  intros Hm. apply inhabited_allSimilarMethods in Hm.
  destruct (rank_spec gs prefix m Hm) as (chosen & H1 & H2 & H3 & H4 & H5).
  exists chosen. repeat (split; [done|]).
  eexists. split; [exact H5|]. apply merge_sort_Permutation.
Qed.

Lemma dedup_nearest_per_name_witness :
  exists m (chosen : list (N * SimilarMethod)),
    allSimilarMethods Fixture.similar 3 Fixture.gs
      (mkDispatchResult (mkDispatchComponent (ClassType Fixture.B) None) None OR) "foo"
      = Ok m /\
    m !! 100%N = Some [mkSimilarMethod 1 2%N 16%N (Some (ClassType Fixture.B)) None;
                       mkSimilarMethod 2 2%N 10%N (Some (ClassType Fixture.B)) None] /\
    is_Some (m !! 103%N) /\
    dedup Fixture.gs (sortEach m) = Ok chosen.*2 /\
    (100%N ∈ chosen.*1) /\
    ~ (103%N ∈ chosen.*1).
Proof.
  destruct (dedup_nearest_per_name Fixture.similar 3 Fixture.gs
              (mkDispatchResult (mkDispatchComponent (ClassType Fixture.B) None) None OR)
              "foo" _ eq_refl) as (chosen & Hdedup & _ & Hdom & _).
  eexists _, chosen. split; [reflexivity|]. split; [vm_compute; reflexivity|].
  split; [vm_compute; eauto|]. split; [exact Hdedup|]. split.
  - apply Hdom. split; [vm_compute; eauto|reflexivity].
  - intros [_ H]%Hdom. vm_compute in H. discriminate.
Defined.

Lemma rankLess_distinct gs prefix x y :
  method x <> method y ->
  (rankLess gs prefix x y = true /\ rankLess gs prefix y x = false) \/
  (rankLess gs prefix x y = false /\ rankLess gs prefix y x = true).
Proof.
  intros Hne. rewrite !rankLess_false, !rankLess_rankCompare.
  rewrite (cmp_antisym (cmp := rankCompare) (rankKey gs prefix x) (rankKey gs prefix y)).
  destruct (rankCompare (rankKey gs prefix x) (rankKey gs prefix y)) eqn:E; simpl.
  - apply cmp_eq in E. unfold rankKey in E. by injection E.
  - by left.
  - by right.
Qed.

Lemma listed_allSimilarMethods_method hasSimilarName fuel gs d prefix :
  forall m, allSimilarMethods hasSimilarName fuel gs d prefix = Ok m ->
  forall n c, listed m n c -> isMethod (symbolData gs (method c)) = true.
Proof.
  assert (forall t m, similarMethodsForReceiver hasSimilarName fuel gs t prefix = Ok m ->
            forall n c, listed m n c -> isMethod (symbolData gs (method c)) = true)
    as Hrecv.
  { assert (forall s m, similarMethodsForClass hasSimilarName fuel gs s prefix = Ok m ->
              forall n c, listed m n c -> isMethod (symbolData gs (method c)) = true)
      as Hclass.
    { intros s m (ancs & _ & ->)%similarMethodsForClass_inv n c
        [H|(i & a & _ & meth & _ & Hm & _ & ->)]%listed_scanAncestors.
      - by apply listed_empty in H.
      - done. }
    induction t as [s|s targs|l IHl r IHr|l _ r _|u IHu|]; simpl; intros m Hm n c Hc.
    - by apply (Hclass s m Hm n).
    - by apply (Hclass s m Hm n).
    - apply bind_Ok in Hm as (ml & Hml & Hm). apply bind_Ok in Hm as (mr & Hmr & [= <-]).
      apply listed_mergeSimilarMethods in Hc as [Hc|Hc].
      + by apply (IHl _ Hml n).
      + by apply (IHr _ Hmr n).
    - injection Hm as <-. by apply listed_empty in Hc.
    - by apply (IHu m Hm n).
    - injection Hm as <-. by apply listed_empty in Hc. }
  assert (forall main kind m,
            allSimilarMethods hasSimilarName fuel gs (mkDispatchResult main None kind) prefix
              = Ok m ->
            forall n c, listed m n c -> isMethod (symbolData gs (method c)) = true) as Hmain.
  { intros main kind m. rewrite allSimilarMethods_main.
    intros (fresh & Hfresh & [= <-])%bind_Ok n c (cs & Hl & Hin).
    rewrite lookup_fmap in Hl. destruct (fresh !! n) as [cs'|] eqn:E; [|done].
    injection Hl as <-. apply list_elem_of_fmap in Hin as (x & -> & Hx).
    apply (Hrecv _ _ Hfresh n x). by exists cs'. }
  induction d as [main kind|main rest kind IH] using DispatchResult_chain_ind; intros m.
  - apply Hmain.
  - rewrite allSimilarMethods_link. intros (result & Hres & H)%bind_Ok.
    apply bind_Ok in H as (others & Hoth & [= <-]).
    intros n c [H|H]%listed_mergeSimilarMethods.
    + by apply (Hmain _ _ _ Hres n).
    + by apply (IH _ Hoth n).
Qed.

(** Under a symbol table that enters methods under their own names, the
    deduplicated sequence lists no method twice. *)
Lemma dedup_NoDup_methods hasSimilarName fuel gs d prefix m deduped :
  methodsKeyed gs ->
  allSimilarMethods hasSimilarName fuel gs d prefix = Ok m ->
  dedup gs (sortEach m) = Ok deduped ->
  NoDup (method <$> deduped).
Proof.
  intros Hkeyed Hm Hdedup.
  destruct (rank_spec gs prefix m (inhabited_allSimilarMethods _ _ _ _ _ _ Hm))
    as (chosen & Hdedup' & Hnodup & _ & Hhead & _).
  rewrite Hdedup in Hdedup'. injection Hdedup' as ->.
  apply (NoDup_fmap_1 (fun s => name (symbolData gs s))).
  rewrite <- list_fmap_compose.
  assert ((fun s => name (symbolData gs s)) ∘ method <$> chosen.*2 = chosen.*1) as ->; [|done].
  assert (forall n c, (n, c) ∈ chosen -> name (symbolData gs (method c)) = n) as Hname.
  { intros n c Hc. destruct (Hhead n c Hc) as (cs & Hl & _ & Hin & _).
    assert (listed m n c) as Hlisted by (by exists cs).
    destruct (listed_allSimilarMethods_member _ _ _ _ _ _ Hm n c Hlisted) as [a Ha].
    apply (Hkeyed a n _ Ha).
    by apply (listed_allSimilarMethods_method _ _ _ _ _ _ Hm n c). }
  clear -Hname. induction chosen as [|[n c] chosen IH]; [done|]. simpl. f_equal.
  - apply Hname. apply elem_of_cons. by left.
  - apply IH. intros n' c' H. apply Hname. apply elem_of_cons. by right.
Qed.

Lemma rankLess_tie gs prefix x y :
  rankLess gs prefix x y = false /\ rankLess gs prefix y x = false <->
  depth x = depth y /\ method x = method y.
Proof.
  rewrite !rankLess_false.
  rewrite (cmp_antisym (cmp := rankCompare) (rankKey gs prefix x) (rankKey gs prefix y)).
  destruct (rankCompare (rankKey gs prefix x) (rankKey gs prefix y)) eqn:E; simpl.
  - apply cmp_eq in E. unfold rankKey in E. injection E as Hd _ _ Hm. by split.
  - split; [by intros [? _]|]. intros [Hd Hm]. exfalso.
    assert (rankKey gs prefix x = rankKey gs prefix y) as Heq.
    { unfold rankKey. by rewrite Hd, Hm. }
    apply (cmp_eq (cmp := rankCompare)) in Heq. congruence.
  - split; [by intros [_ ?]|]. intros [Hd Hm]. exfalso.
    assert (rankKey gs prefix x = rankKey gs prefix y) as Heq.
    { unfold rankKey. by rewrite Hd, Hm. }
    apply (cmp_eq (cmp := rankCompare)) in Heq. congruence.
Qed.

(** C4, as the code has it: the comparator of the global sort is the order
    the spec words: depth, then names that start with the prefix, then the
    raw name, then the method identity.  It is irreflexive and transitive,
    and two candidates tie, neither before the other, exactly when they have
    the same depth and the same method; any two candidates of different
    methods are ordered one way and not the other.  The ranked sequence is
    the deduplicated one sorted by it: a later entry never compares before an
    earlier one, and compares after it when their methods differ.  When the
    symbol table enters every method under its own name, the deduplicated
    sequence lists no method twice, so any two of its entries are ordered
    one way and not the other and the ranked sequence is strictly
    increasing. *)
Theorem rankLess_strict_total_order (gs : GlobalState) (prefix : string) :
  (forall l r, rankLess gs prefix l r = true <-> rankBefore gs prefix l r) /\
  (forall x, rankLess gs prefix x x = false) /\
  (forall x y z, rankLess gs prefix x y = true -> rankLess gs prefix y z = true ->
                 rankLess gs prefix x z = true) /\
  (forall x y,
     rankLess gs prefix x y = false /\ rankLess gs prefix y x = false <->
     depth x = depth y /\ method x = method y) /\
  (forall x y, method x <> method y ->
     (rankLess gs prefix x y = true /\ rankLess gs prefix y x = false) \/
     (rankLess gs prefix x y = false /\ rankLess gs prefix y x = true)) /\
  (forall hasSimilarName fuel d m deduped,
     allSimilarMethods hasSimilarName fuel gs d prefix = Ok m ->
     dedup gs (sortEach m) = Ok deduped ->
     rank gs prefix m = Ok (fast_sort (rankLess gs prefix) deduped) /\
     (forall (i j : nat) x y,
        (i < j)%nat ->
        fast_sort (rankLess gs prefix) deduped !! i = Some x ->
        fast_sort (rankLess gs prefix) deduped !! j = Some y ->
        rankLess gs prefix y x = false /\
        (method x <> method y -> rankLess gs prefix x y = true)) /\
     (methodsKeyed gs ->
        NoDup (method <$> deduped) /\
        (forall (i j : nat) x y,
           i <> j -> deduped !! i = Some x -> deduped !! j = Some y ->
           (rankLess gs prefix x y = true /\ rankLess gs prefix y x = false) \/
           (rankLess gs prefix x y = false /\ rankLess gs prefix y x = true)) /\
        (forall (i j : nat) x y,
           (i < j)%nat ->
           fast_sort (rankLess gs prefix) deduped !! i = Some x ->
           fast_sort (rankLess gs prefix) deduped !! j = Some y ->
           rankLess gs prefix x y = true /\ rankLess gs prefix y x = false))).
Proof.
  split; [|split; [|split; [|split; [|split]]]].
  - intros l r. by rewrite rankLess_rankCompare, rankBefore_rankCompare.
  - intros x. apply (less_irrefl (rankLess gs prefix)).
  - intros x y z. rewrite !rankLess_rankCompare. apply cmp_trans.
  - apply rankLess_tie.
  - apply rankLess_distinct.
  - intros hasSimilarName fuel d m deduped Hm Hdedup.
    assert (forall (i j : nat) x y,
              (i < j)%nat ->
              fast_sort (rankLess gs prefix) deduped !! i = Some x ->
              fast_sort (rankLess gs prefix) deduped !! j = Some y ->
              rankLess gs prefix y x = false /\
              (method x <> method y -> rankLess gs prefix x y = true)) as Hsorted.
    { intros i j x y Hij Hi Hj.
      pose proof (fast_sort_ordered (rankLess gs prefix) deduped i j x y Hij Hi Hj) as Hyx.
      split; [done|]. intros Hne.
      destruct (rankLess_distinct gs prefix x y Hne) as [[? ?]|[? ?]]; [done|congruence]. }
    split; [unfold rank; by rewrite Hdedup|]. split; [exact Hsorted|].
    intros Hkeyed.
    pose proof (dedup_NoDup_methods _ _ _ _ prefix _ _ Hkeyed Hm Hdedup) as Hnodup.
    assert (forall (l : list SimilarMethod) (i j : nat) x y,
              NoDup (method <$> l) -> i <> j -> l !! i = Some x -> l !! j = Some y ->
              method x <> method y) as Hdistinct.
    { intros l i j x y Hl Hij Hi Hj Heq. apply Hij.
      apply (NoDup_lookup _ i j (method x) Hl); rewrite list_lookup_fmap.
      - by rewrite Hi.
      - by rewrite Hj, Heq. }
    split; [done|]. split.
    + intros i j x y Hij Hi Hj. apply rankLess_distinct.
      by apply (Hdistinct deduped i j).
    + intros i j x y Hij Hi Hj.
      assert (method x <> method y) as Hne.
      { apply (Hdistinct (fast_sort (rankLess gs prefix) deduped) i j); [|lia|done|done].
        by rewrite (fast_sort_Permutation (rankLess gs prefix) deduped). }
      destruct (Hsorted i j x y Hij Hi Hj) as [Hyx Hxy]. split; [by apply Hxy|done].
Qed.

Lemma Fixture_methodsKeyed : methodsKeyed Fixture.gs.
Proof.
  intros a n s. simpl. unfold Fixture.symbols.
  destruct a as [|p]; [cbn; by rewrite lookup_empty|].
  do 5 (try destruct p as [p|p|]); cbn; try (by rewrite lookup_empty);
    rewrite ?lookup_insert, ?lookup_empty;
    repeat (case_decide; [subst n; by intros [= <-]|]); done.
Qed.

Lemma rankLess_strict_total_order_witness :
  rank Fixture.gs "foo"
    {[ 100%N := [mkSimilarMethod 1 2%N 16%N (Some (ClassType Fixture.B)) None;
                 mkSimilarMethod 2 2%N 10%N (Some (ClassType Fixture.B)) None];
       101%N := [mkSimilarMethod 0 2%N 11%N (Some (ClassType Fixture.B)) None];
       103%N := [mkSimilarMethod 2 2%N 13%N (Some (ClassType Fixture.B)) None] ]}
  = Ok [mkSimilarMethod 0 2%N 11%N (Some (ClassType Fixture.B)) None;
        mkSimilarMethod 1 2%N 16%N (Some (ClassType Fixture.B)) None] /\
  rankLess Fixture.gs "foo"
    (mkSimilarMethod 0 2%N 11%N (Some (ClassType Fixture.B)) None)
    (mkSimilarMethod 1 2%N 16%N (Some (ClassType Fixture.B)) None) = true /\
  rankLess Fixture.gs "foo"
    (mkSimilarMethod 1 2%N 16%N (Some (ClassType Fixture.B)) None)
    (mkSimilarMethod 0 2%N 11%N (Some (ClassType Fixture.B)) None) = false.
Proof.
  split; [vm_compute; reflexivity|].
  destruct (rankLess_strict_total_order Fixture.gs "foo") as (_ & _ & _ & _ & _ & Hdeduped).
  destruct (Hdeduped Fixture.similar 3%nat
              (mkDispatchResult (mkDispatchComponent (ClassType Fixture.B) None) None OR)
              _ _ eq_refl eq_refl) as (_ & _ & Hkeyed).
  destruct (Hkeyed Fixture_methodsKeyed) as (_ & _ & Hranked).
  apply (Hranked 0%nat 1%nat); [lia|reflexivity|reflexivity].
Defined.

(** C4, as the spec words it, fails: with the method 50 entered under
    [foo_a] in [X] and under [foo_b] in [Y], a call on [X & Y] leaves two
    different candidates of that method at depth 0 in the deduplicated
    sequence, and neither compares before the other. *)
Lemma rankLess_tie_counterexample :
  allSimilarMethods Fixture.similar 1 TieFixture.gs TieFixture.dispatch "foo"
  = Ok {[ 100%N := [mkSimilarMethod 0 1%N 50%N (Some (AndType (ClassType 1%N) (ClassType 2%N))) None;
                 mkSimilarMethod 0 2%N 60%N (Some (AndType (ClassType 1%N) (ClassType 2%N))) None];
       101%N := [mkSimilarMethod 0 1%N 51%N (Some (AndType (ClassType 1%N) (ClassType 2%N))) None;
                 mkSimilarMethod 0 2%N 50%N (Some (AndType (ClassType 1%N) (ClassType 2%N))) None] ]} /\
  dedup TieFixture.gs (sortEach
    {[ 100%N := [mkSimilarMethod 0 1%N 50%N (Some (AndType (ClassType 1%N) (ClassType 2%N))) None;
                 mkSimilarMethod 0 2%N 60%N (Some (AndType (ClassType 1%N) (ClassType 2%N))) None];
       101%N := [mkSimilarMethod 0 1%N 51%N (Some (AndType (ClassType 1%N) (ClassType 2%N))) None;
                 mkSimilarMethod 0 2%N 50%N (Some (AndType (ClassType 1%N) (ClassType 2%N))) None] ]})
  = Ok [mkSimilarMethod 0 2%N 50%N (Some (AndType (ClassType 1%N) (ClassType 2%N))) None;
        mkSimilarMethod 0 1%N 50%N (Some (AndType (ClassType 1%N) (ClassType 2%N))) None] /\
  mkSimilarMethod 0 1%N 50%N (Some (AndType (ClassType 1%N) (ClassType 2%N))) None
  <> mkSimilarMethod 0 2%N 50%N (Some (AndType (ClassType 1%N) (ClassType 2%N))) None /\
  rankLess TieFixture.gs "foo"
    (mkSimilarMethod 0 1%N 50%N (Some (AndType (ClassType 1%N) (ClassType 2%N))) None)
    (mkSimilarMethod 0 2%N 50%N (Some (AndType (ClassType 1%N) (ClassType 2%N))) None) = false /\
  rankLess TieFixture.gs "foo"
    (mkSimilarMethod 0 2%N 50%N (Some (AndType (ClassType 1%N) (ClassType 2%N))) None)
    (mkSimilarMethod 0 1%N 50%N (Some (AndType (ClassType 1%N) (ClassType 2%N))) None) = false.
Proof.
  split; [vm_compute; reflexivity|]. split; [vm_compute; reflexivity|].
  split; [discriminate|]. split; reflexivity.
Qed.

(** * Further properties of the code *)

(** ** Ancestors *)

Lemma ancestorsImpl_acc fuel gs :
  forall sym acc,
    ancestorsImpl fuel gs sym acc =
    do l <- ancestorsImpl fuel gs sym []; Ok (acc ++ l).
Proof.
  induction fuel as [|fuel IH]; intros sym acc; simpl; [done|].
  destruct (negb _); [done|]. rewrite !foldl_snoc_app.
  destruct (exists_ _).
  - match goal with
    | |- ancestorsImpl _ _ _ ?a = bind (ancestorsImpl _ _ _ ?b) _ =>
        rewrite (IH _ a), (IH _ b)
    end.
    destruct (ancestorsImpl fuel gs _ []); simpl; try done.
    by rewrite <- !app_assoc.
  - simpl. by rewrite <- app_assoc.
Qed.

Lemma ancestorsImpl_Ok_inv fuel gs :
  forall sym acc l,
    ancestorsImpl fuel gs sym acc = Ok l ->
    exists k, (k < fuel)%nat /\ finalized gs sym k /\ l = acc ++ linearization gs k sym.
Proof.
  induction fuel as [|fuel IH]; intros sym acc l; simpl; [done|].
  destruct (isClassOrModuleLinearizationComputed (symbolData gs sym)) eqn:Hlin; [|done].
  simpl. rewrite foldl_snoc_app.
  destruct (exists_ (superClass (symbolData gs sym))) eqn:Hsup.
  - intros (k & Hk & Hfin & ->)%IH. exists (S k). split; [lia|].
    split; [by apply finalized_super|]. simpl. by rewrite <- !app_assoc.
  - intros [= <-]. exists 0%nat. split; [lia|]. split; [by apply finalized_top|].
    simpl. by rewrite app_nil_r, <- app_assoc.
Qed.

(** X1: the walk returns exactly when the superclass chain ends within the
    fuel and every class on it has its linearization computed, and then it
    returns the chain: each class followed by its mixins. *)
Theorem ancestors_Ok_iff (fuel : nat) (gs : GlobalState) (sym : SymbolRef)
    (l : list SymbolRef) :
  ancestors fuel gs sym = Ok l <->
  exists k, (k < fuel)%nat /\ finalized gs sym k /\ l = linearization gs k sym.
Proof.
  split.
  - intros H. by apply ancestorsImpl_Ok_inv in H.
  - intros (k & Hk & Hfin & ->). by apply ancestors_finalized.
Qed.

(** X2: one step of the walk: a class without computed linearization is a
    fault, whatever lies above it; otherwise the ancestors are the class, its
    mixins in their order and then the ancestors of the superclass, if there
    is one; a fault or a walk without end above is handed down. *)
Theorem ancestors_step (fuel : nat) (gs : GlobalState) (sym : SymbolRef) :
  ancestors (S fuel) gs sym =
  if negb (isClassOrModuleLinearizationComputed (symbolData gs sym))
  then Raise LinearizationNotComputed
  else if exists_ (superClass (symbolData gs sym))
       then do rest <- ancestors fuel gs (superClass (symbolData gs sym));
            Ok (sym :: mixins (symbolData gs sym) ++ rest)
       else Ok (sym :: mixins (symbolData gs sym)).
Proof.
  unfold ancestors. simpl. destruct (negb _); [done|]. rewrite foldl_snoc_app.
  destruct (exists_ _); [|done]. by rewrite ancestorsImpl_acc.
Qed.

(** X3: on a superclass chain without a top (a class that is its own
    superclass, a cycle of superclasses) the walk has nothing to return,
    whatever the fuel. *)
Theorem ancestors_no_top (gs : GlobalState) (sym : SymbolRef) :
  (forall i, exists_ (superClass (symbolData gs
               (Nat.iter i (fun s => superClass (symbolData gs s)) sym))) = true) ->
  forall fuel l, ancestors fuel gs sym <> Ok l.
Proof.
  intros Hsup fuel l Hok. apply ancestorsImpl_Ok_inv in Hok as (k & _ & Hfin & _).
  assert (forall k s, finalized gs s k ->
            forall j, s = Nat.iter j (fun s => superClass (symbolData gs s)) sym -> False)
    as Hno.
  { clear -Hsup. intros k s Hfin.
    induction Hfin as [s _ Hend|s k _ _ _ IH]; intros j ->.
    - rewrite Hsup in Hend. discriminate.
    - by apply (IH (S j)). }
  by apply (Hno k sym Hfin 0%nat).
Qed.

Lemma ancestors_no_top_witness :
  match ancestors 10 Fixture.gs 5%N with
  | Ok _ => False
  | _ => True
  end.
Proof.
  destruct (ancestors 10 Fixture.gs 5%N) as [l| |] eqn:H; [|done..].
  apply (ancestors_no_top Fixture.gs 5%N) in H; [done|]. intros i.
  replace (Nat.iter i _ 5%N) with 5%N; [reflexivity|].
  induction i as [|i IH]; [done|]. by rewrite Nat.iter_succ, <- IH.
Defined.

(** ** Candidates of a receiver type *)

Section Candidates.

Variable hasSimilarName : GlobalState -> NameRef -> string -> bool.

Lemma similarMethodsForReceiver_candidate fuel gs t prefix :
  forall m, similarMethodsForReceiver hasSimilarName fuel gs t prefix = Ok m ->
  forall n c, listed m n c ->
    receiver c ∈ consulted t /\ 0 <= depth c /\
    isMethod (symbolData gs (method c)) = true /\
    hasSimilarName gs n prefix = true.
Proof.
  assert (forall s m, similarMethodsForClass hasSimilarName fuel gs s prefix = Ok m ->
            forall n c, listed m n c ->
              receiver c = s /\ 0 <= depth c /\
              isMethod (symbolData gs (method c)) = true /\
              hasSimilarName gs n prefix = true) as Hclass.
  { intros s m (ancs & _ & ->)%similarMethodsForClass_inv n c
      [H|(i & a & _ & meth & _ & Hm & Hs & ->)]%listed_scanAncestors.
    - by apply listed_empty in H.
    - simpl. repeat split; [lia|done|done]. }
  induction t as [s|s targs|l IHl r IHr|l _ r _|u IHu|]; simpl; intros m Hm n c Hc.
  - destruct (Hclass s m Hm n c Hc) as (-> & ?). split; [|done].
    by apply list_elem_of_singleton.
  - destruct (Hclass s m Hm n c Hc) as (-> & ?). split; [|done].
    by apply list_elem_of_singleton.
  - apply bind_Ok in Hm as (ml & Hml & Hm). apply bind_Ok in Hm as (mr & Hmr & [= <-]).
    apply listed_mergeSimilarMethods in Hc as [Hc|Hc].
    + destruct (IHl _ Hml n c Hc) as (? & ?). split; [|done]. apply elem_of_app. by left.
    + destruct (IHr _ Hmr n c Hc) as (? & ?). split; [|done]. apply elem_of_app. by right.
  - injection Hm as <-. by apply listed_empty in Hc.
  - by apply (IHu m).
  - injection Hm as <-. by apply listed_empty in Hc.
Qed.

Lemma similarMethodsForClass_returns fuel gs s prefix :
  (exists m, similarMethodsForClass hasSimilarName fuel gs s prefix = Ok m) <->
  exists k, (k < fuel)%nat /\ finalized gs s k.
Proof.
  split.
  - intros (m & (ancs & Hanc & _)%similarMethodsForClass_inv).
    apply ancestorsImpl_Ok_inv in Hanc as (k & ? & ? & _). eauto.
  - intros (k & Hk & Hfin). eexists. apply similarMethodsForClass_Ok.
    by apply (ancestors_finalized _ _ k).
Qed.

End Candidates.

Lemma similarMethodsForReceiver_Ok_iff
    (hasSimilarName : GlobalState -> NameRef -> string -> bool)
    (fuel : nat) (gs : GlobalState) (t : TypePtr) (prefix : string) :
  (exists m, similarMethodsForReceiver hasSimilarName fuel gs t prefix = Ok m) <->
  Forall (fun s => exists k, (k < fuel)%nat /\ finalized gs s k) (consulted t).
Proof.
  induction t as [s|s targs|l IHl r IHr|l _ r _|u IHu|]; simpl.
  - rewrite similarMethodsForClass_returns, Forall_singleton. done.
  - rewrite similarMethodsForClass_returns, Forall_singleton. done.
  - rewrite Forall_app, <- IHl, <- IHr. split.
    + intros (m & (ml & Hl & (mr & Hr & _)%bind_Ok)%bind_Ok). eauto.
    + intros [(ml & ->) (mr & ->)]. simpl. eauto.
  - split; [constructor|eauto].
  - done.
  - split; [constructor|eauto].
Qed.

(** X4: a receiver type has candidates to return exactly when every class it
    consults, under intersections and proxies, has a superclass chain that
    ends within the fuel with all linearizations computed; classes under a
    union or among type arguments are never looked at. *)
Theorem similarMethodsForReceiver_returns
    (hasSimilarName : GlobalState -> NameRef -> string -> bool)
    (fuel : nat) (gs : GlobalState) (t : TypePtr) (prefix : string) :
  (exists m, similarMethodsForReceiver hasSimilarName fuel gs t prefix = Ok m) <->
  Forall (fun s => exists k, (k < fuel)%nat /\ finalized gs s k) (consulted t).
Proof. apply similarMethodsForReceiver_Ok_iff. Qed.

Lemma listed_allSimilarMethods_origin
    (hasSimilarName : GlobalState -> NameRef -> string -> bool)
    (fuel : nat) (gs : GlobalState) (d : DispatchResult) (prefix : string)
    (m : gmap N (list SimilarMethod)) (n : NameRef) (c : SimilarMethod) :
  allSimilarMethods hasSimilarName fuel gs d prefix = Ok m ->
  listed m n c ->
  0 <= depth c /\
  isMethod (symbolData gs (method c)) = true /\
  hasSimilarName gs n prefix = true /\
  exists component,
    component ∈ components d /\
    receiverType c = Some (dc_receiver component) /\
    constr c = dc_constr component /\
    receiver c ∈ consulted (dc_receiver component).
Proof.
  assert (forall main kind m,
            allSimilarMethods hasSimilarName fuel gs (mkDispatchResult main None kind) prefix
              = Ok m ->
            forall n c, listed m n c ->
              0 <= depth c /\ isMethod (symbolData gs (method c)) = true /\
              hasSimilarName gs n prefix = true /\
              receiverType c = Some (dc_receiver main) /\ constr c = dc_constr main /\
              receiver c ∈ consulted (dc_receiver main)) as Hmain.
  { clear. intros main kind m. rewrite allSimilarMethods_main.
    intros (fresh & Hfresh & [= <-])%bind_Ok n c (cs & Hl & Hin).
    rewrite lookup_fmap in Hl. destruct (fresh !! n) as [cs'|] eqn:E; [|done].
    injection Hl as <-. apply list_elem_of_fmap in Hin as (x & -> & Hx).
    destruct (similarMethodsForReceiver_candidate _ _ _ _ _ _ Hfresh n x) as (? & ? & ? & ?).
    - by exists cs'.
    - by simpl. }
  revert m. induction d as [main kind|main rest kind IH] using DispatchResult_chain_ind;
    intros m Hm Hc.
  - destruct (Hmain _ _ _ Hm n c Hc) as (? & ? & ? & ? & ? & ?).
    repeat (split; [done|]). exists main. split; [|done]. simpl.
    by apply list_elem_of_singleton.
  - rewrite allSimilarMethods_link in Hm. apply bind_Ok in Hm as (result & Hres & H).
    apply bind_Ok in H as (others & Hoth & [= <-]).
    apply listed_mergeSimilarMethods in Hc as [Hc|Hc].
    + destruct (Hmain _ _ _ Hres n c Hc) as (? & ? & ? & ? & ? & ?).
      repeat (split; [done|]). exists main. split; [|done]. simpl.
      apply elem_of_cons. by left.
    + destruct (IH _ Hoth Hc) as (? & ? & ? & component & ? & ?).
      repeat (split; [done|]). exists component. split; [|done]. simpl.
      apply elem_of_cons. by right.
Qed.

(** X5: whatever the receivers of a dispatch chain are, every candidate
    offered is a method, matched the oracle under the name it is listed
    under, has a depth that is not negative, and carries the receiver type of
    one component of the chain together with a class that component's
    receiver consults. *)
Theorem allSimilarMethods_candidate
    (hasSimilarName : GlobalState -> NameRef -> string -> bool)
    (fuel : nat) (gs : GlobalState) (d : DispatchResult) (prefix : string)
    (m : gmap N (list SimilarMethod)) (n : NameRef) (c : SimilarMethod) :
  allSimilarMethods hasSimilarName fuel gs d prefix = Ok m ->
  listed m n c ->
  0 <= depth c /\
  isMethod (symbolData gs (method c)) = true /\
  hasSimilarName gs n prefix = true /\
  exists component,
    component ∈ components d /\
    receiverType c = Some (dc_receiver component) /\
    constr c = dc_constr component /\
    receiver c ∈ consulted (dc_receiver component).
Proof. apply listed_allSimilarMethods_origin. Qed.

Lemma allSimilarMethods_candidate_witness :
  exists m c,
    allSimilarMethods Fixture.similar 3 Fixture.gs
      (mkDispatchResult (mkDispatchComponent (ClassType Fixture.B) (Some 7%N)) None AND)
      "foo_baz" = Ok m /\
    listed m 101%N c /\
    0 <= depth c /\
    isMethod (symbolData Fixture.gs (method c)) = true /\
    receiverType c = Some (ClassType Fixture.B).
Proof.
  eexists _, (mkSimilarMethod 0 2%N 11%N (Some (ClassType Fixture.B)) (Some 7%N)).
  split; [reflexivity|].
  assert (listed
            {[ 101%N := [mkSimilarMethod 0 2%N 11%N (Some (ClassType Fixture.B)) (Some 7%N)] ]}
            101%N (mkSimilarMethod 0 2%N 11%N (Some (ClassType Fixture.B)) (Some 7%N))) as Hc.
  { eexists. split; [apply lookup_singleton_eq|]. by apply list_elem_of_singleton. }
  split; [exact Hc|].
  destruct (allSimilarMethods_candidate Fixture.similar 3 Fixture.gs
              (mkDispatchResult (mkDispatchComponent (ClassType Fixture.B) (Some 7%N)) None AND)
              "foo_baz" _ 101%N _ eq_refl Hc) as (? & ? & _).
  repeat split; done.
Defined.

(** ** Merging *)

(** X6: what the merge keeps under a name, for any two maps: nothing when a
    side lacks the name, nothing when both lists are empty, else the left
    list followed by the right list; so an empty map on either side gives
    the empty map and no merged list is ever empty. *)
Theorem mergeSimilarMethods_exact (left right : gmap N (list SimilarMethod)) :
  (forall n, mergeSimilarMethods left right !! n =
             match left !! n, right !! n with
             | Some l, Some r => match l ++ r with [] => None | _ => Some (l ++ r) end
             | _, _ => None
             end) /\
  mergeSimilarMethods left ∅ = ∅ /\
  mergeSimilarMethods ∅ right = ∅ /\
  (forall n cs, mergeSimilarMethods left right !! n = Some cs -> cs <> []).
Proof.
  split; [apply lookup_mergeSimilarMethods|]. split; [|split].
  - apply map_eq. intros n. rewrite lookup_mergeSimilarMethods, !lookup_empty.
    by destruct (left !! n).
  - apply map_eq. intros n. by rewrite lookup_mergeSimilarMethods, !lookup_empty.
  - apply inhabited_mergeSimilarMethods.
Qed.

(** X7: merging is associative on maps without empty lists, so a dispatch
    chain may be merged from either end. *)
Theorem mergeSimilarMethods_assoc (a b c : gmap N (list SimilarMethod)) :
  inhabited a -> inhabited b ->
  mergeSimilarMethods (mergeSimilarMethods a b) c =
  mergeSimilarMethods a (mergeSimilarMethods b c).
Proof.
  intros Ha Hb. apply map_eq. intros n. rewrite !lookup_mergeSimilarMethods.
  destruct (a !! n) as [la|] eqn:Ea; [|done].
  destruct (b !! n) as [lb|] eqn:Eb; [|done].
  apply Ha in Ea. apply Hb in Eb.
  destruct la as [|x la]; [done|]. destruct lb as [|y lb]; [done|]. simpl.
  destruct (c !! n) as [lc|]; [|done]. simpl. by rewrite <- app_assoc.
Qed.

Lemma mergeSimilarMethods_assoc_witness :
  mergeSimilarMethods
    (mergeSimilarMethods {[ 100%N := [mkSimilarMethod 0 1%N 10%N None None] ]}
                         {[ 100%N := [mkSimilarMethod 0 3%N 16%N None None] ]})
    {[ 100%N := [mkSimilarMethod 1 2%N 16%N None None] ]}
  = mergeSimilarMethods {[ 100%N := [mkSimilarMethod 0 1%N 10%N None None] ]}
      (mergeSimilarMethods {[ 100%N := [mkSimilarMethod 0 3%N 16%N None None] ]}
                           {[ 100%N := [mkSimilarMethod 1 2%N 16%N None None] ]}).
Proof.
  apply mergeSimilarMethods_assoc; intros n cs;
    (destruct (decide (n = 100%N)) as [->|Hne];
     [rewrite lookup_singleton_eq; by intros [= <-]
     |rewrite lookup_singleton_ne by done; done]).
Defined.

(** X8: swapping the two sides of a merge keeps the same names and, under
    each name, the same candidates in another order. *)
Theorem mergeSimilarMethods_comm (left right : gmap N (list SimilarMethod)) (n : NameRef) :
  match mergeSimilarMethods left right !! n, mergeSimilarMethods right left !! n with
  | Some cs, Some cs' => cs ≡ₚ cs'
  | None, None => True
  | _, _ => False
  end.
Proof.
  rewrite !lookup_mergeSimilarMethods.
  destruct (left !! n) as [l|], (right !! n) as [r|]; try done.
  destruct l as [|x l], r as [|y r]; simpl; try done.
  - by rewrite app_nil_r.
  - by rewrite app_nil_r.
  - change (x :: l ++ y :: r) with ((x :: l) ++ (y :: r)).
    change (y :: r ++ x :: l) with ((y :: r) ++ (x :: l)).
    apply Permutation_app_comm.
Qed.

(** ** The dispatch chain *)

(** X9: a name is offered for a dispatch chain exactly when the receiver of
    every component of the chain lists it. *)
Theorem allSimilarMethods_names
    (hasSimilarName : GlobalState -> NameRef -> string -> bool)
    (fuel : nat) (gs : GlobalState) (d : DispatchResult) (prefix : string)
    (m : gmap N (list SimilarMethod)) :
  allSimilarMethods hasSimilarName fuel gs d prefix = Ok m ->
  forall n,
    is_Some (m !! n) <->
    forall component, component ∈ components d ->
      exists fresh,
        similarMethodsForReceiver hasSimilarName fuel gs (dc_receiver component) prefix
          = Ok fresh /\
        is_Some (fresh !! n).
Proof.
  revert m. induction d as [main kind|main rest kind IH] using DispatchResult_chain_ind;
    intros m Hm n.
  - rewrite allSimilarMethods_main in Hm. apply bind_Ok in Hm as (fresh & Hfresh & [= <-]).
    rewrite lookup_fmap, fmap_is_Some. simpl. split.
    + intros Hn component ->%list_elem_of_singleton. eauto.
    + intros H. destruct (H main) as (fresh' & Hf & Hn); [by apply list_elem_of_singleton|].
      rewrite Hfresh in Hf. by injection Hf as ->.
  - rewrite allSimilarMethods_link in Hm. apply bind_Ok in Hm as (result & Hres & H).
    apply bind_Ok in H as (others & Hoth & [= <-]).
    pose proof (inhabited_allSimilarMethods _ _ _ _ _ _ Hres) as Hinh.
    rewrite allSimilarMethods_main in Hres.
    apply bind_Ok in Hres as (fresh & Hfresh & [= <-]).
    assert (is_Some (mergeSimilarMethods
                       (map (stamped (dc_receiver main) (dc_constr main)) <$> fresh)
                       others !! n)
            <-> is_Some (fresh !! n) /\ is_Some (others !! n)) as ->.
    { rewrite lookup_mergeSimilarMethods.
      destruct ((map (stamped (dc_receiver main) (dc_constr main)) <$> fresh) !! n)
        as [ls|] eqn:E.
      - apply Hinh in E as Hne. rewrite lookup_fmap in E.
        destruct (fresh !! n); [|done]. destruct (others !! n) as [rs|].
        + destruct ls; [done|]. simpl. split; eauto.
        + split; [by intros [? ?]|]. by intros [_ [? ?]].
      - rewrite lookup_fmap in E. destruct (fresh !! n); [done|].
        split; [by intros [? ?]|]. by intros [[? ?] _]. }
    rewrite (IH _ Hoth n). simpl. split.
    + intros [Hn Hrest] component [->|Hc]%elem_of_cons; [eauto|by apply Hrest].
    + intros H. split.
      * destruct (H main) as (fresh' & Hf & Hn); [apply elem_of_cons; by left|].
        rewrite Hfresh in Hf. by injection Hf as ->.
      * intros component Hc. apply H. apply elem_of_cons. by right.
Qed.

Lemma allSimilarMethods_names_witness :
  exists m,
    allSimilarMethods Fixture.similar 3 Fixture.gs
      (mkDispatchResult (mkDispatchComponent (ClassType Fixture.A) None)
         (Some (mkDispatchResult (mkDispatchComponent (ClassType Fixture.M) None) None OR))
         OR) "" = Ok m /\
    is_Some (m !! 100%N) /\ ~ is_Some (m !! 104%N).
Proof.
  destruct (allSimilarMethods Fixture.similar 3 Fixture.gs
      (mkDispatchResult (mkDispatchComponent (ClassType Fixture.A) None)
         (Some (mkDispatchResult (mkDispatchComponent (ClassType Fixture.M) None) None OR))
         OR) "") as [m| |] eqn:Hm; [|vm_compute in Hm; discriminate..].
  exists m. split; [done|].
  pose proof (allSimilarMethods_names _ _ _ _ _ _ Hm) as H.
  split.
  - apply H. intros component [->|[->|[]%elem_of_nil]%elem_of_cons]%elem_of_cons;
      (eexists; split; [reflexivity|vm_compute; eauto]).
  - intros Hn.
    destruct (proj1 (H 104%N) Hn (mkDispatchComponent (ClassType Fixture.M) None))
      as (fresh & Hf & Hs).
    + simpl. apply elem_of_cons. right. by apply list_elem_of_singleton.
    + vm_compute in Hf. injection Hf as <-. vm_compute in Hs. by destruct Hs.
Defined.

(** ** Stamping *)

Lemma stampAll_Ok_inv rt c cs cs' :
  stampAll rt c cs = Ok cs' -> Forall unstamped cs.
Proof.
  revert cs'. induction cs as [|x cs IH]; intros cs'; simpl; [constructor|].
  intros (s & Hs & (rest & Hrest & _)%bind_Ok)%bind_Ok. constructor; [|by eapply IH].
  unfold stamp, unstamped in *. by destruct (receiverType x), (constr x).
Qed.

Lemma stampAll_outcome rt c cs :
  (exists cs', stampAll rt c cs = Ok cs') \/ overwriteFault (stampAll rt c cs) = true.
Proof.
  induction cs as [|x cs IH]; simpl; [eauto|].
  unfold stamp. destruct (receiverType x); [by right|]. destruct (constr x); [by right|].
  simpl. destruct IH as [[cs' ->]|H]; simpl; [eauto|].
  right. by destruct (stampAll rt c cs) as [|[]|].
Qed.

Lemma stampResult_Ok_inv rt c (m m' : gmap N (list SimilarMethod)) :
  stampResult rt c m = Ok m' -> forall n x, listed m n x -> unstamped x.
Proof.
  unfold stampResult. revert m'.
  apply (map_fold_weak_ind (fun r (m : gmap N (list SimilarMethod)) =>
    forall m', r = Ok m' -> forall n x, listed m n x -> unstamped x)).
  - intros m' _ n x H. by apply listed_empty in H.
  - intros i cs m0 r Hfresh IH m' (acc & -> & (st & Hst & _)%bind_Ok)%bind_Ok n x
      (cs' & Hl & Hx).
    destruct (decide (i = n)) as [->|Hne].
    + rewrite lookup_insert_eq in Hl. injection Hl as <-.
      apply stampAll_Ok_inv in Hst. rewrite Forall_forall in Hst. by apply Hst.
    + rewrite lookup_insert_ne in Hl by done. apply (IH acc eq_refl n). by exists cs'.
Qed.

Lemma stampResult_outcome rt c (m : gmap N (list SimilarMethod)) :
  (exists m', stampResult rt c m = Ok m') \/ overwriteFault (stampResult rt c m) = true.
Proof.
  unfold stampResult.
  apply (map_fold_weak_ind (fun r (_ : gmap N (list SimilarMethod)) =>
    (exists m', r = Ok m') \/ overwriteFault r = true)); [eauto|].
  intros i cs m0 r _ [[acc ->]|H]; simpl.
  - destruct (stampAll_outcome rt c cs) as [[cs' ->]|H]; simpl; [eauto|].
    right. by destruct (stampAll rt c cs) as [|[]|].
  - right. by destruct r as [|[]|].
Qed.

(** X10: stamping a map works exactly when none of its candidates carries a
    receiver type or a constraint yet, and then every candidate gets both;
    a candidate that carries one makes the whole stamping an overwrite fault,
    so what was stamped once cannot be stamped again. *)
Theorem stampResult_once (rt : TypePtr) (c : option TypeConstraint)
    (m : gmap N (list SimilarMethod)) :
  ((forall n x, listed m n x -> unstamped x) ->
     stampResult rt c m = Ok (map (stamped rt c) <$> m)) /\
  ((exists n x, listed m n x /\ ~ unstamped x) ->
     overwriteFault (stampResult rt c m) = true) /\
  (forall m' rt' c',
     stampResult rt c m = Ok m' -> (exists n x, listed m' n x) ->
     overwriteFault (stampResult rt' c' m') = true).
Proof.
  assert (forall rt c (m : gmap N (list SimilarMethod)),
            (exists n x, listed m n x /\ ~ unstamped x) ->
            overwriteFault (stampResult rt c m) = true) as Hfault.
  { clear. intros rt c m (n & x & Hx & Hno).
    destruct (stampResult_outcome rt c m) as [[m' Hm']|H]; [|done].
    exfalso. apply Hno. by apply (stampResult_Ok_inv _ _ _ _ Hm' n). }
  split; [apply stampResult_unstamped|]. split; [apply Hfault|].
  intros m' rt' c' Hm' (n & x & cs & Hl & Hx). apply Hfault. exists n, x. split.
  - by exists cs.
  - pose proof (stampResult_Ok_inv _ _ _ _ Hm') as Hun.
    rewrite (stampResult_unstamped _ _ _ Hun) in Hm'. injection Hm' as <-.
    rewrite lookup_fmap in Hl. destruct (m !! n); [|done]. injection Hl as <-.
    apply list_elem_of_fmap in Hx as (y & -> & _). by intros [? _].
Qed.

Lemma stampResult_once_witness :
  overwriteFault
    (stampResult (ClassType Fixture.A) None
       {[ 101%N := [mkSimilarMethod 0 2%N 11%N (Some (ClassType Fixture.B)) None] ]}) = true.
Proof.
  apply (stampResult_once (ClassType Fixture.B) None
           {[ 101%N := [mkSimilarMethod 0 2%N 11%N None None] ]}).
  - vm_compute. reflexivity.
  - exists 101%N. eexists. eexists. split; [apply lookup_singleton_eq|].
    by apply list_elem_of_singleton.
Defined.

(** ** Numbers as text *)

(** The decimal text of a number reads back as the number and has no
    digit to spare: one digit for numbers below ten, and otherwise as many
    digits as the number needs. *)
Theorem decimal_roundtrip (n : N) :
  readDecimal (decimal n) 0 = Some n /\
  (1 <= String.length (decimal n))%nat /\
  (n < 10 ^ N.of_nat (String.length (decimal n)))%N /\
  ((n < 10)%N -> String.length (decimal n) = 1%nat) /\
  ((10 <= n)%N -> (10 ^ N.of_nat (String.length (decimal n) - 1) <= n)%N).
Proof.
  destruct (decimal_spec n) as (Hlen & Hub & Hlb & Hread).
  split; [by rewrite Hread|]. split; [done|]. split; [done|]. split.
  - intros Hn. destruct Hlb as [|Hlb]; [done|].
    destruct (String.length (decimal n)) as [|[|len]]; [lia|done|].
    exfalso. replace (S (S len) - 1)%nat with (S len) in Hlb by lia.
    rewrite Nnat.Nat2N.inj_succ, N.pow_succ_r' in Hlb.
    assert (1 <= 10 ^ N.of_nat len)%N.
    { apply (N.pow_le_mono_r 10 0); lia. }
    remember (10 ^ N.of_nat len)%N as p. lia.
  - intros Hn. destruct Hlb as [Hone|]; [|done]. rewrite Hone in Hub.
    change (10 ^ N.of_nat 1)%N with 10%N in Hub. lia.
Qed.

Lemma decimal_roundtrip_witness :
  String.length (decimal 7) = 1%nat /\ (10 ^ N.of_nat (String.length (decimal 1234) - 1) <= 1234)%N.
Proof.
  split.
  - apply (decimal_roundtrip 7). lia.
  - apply (decimal_roundtrip 1234). lia.
Defined.

Lemma digitValue_inv c d :
  digitValue c = Some d -> (d < 10)%N /\ N_of_ascii c = (48 + d)%N.
Proof.
  unfold digitValue. destruct ((48 <=? N_of_ascii c) && (N_of_ascii c <=? 57))%N eqn:E; [|done].
  apply andb_true_iff in E as [H1%N.leb_le H2%N.leb_le]. intros [= <-]. lia.
Qed.

Lemma readDecimal_shape s :
  forall a w, readDecimal s a = Some w ->
  exists u, (u < 10 ^ N.of_nat (String.length s))%N /\
    forall b, readDecimal s b = Some (b * 10 ^ N.of_nat (String.length s) + u)%N.
Proof.
  induction s as [|c s IH]; intros a w; simpl String.length.
  - intros _. exists 0%N. split; [done|]. intros b. simpl. f_equal. lia.
  - simpl readDecimal. destruct (digitValue c) as [d|] eqn:Hd; [|done].
    apply digitValue_inv in Hd as [Hd _]. intros (u & Hu & Hread)%IH.
    rewrite Nnat.Nat2N.inj_succ, N.pow_succ_r'.
    remember (10 ^ N.of_nat (String.length s))%N as p.
    exists (d * p + u)%N. split; [nia|]. intros b. rewrite Hread. f_equal. lia.
Qed.

(** Digit strings of the same length are ordered like the numbers they
    spell. *)
Lemma compare_digits s :
  forall t u v,
    String.length s = String.length t ->
    readDecimal s 0 = Some u -> readDecimal t 0 = Some v ->
    (u < v)%N -> String.compare s t = Lt.
Proof.
  induction s as [|c s IH]; intros [|c' t] u v Hlen; simpl in Hlen; try done.
  - simpl. intros [= <-] [= <-]. lia.
  - injection Hlen as Hlen. simpl readDecimal.
    destruct (digitValue c) as [d|] eqn:Hd; [|done].
    destruct (digitValue c') as [d'|] eqn:Hd'; [|done].
    apply digitValue_inv in Hd as [Hd Hc]. apply digitValue_inv in Hd' as [Hd' Hc'].
    intros Hu Hv Huv.
    destruct (readDecimal_shape _ _ _ Hu) as (u' & Hu' & Hru).
    destruct (readDecimal_shape _ _ _ Hv) as (v' & Hv' & Hrv).
    rewrite Hru in Hu. rewrite Hrv in Hv. injection Hu as <-. injection Hv as <-.
    rewrite <- Hlen in *. remember (10 ^ N.of_nat (String.length s))%N as p.
    simpl. unfold Ascii.compare. rewrite Hc, Hc'.
    destruct (N.compare_spec (48 + d) (48 + d')) as [E|E|E].
    + assert (d = d') as <- by lia.
      apply (IH t u' v' Hlen).
      * by rewrite Hru.
      * by rewrite Hrv.
      * nia.
    + done.
    + exfalso. nia.
Qed.

Lemma format_06d_read n : readDecimal (format_06d n) 0 = Some n.
Proof.
  destruct (decimal_spec n) as (_ & _ & _ & Hread). unfold format_06d. cbv zeta.
  by rewrite readDecimal_append, readDecimal_zeros, Hread.
Qed.

Lemma format_06d_length n : (n <= 999999)%N -> String.length (format_06d n) = 6%nat.
Proof.
  intros Hn. destruct (decimal_spec n) as (Hlen & _ & Hlb & _).
  unfold format_06d. cbv zeta. rewrite length_append, length_zeros.
  assert (String.length (decimal n) <= 6)%nat; [|lia].
  destruct Hlb as [->|Hlb]; [lia|].
  destruct (le_lt_dec (String.length (decimal n)) 6) as [|Hbig]; [done|].
  assert (10 ^ 6 <= 10 ^ N.of_nat (String.length (decimal n) - 1))%N.
  { apply N.pow_le_mono_r; lia. }
  change (10 ^ 6)%N with 1000000%N in *. lia.
Qed.

(** X11: different rank indices never share a sort key, and up to 999,999
    the keys compare as text the way the indices compare as numbers, so a
    client that sorts by [sortText] shows the ranking of the server. *)
Theorem format_06d_order (i j : N) :
  (format_06d i = format_06d j -> i = j) /\
  ((i < j)%N -> (j <= 999999)%N -> String.compare (format_06d i) (format_06d j) = Lt).
Proof.
  split.
  - intros H. pose proof (format_06d_read i) as Hi. rewrite H, format_06d_read in Hi.
    by injection Hi.
  - intros Hij Hj. apply (compare_digits _ _ i j).
    + rewrite !format_06d_length; [done|lia|lia].
    + apply format_06d_read.
    + apply format_06d_read.
    + done.
Qed.

Lemma format_06d_order_witness :
  String.compare (format_06d 9) (format_06d 10) = Lt /\
  String.compare (format_06d 999998) (format_06d 999999) = Lt.
Proof.
  split.
  - apply (format_06d_order 9 10); lia.
  - apply (format_06d_order 999998 999999); lia.
Defined.

(** ** Snippets *)

Lemma snippetArg_fold show gs args :
  forall i acc,
    foldl (snippetArg show gs) (i, acc) args =
    let shown := filter (fun argSym => isBlock (arg_flags argSym) = false) args in
    ((i + N.of_nat (length shown))%N,
     acc ++ imap (fun k argSym => placeholder show gs (i + N.of_nat k) argSym) shown).
Proof.
  induction args as [|a args IH]; intros i acc; cbv zeta.
  - simpl. by rewrite N.add_0_r, app_nil_r.
  - change (foldl (snippetArg show gs) (i, acc) (a :: args))
      with (foldl (snippetArg show gs) (snippetArg show gs (i, acc) a) args).
    unfold snippetArg at 2. destruct (isBlock (arg_flags a)) eqn:Hb.
    + rewrite IH. cbv zeta. rewrite filter_cons_False by (rewrite Hb; done). done.
    + rewrite IH. cbv zeta. rewrite filter_cons_True by done.
      rewrite imap_cons, <- app_assoc, length_cons, Nnat.Nat2N.inj_succ.
      f_equal; [lia|]. f_equal. change ([?x] ++ ?l) with (x :: l). f_equal.
      * unfold placeholder. by rewrite N.add_0_r.
      * apply imap_ext. intros k x _. unfold compose. f_equal.
        rewrite Nnat.Nat2N.inj_succ. lia.
Qed.

(** X12: the snippet of a method is its short name, then between brackets
    one placeholder for each argument that is not a block, numbered from 1
    in the order of the arguments (a block takes no number) and separated by
    a comma and a space, then the final placeholder [${0}]; a symbol that
    is not a method gets the brackets empty. *)
Theorem methodSnippet_placeholders
    (show : GlobalState -> TypePtr -> string) (gs : GlobalState) (method : SymbolRef) :
  let shown := if isMethod (symbolData gs method)
               then filter (fun argSym => isBlock (arg_flags argSym) = false)
                           (arguments (symbolData gs method))
               else [] in
  methodSnippet show gs method =
  (shortName (nameData gs (name (symbolData gs method))) +:+ "(" +:+
   String.concat ", "
     (imap (fun k argSym => placeholder show gs (1 + N.of_nat k) argSym) shown) +:+
   ")" +:+ "${0}")%string.
Proof.
  cbv zeta. unfold methodSnippet, symbolShortName.
  destruct (isMethod (symbolData gs method)); [|done].
  by rewrite snippetArg_fold.
Qed.

(** ** Completion items *)

Lemma indexed_nil : indexed [].
Proof. by intros i item H. Qed.

Lemma indexed_snoc items item :
  indexed items ->
  sortText item = Some (format_06d (N.of_nat (length items))) ->
  indexed (items ++ [item]).
Proof.
  intros Hitems Hitem i x Hx. apply lookup_app_Some in Hx as [Hx|[Hi Hx]].
  - by apply Hitems.
  - destruct (i - length items)%nat as [|k] eqn:E; [|by destruct k].
    injection Hx as <-. replace i with (length items) by lia. done.
Qed.

Lemma rank_elements gs prefix (m : gmap N (list SimilarMethod)) ranked :
  inhabited m -> rank gs prefix m = Ok ranked ->
  forall c, c ∈ ranked -> exists n, listed m n c /\ isMangleRename gs n = false.
Proof.
  intros Hinh Hrank c Hc.
  destruct (rank_spec gs prefix m Hinh) as (chosen & _ & _ & Hdom & Hhead & Hrank').
  rewrite Hrank in Hrank'. injection Hrank' as ->.
  rewrite (fast_sort_Permutation (rankLess gs prefix) chosen.*2) in Hc.
  apply list_elem_of_fmap in Hc as ([n c'] & -> & Hin). exists n. split.
  - destruct (Hhead n c' Hin) as (cs & Hl & _ & Hcs & _). by exists cs.
  - apply Hdom. apply list_elem_of_fmap. by exists (n, c').
Qed.

Section Items.

Variable hasSimilarName : GlobalState -> NameRef -> string -> bool.
Variable show : GlobalState -> TypePtr -> string.
Variable methodDetail :
  GlobalState -> SymbolRef -> option TypePtr -> option TypeConstraint -> string.
Variable findDocumentation : GlobalState -> N -> N -> option string.
Variable untypedUntracked : TypePtr.
Variable membersStableOrderSlow : GlobalState -> SymbolRef -> list (NameRef * SymbolRef).
Variable root : SymbolRef.
Variables (config : Config) (gs : GlobalState).

Local Abbreviation getItem :=
  (getCompletionItem show methodDetail findDocumentation untypedUntracked config gs).
Local Abbreviation push :=
  (pushItem show methodDetail findDocumentation untypedUntracked config gs).

Lemma getCompletionItem_Ok_inv what rt k idx item :
  getItem what rt k idx = Ok item ->
  exists_ what = true /\
  label item = symbolShortName gs what /\
  sortText item = Some (format_06d idx) /\
  (isMethod (symbolData gs what) = true ->
     itemKind item = Some Method /\
     detail item = Some (methodDetail gs what rt k) /\
     insertTextFormat item
       = Some (if clientCompletionItemSnippetSupport config then Snippet else PlainText)).
Proof.
  unfold getCompletionItem. destruct (exists_ what); simpl; [|done].
  destruct (isMethod (symbolData gs what)).
  - destruct (clientCompletionItemSnippetSupport config); intros [= <-]; simpl; done.
  - destruct (isStaticField _); [|destruct (isClassOrModule _)];
      intros [= <-]; simpl; done.
Qed.

Lemma getCompletionItem_exists what rt k idx :
  exists_ what = true -> exists item, getItem what rt k idx = Ok item.
Proof.
  intros H. unfold getCompletionItem. rewrite H. simpl.
  destruct (isMethod _); [destruct (clientCompletionItemSnippetSupport config); eauto|].
  destruct (isStaticField _); [eauto|]. destruct (isClassOrModule _); eauto.
Qed.

Lemma foldl_push_stuck (r : Result (list CompletionItem)) cs :
  (forall items, r <> Ok items) -> foldl push r cs = r.
Proof.
  revert r. induction cs as [|c cs IH]; intros r Hr; simpl; [done|].
  destruct r as [items| |]; [by destruct (Hr items)|..]; simpl; by apply IH.
Qed.

Lemma foldl_push_Ok cs :
  forall acc out,
    foldl push (Ok acc) cs = Ok out ->
    exists new,
      out = acc ++ new /\
      Forall2 (fun c item =>
                 exists idx, getItem (method c) (receiverType c) (constr c) idx = Ok item)
              cs new /\
      (indexed acc -> indexed out).
Proof.
  induction cs as [|c cs IH]; intros acc out; simpl.
  - intros [= <-]. exists []. by rewrite app_nil_r.
  - destruct (getItem (method c) (receiverType c) (constr c) (N.of_nat (length acc)))
      as [item| |] eqn:E; simpl.
    + intros (new & -> & Hall & Hidx)%IH. exists (item :: new).
      split; [by rewrite <- app_assoc|]. split; [constructor; eauto|].
      intros Hacc. apply Hidx. apply indexed_snoc; [done|].
      by apply getCompletionItem_Ok_inv in E as (_ & _ & ? & _).
    + by rewrite foldl_push_stuck.
    + by rewrite foldl_push_stuck.
Qed.

(** X13: what a method-call completion answers: one item for each candidate
    of the ranked sequence, in its order; the item has the short name of the
    candidate's method as label, is of kind [Method], shows the detail of
    the method at the candidate's receiver type and constraint, and has its
    own position as sort key. *)
Theorem completionItems_send (fuel : nat) (callerSideName : NameRef)
    (d : DispatchResult) (items : list CompletionItem) :
  completionItems hasSimilarName show methodDetail findDocumentation untypedUntracked
    membersStableOrderSlow root fuel config gs (SendResponse callerSideName d) = Ok items ->
  exists m ranked,
    allSimilarMethods hasSimilarName fuel gs d (shortName (nameData gs callerSideName))
      = Ok m /\
    rank gs (shortName (nameData gs callerSideName)) m = Ok ranked /\
    Forall2 (fun c item =>
               label item = symbolShortName gs (method c) /\
               itemKind item = Some Method /\
               detail item = Some (methodDetail gs (method c) (receiverType c) (constr c)) /\
               insertTextFormat item
                 = Some (if clientCompletionItemSnippetSupport config
                         then Snippet else PlainText))
            ranked items /\
    indexed items.
Proof.
  unfold completionItems.
  intros (m & Hm & (ranked & Hrank & Hitems)%bind_Ok)%bind_Ok.
  exists m, ranked. split; [done|]. split; [done|].
  apply foldl_push_Ok in Hitems as (new & -> & Hall & Hidx). simpl.
  split; [|apply Hidx, indexed_nil].
  pose proof (rank_elements _ _ _ _ (inhabited_allSimilarMethods _ _ _ _ _ _ Hm) Hrank)
    as Hlisted.
  assert (Forall (fun c => isMethod (symbolData gs (method c)) = true) ranked) as Hmeth.
  { apply Forall_forall. intros c (n & Hc & _)%Hlisted.
    by destruct (listed_allSimilarMethods_origin _ _ _ _ _ _ _ _ Hm Hc) as (_ & ? & _). }
  clear -Hall Hmeth. induction Hall as [|c item cs new (idx & Hitem) _ IH]; [constructor|].
  apply Forall_cons in Hmeth as [Hc Hcs]. constructor; [|by apply IH].
  apply getCompletionItem_Ok_inv in Hitem as (_ & ? & _ & Hkind).
  destruct (Hkind Hc) as (? & ? & ?). done.
Qed.

Local Abbreviation ownerOf := (fun s : SymbolRef => owner (symbolData gs s)).

Lemma similarConstantMember_Ok receiverType pattern items member :
  exists new,
    similarConstantMember hasSimilarName show methodDetail findDocumentation
      untypedUntracked config gs receiverType pattern (Ok items) member
    = Ok (items ++ new) /\
    (indexed items -> indexed (items ++ new)).
Proof.
  unfold similarConstantMember. simpl. destruct (exists_ member.2) eqn:Hex; simpl.
  - destruct (_ && _).
    + destruct (getCompletionItem_exists member.2 (Some receiverType) None
                  (N.of_nat (length items)) Hex) as [item Hitem].
      rewrite Hitem. simpl. exists [item]. split; [done|]. intros Hidx.
      apply indexed_snoc; [done|].
      by apply getCompletionItem_Ok_inv in Hitem as (_ & _ & ? & _).
    + exists []. by rewrite app_nil_r.
  - exists []. by rewrite app_nil_r.
Qed.

Lemma foldl_similarConstantMember_Ok receiverType pattern members :
  forall items,
    exists new,
      foldl (similarConstantMember hasSimilarName show methodDetail findDocumentation
               untypedUntracked config gs receiverType pattern) (Ok items) members
      = Ok (items ++ new) /\
      (indexed items -> indexed (items ++ new)).
Proof.
  induction members as [|member members IH]; intros items; cbn [foldl].
  - exists []. by rewrite app_nil_r.
  - destruct (similarConstantMember_Ok receiverType pattern items member)
      as (new1 & -> & H1).
    destruct (IH (items ++ new1)) as (new2 & -> & H2).
    exists (new1 ++ new2). rewrite app_assoc. split; [done|]. auto.
Qed.

Lemma similarConstantOwners_outcome fuel receiverType pattern :
  forall owner' items,
    similarConstantOwners hasSimilarName show methodDetail findDocumentation
      untypedUntracked membersStableOrderSlow root fuel config gs receiverType pattern
      owner' items = OutOfFuel \/
    exists new,
      similarConstantOwners hasSimilarName show methodDetail findDocumentation
        untypedUntracked membersStableOrderSlow root fuel config gs receiverType pattern
        owner' items = Ok (items ++ new) /\
      (indexed items -> indexed (items ++ new)).
Proof.
  induction fuel as [|fuel IH]; intros owner' items; cbn [similarConstantOwners];
    [by left|].
  destruct (foldl_similarConstantMember_Ok receiverType pattern
              (membersStableOrderSlow gs (owner (symbolData gs owner'))) items)
    as (new1 & -> & H1). cbn [bind].
  destruct (_ =? _)%N.
  - right. by exists new1.
  - destruct (IH (owner (symbolData gs owner')) (items ++ new1)) as [->|(new2 & -> & H2)];
      [by left|].
    right. exists (new1 ++ new2). rewrite app_assoc. split; [done|]. auto.
Qed.

Lemma similarConstantOwners_returns fuel receiverType pattern :
  forall owner' items,
    (exists out,
       similarConstantOwners hasSimilarName show methodDetail findDocumentation
         untypedUntracked membersStableOrderSlow root fuel config gs receiverType pattern
         owner' items = Ok out) <->
    exists k, (k < fuel)%nat /\ Nat.iter (S k) ownerOf owner' = root.
Proof.
  induction fuel as [|fuel IH]; intros owner' items; cbn [similarConstantOwners].
  - split; [by intros [? ?]|]. intros (k & ? & _). lia.
  - destruct (foldl_similarConstantMember_Ok receiverType pattern
                (membersStableOrderSlow gs (owner (symbolData gs owner'))) items)
      as (new1 & -> & _). cbn [bind].
    destruct (N.eqb_spec (owner (symbolData gs owner')) root) as [E|E].
    + split; [|eauto]. intros _. exists 0%nat. split; [lia|done].
    + rewrite IH. split.
      * intros (k & Hk & Hroot). exists (S k). split; [lia|].
        rewrite Nat.iter_succ_r. exact Hroot.
      * intros ([|k] & Hk & Hroot); [done|]. exists k. split; [lia|].
        rewrite Nat.iter_succ_r in Hroot. exact Hroot.
Qed.

Local Abbreviation itemAt :=
  (fun (receiverType : TypePtr) (base j : nat) (sym : SymbolRef) =>
     getItem sym (Some receiverType) None (N.of_nat (base + j))).

Lemma fmap_Ok_inj {A} (l1 l2 : list A) :
  (Ok <$> l1 : list (Result A)) = Ok <$> l2 -> l1 = l2.
Proof.
  revert l2. induction l1 as [|x l1 IH]; intros [|y l2] H; try done.
  rewrite !fmap_cons in H. injection H as -> H. f_equal. by apply IH.
Qed.

Lemma fmap_Ok_app_inv {A} (new1 : list A) :
  forall new (rest : list (Result A)),
    Ok <$> new = (Ok <$> new1) ++ rest ->
    exists new2, new = new1 ++ new2 /\ Ok <$> new2 = rest.
Proof.
  induction new1 as [|x new1 IH]; intros new rest H.
  - by exists new.
  - destruct new as [|y new]; [done|].
    rewrite !fmap_cons in H. simpl in H. injection H as -> H.
    destruct (IH _ _ H) as (new2 & -> & <-). by exists new2.
Qed.

Lemma itemAt_length receiverType (items new1 : list CompletionItem) l1 :
  Ok <$> new1 = imap (itemAt receiverType (length items)) l1 ->
  length new1 = length l1.
Proof.
  intros H. by rewrite <- (length_fmap Ok new1), H, length_imap.
Qed.

Lemma itemAt_shift receiverType (items new1 : list CompletionItem)
    (l1 l2 : list SymbolRef) :
  length new1 = length l1 ->
  imap (fun n => itemAt receiverType (length items) (length l1 + n)%nat) l2
  = imap (itemAt receiverType (length (items ++ new1))) l2.
Proof.
  intros H. apply imap_ext. intros j sym _. cbv beta.
  by rewrite length_app, H, Nat.add_assoc.
Qed.

Lemma itemAt_app receiverType (items new1 new2 : list CompletionItem) l1 l2 :
  Ok <$> new1 = imap (itemAt receiverType (length items)) l1 ->
  Ok <$> new2 = imap (itemAt receiverType (length (items ++ new1))) l2 ->
  Ok <$> (new1 ++ new2) = imap (itemAt receiverType (length items)) (l1 ++ l2).
Proof.
  intros H1 H2. rewrite fmap_app, imap_app, H1, H2. f_equal.
  symmetry. exact (itemAt_shift _ _ _ _ _ (itemAt_length _ _ _ _ H1)).
Qed.

Lemma constantCandidates_cons pattern o owners :
  constantCandidates hasSimilarName membersStableOrderSlow gs pattern (o :: owners)
  = List.filter (isSimilarConstant hasSimilarName gs pattern) (membersStableOrderSlow gs o).*2
    ++ constantCandidates hasSimilarName membersStableOrderSlow gs pattern owners.
Proof. unfold constantCandidates. simpl. by rewrite List.filter_app. Qed.

Lemma constantCandidates_singleton pattern o :
  constantCandidates hasSimilarName membersStableOrderSlow gs pattern [o]
  = List.filter (isSimilarConstant hasSimilarName gs pattern) (membersStableOrderSlow gs o).*2.
Proof. unfold constantCandidates. simpl. by rewrite app_nil_r. Qed.

Lemma similarConstantMember_exact receiverType pattern items member :
  exists new,
    similarConstantMember hasSimilarName show methodDetail findDocumentation
      untypedUntracked config gs receiverType pattern (Ok items) member
    = Ok (items ++ new) /\
    Ok <$> new
    = imap (itemAt receiverType (length items))
        (List.filter (isSimilarConstant hasSimilarName gs pattern) [member.2]).
Proof.
  unfold similarConstantMember, isSimilarConstant. cbn [bind List.filter].
  destruct (_ && _) eqn:E.
  - assert (exists_ member.2 = true) as Hex.
    { by apply andb_prop in E as [[[? _]%andb_prop _]%andb_prop _]. }
    destruct (getCompletionItem_exists member.2 (Some receiverType) None
                (N.of_nat (length items)) Hex) as [item Hitem].
    rewrite Hitem. cbn [bind]. exists [item]. split; [done|].
    simpl. by rewrite Nat.add_0_r, Hitem.
  - exists []. by rewrite app_nil_r.
Qed.

Lemma foldl_similarConstantMember_exact receiverType pattern members :
  forall items,
    exists new,
      foldl (similarConstantMember hasSimilarName show methodDetail findDocumentation
               untypedUntracked config gs receiverType pattern) (Ok items) members
      = Ok (items ++ new) /\
      Ok <$> new
      = imap (itemAt receiverType (length items))
          (List.filter (isSimilarConstant hasSimilarName gs pattern) members.*2).
Proof.
  induction members as [|member members IH]; intros items; cbn [foldl].
  - exists []. by rewrite app_nil_r.
  - destruct (similarConstantMember_exact receiverType pattern items member)
      as (new1 & -> & H1).
    destruct (IH (items ++ new1)) as (new2 & -> & H2).
    exists (new1 ++ new2). rewrite app_assoc. split; [done|].
    rewrite fmap_cons.
    change (member.2 :: members.*2) with ([member.2] ++ members.*2).
    rewrite List.filter_app. by apply itemAt_app.
Qed.

(** The walk over the owners answers exactly when the root is met within the
    fuel, and then with the items of the candidates of the owners up to the
    first root, the root included. *)
Lemma similarConstantOwners_exact fuel receiverType pattern :
  forall owner' items out,
    similarConstantOwners hasSimilarName show methodDetail findDocumentation
      untypedUntracked membersStableOrderSlow root fuel config gs receiverType pattern
      owner' items = Ok out <->
    exists k front new,
      (k < fuel)%nat /\
      ownersAbove gs k owner' = front ++ [root] /\ (root ∉ front) /\
      out = items ++ new /\
      Ok <$> new
      = imap (itemAt receiverType (length items))
          (constantCandidates hasSimilarName membersStableOrderSlow gs pattern
             (front ++ [root])).
Proof.
  induction fuel as [|fuel IH]; intros owner' items out; cbn [similarConstantOwners].
  - split; [done|]. intros (k & _ & _ & ? & _). lia.
  - destruct (foldl_similarConstantMember_exact receiverType pattern
                (membersStableOrderSlow gs (owner (symbolData gs owner'))) items)
      as (new1 & -> & H1). cbn [bind].
    destruct (N.eqb_spec (owner (symbolData gs owner')) root) as [E|E].
    + rewrite E in H1. split.
      * intros [= <-]. exists 0%nat, [], new1. split; [lia|].
        split; [simpl; by rewrite E|]. split; [apply not_elem_of_nil|].
        split; [done|]. simpl app. by rewrite constantCandidates_singleton.
      * intros (k & front & new & _ & Hown & Hfront & -> & Hnew).
        assert (front = []) as ->.
        { destruct front as [|o front]; [done|]. destruct Hfront.
          destruct k; simpl in Hown; injection Hown as Ho _;
            rewrite <- Ho, E; apply elem_of_cons; by left. }
        simpl app in Hnew. rewrite constantCandidates_singleton in Hnew.
        f_equal. f_equal. apply fmap_Ok_inj. by rewrite H1, Hnew.
    + rewrite IH. split.
      * intros (k & front & new2 & Hk & Hown & Hfront & -> & H2).
        exists (S k), (owner (symbolData gs owner') :: front), (new1 ++ new2).
        split; [lia|]. split; [cbn [ownersAbove]; by rewrite Hown|].
        split. { apply not_elem_of_cons. split; [by intros ->|done]. }
        split; [by rewrite app_assoc|].
        rewrite <- app_comm_cons, constantCandidates_cons. by apply itemAt_app.
      * intros (k & front & new & Hk & Hown & Hfront & -> & Hnew).
        destruct front as [|o front].
        { destruct k; simpl in Hown; [injection Hown as Ho|injection Hown as Ho _];
            by destruct E. }
        destruct k as [|k]; cbn [ownersAbove] in Hown.
        { destruct front; simplify_eq/=. }
        rewrite <- app_comm_cons in Hown, Hnew. injection Hown as <- Hown.
        apply not_elem_of_cons in Hfront as [_ Hfront].
        rewrite constantCandidates_cons, imap_app, <- H1 in Hnew.
        apply fmap_Ok_app_inv in Hnew as (new2 & -> & Hnew).
        exists k, front, new2. split; [lia|]. split; [done|]. split; [done|].
        split; [by rewrite app_assoc|].
        rewrite Hnew. exact (itemAt_shift _ _ _ _ _ (itemAt_length _ _ _ _ H1)).
Qed.

(** X14: constant completion on a class never faults and answers exactly
    when the walk from the class to its owner, to the owner of that owner
    and so on meets the root scope within the fuel.  It then keeps the items
    it was given and appends, for the owners up to the first root, the root
    included and nearest owner first, one item for each member of the owner in
    stable order that exists, is a class, a module or a static field, has a
    constant name and a name similar to the short name of the class: the
    item built for that member at the receiver type, without constraint, with
    the number of items before it as index.  Every appended item has its
    position as sort key, whatever the items given.  On a receiver that is
    not a plain class it adds nothing. *)
Theorem findSimilarConstantOrIdent_walk (fuel : nat) (t : TypePtr)
    (items : list CompletionItem) :
  (forall f,
     findSimilarConstantOrIdent hasSimilarName show methodDetail findDocumentation
       untypedUntracked membersStableOrderSlow root fuel config gs t items <> Raise f) /\
  (forall symbol out,
     t = ClassType symbol ->
     (findSimilarConstantOrIdent hasSimilarName show methodDetail findDocumentation
        untypedUntracked membersStableOrderSlow root fuel config gs t items = Ok out <->
      exists k front new,
        (k < fuel)%nat /\
        ownersAbove gs k symbol = front ++ [root] /\ (root ∉ front) /\
        out = items ++ new /\
        Ok <$> new
        = imap (fun j sym =>
                  getCompletionItem show methodDetail findDocumentation untypedUntracked
                    config gs sym (Some t) None (N.of_nat (length items + j)))
            (constantCandidates hasSimilarName membersStableOrderSlow gs
               (symbolShortName gs symbol) (front ++ [root])))) /\
  (forall out,
     findSimilarConstantOrIdent hasSimilarName show methodDetail findDocumentation
       untypedUntracked membersStableOrderSlow root fuel config gs t items = Ok out ->
     items `prefix_of` out /\
     (forall i item,
        (length items <= i)%nat -> out !! i = Some item ->
        sortText item = Some (format_06d (N.of_nat i))) /\
     (indexed items -> indexed out)) /\
  (forall symbol,
     t = ClassType symbol ->
     ((exists out,
         findSimilarConstantOrIdent hasSimilarName show methodDetail findDocumentation
           untypedUntracked membersStableOrderSlow root fuel config gs t items = Ok out)
      <-> exists k, (k < fuel)%nat /\ Nat.iter (S k) ownerOf symbol = root)) /\
  ((forall symbol, t <> ClassType symbol) ->
     findSimilarConstantOrIdent hasSimilarName show methodDetail findDocumentation
       untypedUntracked membersStableOrderSlow root fuel config gs t items = Ok items).
Proof.
  split; [|split; [|split; [|split]]].
  - intros f. destruct t; simpl; try done.
    by destruct (similarConstantOwners_outcome fuel (ClassType symbol)
                   (symbolShortName gs symbol) symbol items) as [->|(new & -> & _)].
  - intros symbol out ->. simpl. apply similarConstantOwners_exact.
  - intros out. destruct t; simpl;
      try (intros [= <-]; split; [done|]; split; [|done];
           intros i item Hi Hitem; apply lookup_lt_Some in Hitem; lia).
    intros Hout. split; [|split].
    + destruct (similarConstantOwners_outcome fuel (ClassType symbol)
                  (symbolShortName gs symbol) symbol items) as [E|(new & E & _)];
        rewrite E in Hout; [done|]. injection Hout as <-. by exists new.
    + apply similarConstantOwners_exact in Hout
        as (k & front & new & _ & _ & _ & -> & Hnew).
      intros i item Hi Hitem. rewrite lookup_app_r in Hitem by done.
      assert ((Ok <$> new : list (Result CompletionItem)) !! (i - length items)%nat
              = Some (Ok item)) as Hok by (by rewrite list_lookup_fmap, Hitem).
      rewrite Hnew in Hok. apply list_lookup_imap_Some in Hok as (sym & _ & Hsym).
      symmetry in Hsym. apply getCompletionItem_Ok_inv in Hsym as (_ & _ & -> & _).
      do 3 f_equal. lia.
    + destruct (similarConstantOwners_outcome fuel (ClassType symbol)
                  (symbolShortName gs symbol) symbol items) as [E|(new & E & Hidx)];
        rewrite E in Hout; [done|]. by injection Hout as <-.
  - intros symbol ->. simpl. apply similarConstantOwners_returns.
  - intros Hno. destruct t; try done. by destruct (Hno symbol).
Qed.

Lemma completionItems_indexed fuel resp items :
  completionItems hasSimilarName show methodDetail findDocumentation untypedUntracked
    membersStableOrderSlow root fuel config gs resp = Ok items ->
  indexed items.
Proof.
  assert (forall t,
            findSimilarConstantOrIdent hasSimilarName show methodDetail findDocumentation
              untypedUntracked membersStableOrderSlow root fuel config gs t [] = Ok items ->
            indexed items) as Hconst.
  { intros t. destruct t; simpl; try (intros [= <-]; apply indexed_nil).
    destruct (similarConstantOwners_outcome fuel (ClassType symbol)
                (symbolShortName gs symbol) symbol []) as [->|(new & -> & Hidx)]; [done|].
    intros [= <-]. apply Hidx, indexed_nil. }
  destruct resp as [callerSideName d|t|t|]; simpl.
  - intros (m & _ & (ranked & _ & Hitems)%bind_Ok)%bind_Ok.
    apply foldl_push_Ok in Hitems as (new & -> & _ & Hidx). apply Hidx, indexed_nil.
  - apply Hconst.
  - apply Hconst.
  - intros [= <-]. apply indexed_nil.
Qed.

End Items.

Lemma completionItems_send_witness :
  exists items,
    completionItems Fixture.similar (fun _ _ => ""%string) (fun _ _ _ _ => ""%string)
      (fun _ _ _ => None) OpaqueType (fun _ _ => []) 1%N 3 (mkConfig true true Plaintext)
      Fixture.gs
      (SendResponse 200%N
         (mkDispatchResult (mkDispatchComponent (ClassType Fixture.B) None) None OR))
    = Ok items /\
    label <$> items = ["foo_baz"; "foo_bar"]%string /\
    indexed items.
Proof.
  eexists. split; [vm_compute; reflexivity|]. split; [reflexivity|].
  destruct (completionItems_send Fixture.similar (fun _ _ => ""%string)
              (fun _ _ _ _ => ""%string) (fun _ _ _ => None) OpaqueType (fun _ _ => []) 1%N
              (mkConfig true true Plaintext) Fixture.gs 3 200%N
              (mkDispatchResult (mkDispatchComponent (ClassType Fixture.B) None) None OR)
              _ ltac:(vm_compute; reflexivity)) as (_ & _ & _ & _ & _ & H).
  exact H.
Defined.

Lemma findSimilarConstantOrIdent_walk_witness :
  findSimilarConstantOrIdent Fixture.similar (fun _ _ => ""%string)
    (fun _ _ _ _ => ""%string) (fun _ _ _ => None) OpaqueType
    (fun _ _ => [(0%N, 1%N); (0%N, 10%N)]) 0%N 1 (mkConfig true true Plaintext) Fixture.gs
    (ClassType Fixture.B) []
  = Ok [mkCompletionItem "K" (Some "000000"%string) (Some Class) None None None None None].
Proof.
  destruct (findSimilarConstantOrIdent_walk Fixture.similar (fun _ _ => ""%string)
              (fun _ _ _ _ => ""%string) (fun _ _ _ => None) OpaqueType
              (fun _ _ => [(0%N, 1%N); (0%N, 10%N)]) 0%N (mkConfig true true Plaintext)
              Fixture.gs 1 (ClassType Fixture.B) []) as (_ & Hexact & _).
  apply (Hexact Fixture.B _ eq_refl).
  exists 0%nat, [],
    [mkCompletionItem "K" (Some "000000"%string) (Some Class) None None None None None].
  split; [lia|]. split; [reflexivity|]. split; [apply not_elem_of_nil|].
  split; [reflexivity|]. vm_compute. reflexivity.
Defined.

(** ** Responses *)

(** X15: whatever the handler answers, the response names the request it
    answers and carries either a result or an error, never both and never
    neither; a result is a complete list whose items have their positions as
    sort keys.  With the feature on, the counter of processed completion
    messages moves exactly once, the state is the one the query hands back
    and the error is the one the query reports, if any; with the feature off
    neither the counters nor the state change. *)
Theorem handleTextDocumentCompletion_response
    (hasSimilarName : GlobalState -> NameRef -> string -> bool)
    (show : GlobalState -> TypePtr -> string)
    (methodDetail : GlobalState -> SymbolRef -> option TypePtr -> option TypeConstraint -> string)
    (findDocumentation : GlobalState -> N -> N -> option string)
    (untypedUntracked : TypePtr)
    (membersStableOrderSlow : GlobalState -> SymbolRef -> list (NameRef * SymbolRef))
    (root : SymbolRef)
    (setupLSPQueryByLoc : GlobalState -> string -> N * N -> LSPMethod -> LSPQueryResult)
    (fuel : nat) (config : Config) (counters counters' : list (string * string))
    (gs gs' : GlobalState) (msgId : Z + string) (params : CompletionParams)
    (response : ResponseMessage) :
  handleTextDocumentCompletion hasSimilarName show methodDetail findDocumentation
    untypedUntracked membersStableOrderSlow root setupLSPQueryByLoc
    fuel config counters gs msgId params = Ok ((gs', response), counters') ->
  jsonrpc response = "2.0"%string /\
  id response = msgId /\
  requestMethod response = TextDocumentCompletion /\
  match result response, error response with
  | Some l, None => isIncomplete l = false /\ indexed (items l)
  | None, Some _ => True
  | _, _ => False
  end /\
  if lspAutocompleteEnabled config
  then counters' = counters ++ [("lsp.messages.processed", "textDocument.completion")]%string /\
       gs' = qr_gs (setupLSPQueryByLoc gs (uri params) (position params)
                      TextDocumentCompletion) /\
       error response = qr_error (setupLSPQueryByLoc gs (uri params) (position params)
                                    TextDocumentCompletion)
  else counters' = counters /\ gs' = gs.
Proof.
  unfold handleTextDocumentCompletion.
  destruct (lspAutocompleteEnabled config); simpl.
  - destruct (qr_error _) as [e|] eqn:He.
    + intros [= <- <- <-]. done.
    + intros (its & Hits & [= <- <- <-])%bind_Ok. simpl.
      repeat split. destruct (qr_responses _) as [|resp rest].
      * injection Hits as <-. apply indexed_nil.
      * by apply completionItems_indexed in Hits.
  - intros [= <- <- <-]. done.
Qed.

Lemma handleTextDocumentCompletion_response_witness :
  exists gs' response counters',
    handleTextDocumentCompletion Fixture.similar (fun _ _ => ""%string)
      (fun _ _ _ _ => ""%string) (fun _ _ _ => None) OpaqueType (fun _ _ => []) 1%N
      (fun gs _ _ _ =>
         mkLSPQueryResult gs
           [SendResponse 200%N
              (mkDispatchResult (mkDispatchComponent (ClassType Fixture.B) None) None OR)]
           None)
      3 (mkConfig true true Plaintext) [] Fixture.gs (inl 1) (mkCompletionParams "f.rb" (0, 0)%N)
    = Ok ((gs', response), counters') /\
    id response = inl 1 /\
    counters' = [("lsp.messages.processed", "textDocument.completion")]%string.
Proof.
  destruct (handleTextDocumentCompletion Fixture.similar (fun _ _ => ""%string)
      (fun _ _ _ _ => ""%string) (fun _ _ _ => None) OpaqueType (fun _ _ => []) 1%N
      (fun gs _ _ _ =>
         mkLSPQueryResult gs
           [SendResponse 200%N
              (mkDispatchResult (mkDispatchComponent (ClassType Fixture.B) None) None OR)]
           None)
      3 (mkConfig true true Plaintext) [] Fixture.gs (inl 1) (mkCompletionParams "f.rb" (0, 0)%N))
    as [[[gs' response] counters']| |] eqn:H; [|vm_compute in H; discriminate..].
  exists gs', response, counters'. split; [done|].
  apply handleTextDocumentCompletion_response in H as (_ & Hid & _ & _ & Hc & _).
  done.
Defined.

(** X16: a dispatch chain has a result exactly when the receiver of every
    component has one, that is when every class those receivers consult has
    a superclass chain that ends within the fuel with all linearizations
    computed; nothing else can make it fail. *)
Theorem allSimilarMethods_returns
    (hasSimilarName : GlobalState -> NameRef -> string -> bool)
    (fuel : nat) (gs : GlobalState) (d : DispatchResult) (prefix : string) :
  (exists m, allSimilarMethods hasSimilarName fuel gs d prefix = Ok m) <->
  forall component, component ∈ components d ->
    Forall (fun s => exists k, (k < fuel)%nat /\ finalized gs s k)
           (consulted (dc_receiver component)).
Proof.
  induction d as [main kind|main rest kind IH] using DispatchResult_chain_ind.
  - rewrite allSimilarMethods_main. simpl. split.
    + intros (m & (fresh & Hfresh & _)%bind_Ok) component ->%list_elem_of_singleton.
      apply (similarMethodsForReceiver_Ok_iff hasSimilarName fuel gs _ prefix). eauto.
    + intros H.
      destruct (proj2 (similarMethodsForReceiver_Ok_iff hasSimilarName fuel gs
                         (dc_receiver main) prefix)) as [fresh ->].
      * apply H. by apply list_elem_of_singleton.
      * simpl. eauto.
  - rewrite allSimilarMethods_link, allSimilarMethods_main. simpl. split.
    + intros (m & (result & (fresh & Hfresh & _)%bind_Ok & (others & Hoth & _)%bind_Ok)%bind_Ok)
        component [->|Hc]%elem_of_cons.
      * apply (similarMethodsForReceiver_Ok_iff hasSimilarName fuel gs _ prefix). eauto.
      * apply IH; eauto.
    + intros H.
      destruct (proj2 (similarMethodsForReceiver_Ok_iff hasSimilarName fuel gs
                         (dc_receiver main) prefix)) as [fresh ->].
      * apply H. apply elem_of_cons. by left.
      * destruct (proj2 IH) as [others ->].
        -- intros component Hc. apply H. apply elem_of_cons. by right.
        -- simpl. eauto.
Qed.

(** * The enum pass *)

Module OpusEnumFacts.

Import OpusEnum.

Section Pass.

Context {E L S : Type} `{!Ast E L S}.

Lemma enumValue_shape (st : S) (klass : ClassDef E L) (stat : E) (asgn : Assign E)
    (lhs' : UnresolvedConstantLit E L) :
  exists name' value,
    enumValue st klass stat asgn lhs' =
    ((enterNameConstant (freshNameUnique_OpusEnum st (cnst lhs') 1).1
        (freshNameUnique_OpusEnum st (cnst lhs') 1).2).1,
     [ MK_Class (exprLoc stat) (exprLoc stat)
         (deepCopy (MK_UnresolvedConstant (ucl_loc lhs') MK_EmptyTree name'))
         [deepCopy (name klass)]
         [ MK_Assign (exprLoc stat)
             (MK_UnresolvedConstant (exprLoc stat) MK_EmptyTree Names_Constants_Elem)
             (MK_Send1 (exprLoc stat) (MK_Self (exprLoc stat)) Names_typeTemplate
                (MK_Hash1 (exprLoc stat) (MK_Symbol (exprLoc stat) Names_fixed)
                   (deepCopy (name klass))));
           MK_Send1 (exprLoc stat) (MK_Self (exprLoc stat)) Names_include
             (MK_Constant (exprLoc stat) Symbols_Singleton);
           MK_Send0 (exprLoc stat) (MK_Self (exprLoc stat)) Names_declareFinal ]
         Class;
       MK_Assign (exprLoc stat) (lhs asgn) value ]) /\
    name' = (enterNameConstant (freshNameUnique_OpusEnum st (cnst lhs') 1).1
               (freshNameUnique_OpusEnum st (cnst lhs') 1).2).2.
Proof.
  unfold enumValue. destruct (freshNameUnique_OpusEnum st (cnst lhs') 1) as [st1 fresh].
  simpl. destruct (enterNameConstant st1 fresh) as [st2 name']. simpl. eauto.
Qed.

Lemma processStat_cases (st : S) (klass : ClassDef E L) (stat : E) :
  processStat st klass stat = (st, []) \/
  exists asgn lhs' rhs',
    cast_Assign stat = Some asgn /\
    cast_UnresolvedConstantLit (lhs asgn) = Some lhs' /\
    cast_Send (asgn_rhs asgn) = Some rhs' /\
    ((fun_ rhs' =? Names_new)%N || (fun_ rhs' =? Names_let)%N) = true /\
    processStat st klass stat = enumValue st klass stat asgn lhs'.
Proof.
  unfold processStat.
  destruct (cast_Assign stat) as [asgn|] eqn:Ha; [|by left].
  destruct (cast_UnresolvedConstantLit (lhs asgn)) as [lhs'|] eqn:Hl; [|by left].
  destruct (cast_Send (asgn_rhs asgn)) as [rhs'|] eqn:Hr; [|by left].
  destruct (fun_ rhs' =? Names_new)%N eqn:Hnew, (fun_ rhs' =? Names_let)%N eqn:Hlet;
    simpl; try (by left);
    repeat (case_match; try (by left));
    right; exists asgn, lhs', rhs'; rewrite ?Hnew, ?Hlet; done.
Qed.

Lemma isEnumValue_enumValue st klass stat asgn lhs' :
  (enumValue st klass stat asgn lhs').2 <> [].
Proof. destruct (enumValue_shape st klass stat asgn lhs') as (? & ? & -> & _). done. Qed.

(** Whether a statement is an enum value depends on the statement alone. *)
Lemma isEnumValue_independent (st st' : S) (klass klass' : ClassDef E L) (stat : E) :
  isEnumValue st klass stat = isEnumValue st' klass' stat.
Proof.
  pose proof (isEnumValue_enumValue st klass stat) as H1.
  pose proof (isEnumValue_enumValue st' klass' stat) as H2.
  unfold isEnumValue, processStat.
  set (f1 := enumValue st klass stat) in *. set (f2 := enumValue st' klass' stat) in *.
  clearbody f1 f2.
  repeat (case_match; simpl; try done);
    exfalso; first [by eapply H1|by eapply H2].
Qed.

(** X17: a statement is either left alone, and then no name is made, or it
    is an assignment to a constant and is replaced by exactly two
    statements: a class for the value, with the enum class as its only
    parent and a body of three statements, and an assignment to the same
    constant; one unique name is made for it, from the name of the constant
    with the number 1, and entered as a constant. *)
Theorem processStat_outcome (st : S) (klass : ClassDef E L) (stat : E) :
  processStat st klass stat = (st, []) \/
  exists asgn lhs' parentBody name' value,
    cast_Assign stat = Some asgn /\
    cast_UnresolvedConstantLit (lhs asgn) = Some lhs' /\
    length parentBody = 3%nat /\
    name' = (enterNameConstant (freshNameUnique_OpusEnum st (cnst lhs') 1).1
               (freshNameUnique_OpusEnum st (cnst lhs') 1).2).2 /\
    processStat st klass stat =
    ((enterNameConstant (freshNameUnique_OpusEnum st (cnst lhs') 1).1
        (freshNameUnique_OpusEnum st (cnst lhs') 1).2).1,
     [ MK_Class (exprLoc stat) (exprLoc stat)
         (deepCopy (MK_UnresolvedConstant (ucl_loc lhs') MK_EmptyTree name'))
         [deepCopy (name klass)] parentBody Class;
       MK_Assign (exprLoc stat) (lhs asgn) value ]).
Proof.
  destruct (processStat_cases st klass stat)
    as [H|(asgn & lhs' & rhs' & Ha & Hl & _ & _ & ->)]; [by left|].
  right. destruct (enumValue_shape st klass stat asgn lhs') as (name' & value & -> & Hname).
  exists asgn, lhs'. eexists _, name', value. repeat split; done.
Qed.

Lemma foldl_patchStat (st0 : S) (klass : ClassDef E L) (stats : list E) :
  forall st acc,
    exists body,
      (foldl (patchStat klass) (st, acc) stats).2 = acc ++ body /\
      length body
        = (length stats
           + length (filter (fun stat => isEnumValue st0 klass stat = true) stats))%nat /\
      filter (fun stat => isEnumValue st0 klass stat = false) stats `sublist_of` body.
Proof.
  induction stats as [|stat stats IH]; intros st acc; cbn [foldl].
  - exists []. by rewrite app_nil_r.
  - unfold patchStat at 2.
    destruct (processStat st klass stat) as [st1 newStats] eqn:Hp.
    assert (isEnumValue st0 klass stat = match newStats with [] => false | _ => true end)
      as Hstat.
    { rewrite (isEnumValue_independent st0 st klass klass). unfold isEnumValue.
      by rewrite Hp. }
    destruct newStats as [|s1 rest].
    + destruct (IH st1 (acc ++ [stat])) as (body & -> & Hlen & Hsub).
      exists (stat :: body). rewrite <- app_assoc. split; [done|].
      rewrite filter_cons_False by (rewrite Hstat; done).
      rewrite filter_cons_True by done. simpl. split; [by rewrite Hlen|].
      by apply sublist_skip.
    + destruct (processStat_cases st klass stat)
        as [H|(asgn & lhs' & _ & _ & _ & _ & _ & Henum)]; [rewrite Hp in H; by injection H|].
      destruct (enumValue_shape st klass stat asgn lhs') as (name' & value & Hshape & _).
      rewrite Hp, Hshape in Henum. injection Henum as _ -> ->.
      match goal with
      | |- context [foldl _ (st1, acc ++ ?new) stats] =>
          destruct (IH st1 (acc ++ new)) as (body & -> & Hlen & Hsub);
          exists (new ++ body)
      end.
      rewrite <- app_assoc. split; [done|].
      rewrite filter_cons_True by (rewrite Hstat; done).
      rewrite filter_cons_False by (rewrite Hstat; done). simpl. split.
      * rewrite Hlen. lia.
      * by apply sublist_cons, sublist_cons.
Qed.

(** X19: a class definition is taken for an enum exactly when it is a class,
    not a module, and the first of its ancestors is written [Opus::Enum],
    with nothing in front or with the root scope in front; the other
    ancestors, the name and the body play no part. *)
Theorem isOpusEnum_iff (klass : ClassDef E L) :
  isOpusEnum klass = true <->
  kind klass = Class /\
  exists front others enum opus,
    ancestors klass = front :: others /\
    cast_UnresolvedConstantLit front = Some enum /\
    cnst enum = Names_Constants_Enum /\
    cast_UnresolvedConstantLit (scope enum) = Some opus /\
    cnst opus = Names_Constants_Opus /\
    (isa_EmptyTree (scope opus) = true \/
     cast_ConstantLit (scope opus) = Some Symbols_root).
Proof.
  unfold isOpusEnum. split.
  - destruct (kind klass); [done|]. destruct (ancestors klass) as [|front others]; [done|].
    destruct (cast_UnresolvedConstantLit front) as [enum|] eqn:Hf; [|done].
    destruct (N.eqb_spec (cnst enum) Names_Constants_Enum) as [He|]; [|done]. simpl.
    destruct (cast_UnresolvedConstantLit (scope enum)) as [opus|] eqn:Hs; [|done].
    destruct (N.eqb_spec (cnst opus) Names_Constants_Opus) as [Ho|]; [|done]. simpl.
    intros H. split; [done|]. exists front, others, enum, opus.
    repeat (split; [done|]).
    destruct (isa_EmptyTree (scope opus)); [by left|]. right.
    destruct (cast_ConstantLit (scope opus)) as [symbol|]; [|done].
    by apply N.eqb_eq in H as ->.
  - intros (-> & front & others & enum & opus & -> & -> & -> & -> & -> & H).
    rewrite !N.eqb_refl. simpl. destruct H as [->| ->]; [done|].
    rewrite N.eqb_refl. by destruct (isa_EmptyTree (scope opus)).
Qed.

(** What is recognised as an enum value is what looks like one, and only
    such a statement is replaced or moves the state. *)
Lemma processStat_looksLikeEnumValue (st : S) (klass : ClassDef E L) (stat : E) :
  if looksLikeEnumValue stat
  then exists asgn lhs',
         cast_Assign stat = Some asgn /\
         cast_UnresolvedConstantLit (lhs asgn) = Some lhs' /\
         processStat st klass stat = enumValue st klass stat asgn lhs'
  else processStat st klass stat = (st, []).
Proof.
  unfold processStat, looksLikeEnumValue.
  destruct (cast_Assign stat) as [asgn|] eqn:Ha; [|done].
  destruct (cast_UnresolvedConstantLit (lhs asgn)) as [lhs'|] eqn:Hl; [|done].
  destruct (cast_Send (asgn_rhs asgn)) as [rhs'|]; [|done].
  remember (enumValue st klass stat asgn lhs') as f eqn:Hf. cbv zeta.
  destruct (fun_ rhs' =? Names_new)%N, (fun_ rhs' =? Names_let)%N,
    (isSelfReference (recv rhs')); cbn [negb andb orb]; try done;
    try (by exists asgn, lhs');
    (destruct (cast_UnresolvedConstantLit (recv rhs')); [|done]);
    (destruct (args rhs') as [|arg0' [|arg1' [|arg2' rest]]]; try done);
    simpl; (destruct (cast_Send arg0') as [arg0|]; [|done]);
    (destruct (_ && _); simpl; [by exists asgn, lhs'|done]).
Qed.

Lemma isEnumValue_looksLikeEnumValue (st : S) (klass : ClassDef E L) (stat : E) :
  isEnumValue st klass stat = looksLikeEnumValue stat.
Proof.
  pose proof (processStat_looksLikeEnumValue st klass stat) as H. unfold isEnumValue.
  destruct (looksLikeEnumValue stat).
  - destruct H as (asgn & lhs' & _ & _ & ->).
    by destruct (enumValue_shape st klass stat asgn lhs') as (? & ? & -> & _).
  - by rewrite H.
Qed.

Lemma foldl_patchStat_expandBody (klass : ClassDef E L) (stats : list E) :
  forall st acc,
    foldl (patchStat klass) (st, acc) stats
    = ((expandBody st klass stats).1, acc ++ (expandBody st klass stats).2).
Proof.
  induction stats as [|stat stats IH]; intros st acc; cbn [foldl expandBody].
  - by rewrite app_nil_r.
  - unfold patchStat at 2.
    pose proof (processStat_looksLikeEnumValue st klass stat) as H.
    destruct (looksLikeEnumValue stat).
    + destruct H as (asgn & lhs' & _ & _ & ->).
      destruct (enumValue_shape st klass stat asgn lhs') as (name' & value & -> & _).
      rewrite IH. destruct (expandBody _ klass stats) as [st2 body]. simpl.
      by rewrite <- app_assoc.
    + rewrite H, IH. destruct (expandBody st klass stats) as [st2 body]. simpl.
      by rewrite <- app_assoc.
Qed.

(** X18: the pass leaves a class alone, and the state with it, when autogen
    runs or when the class is not an [Opus::Enum] class.  Otherwise it keeps
    the name, the parents, the kind and the locations of the class and makes
    its body anew: first the three statements that extend [T::Helpers] and
    declare the class abstract and sealed, then the old body in its order,
    in which every statement that looks like an enum value stands replaced by
    the two statements made for it, the class of the value and then the
    assignment, at the state left by the statements before it, and every
    other statement is kept as it is and leaves the state alone.  A statement
    looks like an enum value when it assigns to a constant a call of [new] on
    self, or a call of [let] on a constant with two arguments of which the
    first is a call of [new] on self.  The class is still recognised as an
    enum class afterwards. *)
Theorem patchDSL_shape (st : S) (klass : ClassDef E L) :
  (runningUnderAutogen st = true \/ isOpusEnum klass = false ->
     patchDSL st klass = (st, klass)) /\
  (forall st stat,
     looksLikeEnumValue stat = false -> processStat st klass stat = (st, [])) /\
  (forall st stat,
     looksLikeEnumValue stat = true ->
     exists asgn lhs' classDef singletonAsgn,
       cast_Assign stat = Some asgn /\
       cast_UnresolvedConstantLit (lhs asgn) = Some lhs' /\
       processStat st klass stat = enumValue st klass stat asgn lhs' /\
       (processStat st klass stat).2 = [classDef; singletonAsgn]) /\
  (forall st stat, isEnumValue st klass stat = looksLikeEnumValue stat) /\
  (runningUnderAutogen st = false -> isOpusEnum klass = true ->
     exists st' body,
       expandBody st klass (rhs klass) = (st', body) /\
       patchDSL st klass =
         (st',
          mkClassDef (loc klass) (declLoc klass) (kind klass) (name klass) (ancestors klass)
            ([ MK_Send1 (declLoc klass) (MK_Self (declLoc klass)) Names_extend
                 (MK_Constant (declLoc klass) Symbols_T_Helpers);
               MK_Send0 (declLoc klass) (MK_Self (declLoc klass)) Names_declareAbstract;
               MK_Send0 (declLoc klass) (MK_Self (declLoc klass)) Names_declareSealed ]
             ++ body)) /\
       length body
         = (length (rhs klass)
            + length (filter (fun stat => isEnumValue st klass stat = true) (rhs klass)))%nat /\
       filter (fun stat => isEnumValue st klass stat = false) (rhs klass)
         `sublist_of` body /\
       loc (patchDSL st klass).2 = loc klass /\
       declLoc (patchDSL st klass).2 = declLoc klass /\
       kind (patchDSL st klass).2 = kind klass /\
       name (patchDSL st klass).2 = name klass /\
       ancestors (patchDSL st klass).2 = ancestors klass /\
       isOpusEnum (patchDSL st klass).2 = true).
Proof.
  split; [|split; [|split; [|split]]].
  - unfold patchDSL. intros [->| ->]; [done|]. simpl. by destruct (runningUnderAutogen st).
  - intros st1 stat Hl. pose proof (processStat_looksLikeEnumValue st1 klass stat) as H.
    by rewrite Hl in H.
  - intros st1 stat Hl. pose proof (processStat_looksLikeEnumValue st1 klass stat) as H.
    rewrite Hl in H. destruct H as (asgn & lhs' & Ha & Hlhs & Hp).
    destruct (enumValue_shape st1 klass stat asgn lhs') as (name' & value & Hshape & _).
    exists asgn, lhs'. eexists _, _. repeat (split; [done|]). by rewrite Hp, Hshape.
  - intros st1 stat. apply isEnumValue_looksLikeEnumValue.
  - intros Hauto Henum. unfold patchDSL. rewrite Hauto, Henum. cbn [negb].
    match goal with
    | |- context [foldl (patchStat klass) (st, ?header) (rhs klass)] =>
        destruct (foldl_patchStat st klass (rhs klass) st header)
          as (body' & Hbody & Hlen & Hsub);
        rewrite (foldl_patchStat_expandBody klass (rhs klass) st header) in Hbody |- *
    end.
    destruct (expandBody st klass (rhs klass)) as [st' body]. simpl in Hbody.
    injection Hbody as ->. exists st', body'. simpl.
    repeat (split; [done|]). unfold isOpusEnum in *. simpl. exact Henum.
Qed.

End Pass.

Lemma isOpusEnum_iff_witness : isOpusEnum OpusEnumFixture.suit = true.
Proof.
  apply isOpusEnum_iff. split; [reflexivity|].
  eexists _, _, _, _. repeat (split; [reflexivity|]). by left.
Defined.

Lemma patchDSL_shape_witness :
  exists body,
    patchDSL (false, 0%nat) OpusEnumFixture.suit
    = ((false, 2%nat),
       mkClassDef tt tt Class (OpusEnumFixture.EUnresolved OpusEnumFixture.EEmpty 50%N)
         [OpusEnumFixture.EUnresolved
            (OpusEnumFixture.EUnresolved OpusEnumFixture.EEmpty 12%N) 11%N]
         ([ OpusEnumFixture.ESend OpusEnumFixture.ESelf 8%N [OpusEnumFixture.EConstant 4%N];
            OpusEnumFixture.ESend OpusEnumFixture.ESelf 9%N [];
            OpusEnumFixture.ESend OpusEnumFixture.ESelf 10%N [] ] ++ body)) /\
    length body = 5%nat /\
    body !! 1%nat
    = Some (OpusEnumFixture.EAssign (OpusEnumFixture.EUnresolved OpusEnumFixture.EEmpty 60%N)
              (OpusEnumFixture.ESend (OpusEnumFixture.EConstant 3%N) 2%N
                 [OpusEnumFixture.ESend
                    (OpusEnumFixture.EUnresolved OpusEnumFixture.EEmpty 1060%N) 7%N [];
                  OpusEnumFixture.EUnresolved OpusEnumFixture.EEmpty 1060%N])) /\
    body !! 4%nat
    = Some (OpusEnumFixture.EAssign (OpusEnumFixture.EUnresolved OpusEnumFixture.EEmpty 62%N)
              (OpusEnumFixture.EInteger 2)).
Proof.
  destruct (patchDSL_shape (false, 0%nat) OpusEnumFixture.suit) as (_ & _ & _ & _ & H).
  destruct (H eq_refl eq_refl) as (st' & body & Hexp & Hpatch & _).
  vm_compute in Hexp. injection Hexp as <- <-.
  eexists. split; [exact Hpatch|]. split; [reflexivity|]. split; reflexivity.
Defined.

Lemma processStat_outcome_witness :
  exists st' classDef singleton,
    processStat (false, 0%nat) OpusEnumFixture.suit
      (OpusEnumFixture.EAssign (OpusEnumFixture.EUnresolved OpusEnumFixture.EEmpty 60%N)
         (OpusEnumFixture.ESend OpusEnumFixture.ESelf 1%N []))
    = (st', [classDef; singleton]) /\
    st' = (false, 1%nat).
Proof.
  destruct (processStat_outcome (false, 0%nat) OpusEnumFixture.suit
      (OpusEnumFixture.EAssign (OpusEnumFixture.EUnresolved OpusEnumFixture.EEmpty 60%N)
         (OpusEnumFixture.ESend OpusEnumFixture.ESelf 1%N [])))
    as [H|(asgn & lhs' & parentBody & name' & value & _ & _ & _ & _ & H)].
  - vm_compute in H. discriminate.
  - rewrite H. eexists _, _, _. split; [reflexivity|]. vm_compute in H. by injection H.
Defined.

End OpusEnumFacts.

(** ** The properties at work on the small symbol table *)

Lemma Fixture_B_finalized : finalized Fixture.gs Fixture.B 1.
Proof.
  apply finalized_super; [reflexivity|reflexivity|]. apply finalized_top; reflexivity.
Qed.

Lemma Fixture_M_finalized : finalized Fixture.gs Fixture.M 0.
Proof. apply finalized_top; reflexivity. Qed.

Lemma ancestors_Ok_iff_witness :
  ancestors 3 Fixture.gs Fixture.B = Ok [Fixture.B; Fixture.M; Fixture.A].
Proof.
  apply ancestors_Ok_iff. exists 1%nat. split; [lia|].
  split; [apply Fixture_B_finalized|reflexivity].
Defined.

Lemma similarMethodsForReceiver_returns_witness :
  exists m,
    similarMethodsForReceiver Fixture.similar 3 Fixture.gs
      (AndType (ClassType Fixture.B) (ProxyType (ClassType Fixture.M))) "foo" = Ok m.
Proof.
  apply similarMethodsForReceiver_returns. simpl.
  repeat constructor.
  - exists 1%nat. split; [lia|apply Fixture_B_finalized].
  - exists 0%nat. split; [lia|apply Fixture_M_finalized].
Defined.

Lemma allSimilarMethods_returns_witness :
  exists m,
    allSimilarMethods Fixture.similar 3 Fixture.gs
      (mkDispatchResult (mkDispatchComponent (ClassType Fixture.B) None)
         (Some (mkDispatchResult (mkDispatchComponent (ClassType Fixture.M) None) None OR))
         AND) "foo" = Ok m.
Proof.
  apply allSimilarMethods_returns. simpl.
  intros component [->|[->|[]%elem_of_nil]%elem_of_cons]%elem_of_cons; simpl;
    repeat constructor.
  - exists 1%nat. split; [lia|apply Fixture_B_finalized].
  - exists 0%nat. split; [lia|apply Fixture_M_finalized].
Defined.
